(** * Loss functions of lib/model/losses_tf.py

    A shallow embedding of the custom Keras losses and of the masked,
    weighted loss wrapper.

    Conventions of the model.
    - An image tensor is a rank-4 nested list, indexed (batch, height,
      width, channel), as the source indexes it.
    - float32 arithmetic is idealised by the real numbers: rounding, NaN and
      infinities are not represented.  Division is the total division of
      [R]; TensorFlow's division never raises either (it yields inf or NaN).
    - A TensorFlow operation that raises on incompatible shapes returns
      [Err IncompatibleShapes]; the source catches nothing, so an error
      propagates to the caller through [bind].
    - Library primitives whose body is not in the source file (the SSIM
      primitives, reflect padding, depthwise convolution, the reduction that
      [Loss.__call__] applies, the loss container) are the fields of the
      class [TensorFlow]; every statement holds for every instance. *)

From Stdlib Require Import List ZArith Lia Bool Reals Lra.
From Equations Require Import Equations.
Import ListNotations.

Set Implicit Arguments.

(* ------------------------------------------------------------------ *)
(** * Errors *)

Inductive error : Type :=
| IncompatibleShapes   (* tf.errors.InvalidArgumentError on operand shapes *)
| IndexOutOfRange      (* an integer index outside its axis *)
| ConfigurationError.  (* an invalid constructor argument; no source path raises it *)

Inductive result (A : Type) : Type :=
| Ok (a : A)
| Err (e : error).

Arguments Ok {A} a.
Arguments Err {A} e.

Definition bind {A B} (m : result A) (k : A -> result B) : result B :=
  match m with
  | Ok a => k a
  | Err e => Err e
  end.

Notation "x <- m ;; k" := (bind m (fun x => k))
  (at level 61, m at next level, right associativity).

Fixpoint mapM {A B} (f : A -> result B) (l : list A) : result (list B) :=
  match l with
  | [] => Ok []
  | x :: l' => y <- f x ;; ys <- mapM f l' ;; Ok (y :: ys)
  end.

(** Pairwise traversal of two lists of the same length. *)
Fixpoint zipM {A B C} (f : A -> B -> result C) (xs : list A) (ys : list B)
  : result (list C) :=
  match xs, ys with
  | [], [] => Ok []
  | x :: xs', y :: ys' => z <- f x y ;; zs <- zipM f xs' ys' ;; Ok (z :: zs)
  | _, _ => Err IncompatibleShapes
  end.

(* ------------------------------------------------------------------ *)
(** * Python slices [l[start:stop]] with step 1 *)

Definition norm_index (len i : Z) : Z :=
  if (i <? 0)%Z then Z.max (i + len) 0 else Z.min i len.

Definition slice_bounds (start stop : option Z) (n : nat) : nat * nat :=
  let len := Z.of_nat n in
  let lo := match start with None => 0%Z | Some i => norm_index len i end in
  let hi := match stop with None => len | Some j => norm_index len j end in
  (Z.to_nat lo, Z.to_nat (hi - lo)).

Definition py_slice {A} (start stop : option Z) (l : list A) : list A :=
  let '(lo, cnt) := slice_bounds start stop (length l) in
  firstn cnt (skipn lo l).

(** Python indexing [l[i]] with a possibly negative index. *)
Definition py_index {A} (i : Z) (l : list A) : result A :=
  let len := Z.of_nat (length l) in
  let j := if (i <? 0)%Z then (i + len)%Z else i in
  if ((0 <=? j) && (j <? len))%Z
  then match nth_error l (Z.to_nat j) with
       | Some x => Ok x
       | None => Err IndexOutOfRange
       end
  else Err IndexOutOfRange.

Example py_slice_examples :
  py_slice (Some 1%Z) (Some 2%Z) [10; 20; 30; 40] = [20] /\
  py_slice (Some 2%Z) None [10; 20; 30; 40] = [30; 40] /\
  py_slice None (Some (-2)%Z) [10; 20; 30; 40] = [10; 20] /\
  py_slice (Some (-1)%Z) None [10; 20; 30; 40] = [40] /\
  py_slice (Some (-2)%Z) (Some (-1)%Z) [10; 20; 30; 40] = [30] /\
  py_slice (Some (-2)%Z) (Some (-1)%Z) [10] = [] /\
  py_slice None (Some 3%Z) [10; 20; 30; 40; 50; 60] = [10; 20; 30].
Proof. repeat split; reflexivity. Qed.

(* ------------------------------------------------------------------ *)
(** * Tensors *)

Open Scope R_scope.

Abbreviation pixel := (list R).                    (* channel axis *)
Abbreviation tensor3 := (list (list (list R))).    (* (batch, height, width) *)
Abbreviation tensor4 := (list (list (list (list R)))). (* (batch, height, width, channel) *)

(** A slice [a:b] of one axis; [full] is [:]. *)
Definition slice := (option Z * option Z)%type.
Definition full : slice := (None, None).
Definition sl (a b : Z) : slice := (Some a, Some b).
Definition from (a : Z) : slice := (Some a, None).
Definition upto (b : Z) : slice := (None, Some b).

Definition take {A} (s : slice) (l : list A) : list A :=
  py_slice (fst s) (snd s) l.

(** [slice4 img sb sh sw sc] is [img[sb, sh, sw, sc]]. *)
Definition slice4 (img : tensor4) (sb sh sw sc : slice) : tensor4 :=
  map (fun smp => map (fun row => map (take sc) (take sw row)) (take sh smp))
      (take sb img).

(** Element-wise traversal of one axis with TensorFlow's broadcasting: equal
    lengths are paired, an axis of length 1 is repeated along the other
    operand, anything else is an error. *)
Definition bcast {A B C} (f : A -> B -> result C) (xs : list A) (ys : list B)
  : result (list C) :=
  if Nat.eqb (length xs) (length ys) then zipM f xs ys
  else match xs, ys with
       | [x], _ => mapM (f x) ys
       | _, [y] => mapM (fun x => f x y) xs
       | _, _ => Err IncompatibleShapes
       end.

(** Binary element-wise operators [a + b], [a - b], [a * b], [a / b]. *)
Definition tbin (op : R -> R -> R) : tensor4 -> tensor4 -> result tensor4 :=
  bcast (bcast (bcast (bcast (fun x y => Ok (op x y))))).

(** An operator between a tensor and a Python scalar. *)
Definition tmap (f : R -> R) (t : tensor4) : tensor4 :=
  map (map (map (map f))) t.

Definition tmap3 (f : R -> R) (t : tensor3) : tensor3 :=
  map (map (map f)) t.

(** All entries of a list of naturals are equal. *)
Definition uniform (l : list nat) : bool :=
  match l with
  | [] => true
  | n :: l' => forallb (Nat.eqb n) l'
  end.

(** A nested list is a rectangular array. *)
Definition rect4 (t : tensor4) : bool :=
  uniform (map (@length _) t) &&
  uniform (map (@length _) (concat t)) &&
  uniform (map (@length _) (concat (concat t))).

Inductive axis := Axis1 | Axis2 | AxisLast.

Definition concat2 (ax : axis) (a b : tensor4) : result tensor4 :=
  match ax with
  | Axis1 => zipM (fun x y => Ok (x ++ y)) a b
  | Axis2 => zipM (zipM (fun x y => Ok (x ++ y))) a b
  | AxisLast => zipM (zipM (zipM (fun x y => Ok (x ++ y)))) a b
  end.

(** [K.concatenate(ts, axis)]: the operands must agree on every other axis,
    so the result is rectangular.  (A zero-length axis hides the lengths of
    the axes below it in this representation.) *)
Definition K_concatenate (ts : list tensor4) (ax : axis) : result tensor4 :=
  match ts with
  | [] => Err IncompatibleShapes
  | t :: ts' =>
      r <- fold_left (fun acc u => a <- acc ;; concat2 ax a u) ts' (Ok t) ;;
      if rect4 r then Ok r else Err IncompatibleShapes
  end.

Fixpoint sum (l : list R) : R :=
  match l with
  | [] => 0
  | x :: l' => x + sum l'
  end.

Definition mean (l : list R) : R := sum l / INR (length l).

(** [K.mean(t, axis=-1)]. *)
Definition K_mean_last (t : tensor4) : tensor3 :=
  map (map (map mean)) t.

(** Element-wise maximum of the entries of a non-empty list of equally long
    lists.  TensorFlow returns -inf per entry for an empty reduction axis,
    which the reals do not have: the empty case is outside the model. *)
Definition zip_with {A B C} (f : A -> B -> C) (xs : list A) (ys : list B) : list C :=
  map (fun p => f (fst p) (snd p)) (combine xs ys).

Definition max_along {A} (emax : A -> A -> A) (dflt : A) (l : list A) : A :=
  match l with
  | [] => dflt
  | x :: l' => fold_left emax l' x
  end.

(** [K.max(t, axis=(1, 2), keepdims=True)]: the height axis is reduced, then
    the width axis; both are kept with length 1. *)
Definition K_max_12_keepdims (t : tensor4) : tensor4 :=
  map (fun smp =>
         let row := max_along (zip_with (zip_with Rmax)) [] smp in
         let px := max_along (zip_with Rmax) [] row in
         [[px]]) t.

(** [K.std(t, axis=(1, 2, 3), keepdims=True)]: population standard
    deviation of all the entries of a sample. *)
Definition std (l : list R) : R :=
  let m := mean l in
  sqrt (mean (map (fun x => (x - m) * (x - m)) l)).

Definition K_std_123_keepdims (t : tensor4) : tensor4 :=
  map (fun smp => [[[std (concat (concat smp))]]]) t.

(** [K.squeeze(t, axis=-1)]: the last axis must have length 1. *)
Definition K_squeeze_last (t : tensor4) : result tensor3 :=
  mapM (mapM (mapM (fun px : pixel =>
                      match px with
                      | [x] => Ok x
                      | _ => Err IncompatibleShapes
                      end))) t.

(** [K.expand_dims(t, axis=-1)]. *)
Definition K_expand_dims_last (t : tensor3) : tensor4 :=
  map (map (map (fun x => [x]))) t.

(** [t[..., k]] with an integer [k]. *)
Definition index_last (t : tensor4) (k : Z) : result tensor3 :=
  mapM (mapM (mapM (py_index k))) t.

(** [K.int_shape(t)[1]]: the height.  With an empty batch the nested list
    no longer carries it. *)
Definition int_shape_1 (t : tensor4) : Z :=
  Z.of_nat (length (hd [] t)).

(** [K.pow(x, y)] on the reals: [exp (y * ln x)] for a positive base,
    repeated multiplication for an integral exponent.  A non-positive base
    with a fractional exponent has no real value (NaN in float32, or 0.0 at
    base 0.0) and is outside the model. *)
Definition K_pow (x y : R) : R :=
  if Rlt_dec 0 x then Rpower x y
  else if Req_dec_T y (IZR (Int_part y)) then powerRZ x (Int_part y)
  else 0.

Definition K_square (x : R) : R := x * x.

(* ------------------------------------------------------------------ *)
(** * Library primitives used by the losses *)

Class TensorFlow := {
  (** [tf.image.ssim(img1, img2, max_val, filter_size, filter_sigma, k1, k2)],
      one value per sample. *)
  tf_image_ssim :
    tensor4 -> tensor4 -> R -> Z -> R -> R -> R -> result (list R);
  (** [tf.image.ssim_multiscale(img1, img2, max_val, power_factors,
      filter_size, filter_sigma, k1, k2)], one value per sample. *)
  tf_image_ssim_multiscale :
    tensor4 -> tensor4 -> R -> list R -> Z -> R -> R -> R -> result (list R);
  (** [tf.pad(t, paddings, mode='REFLECT')]. *)
  tf_pad_reflect : tensor4 -> list (nat * nat) -> result tensor4;
  (** [K.depthwise_conv2d(x, kernel)]. *)
  K_depthwise_conv2d : tensor4 -> tensor4 -> result tensor4;
  (** Lines 470-473 of [_scharr_edges]: reshape to [image_shape + [2]] and
      [tf.atan] of the quotient of the two orientations. *)
  edge_direction : tensor4 -> tensor4 -> result tensor4;
  (** The reduction that [tf.keras.losses.Loss.__call__] applies to the
      value of [call] under the default [reduction] argument. *)
  loss_reduction : tensor3 -> R;
  (** Loss objects accepted by [compile_utils.LossesContainer], and the
      compiled container as a callable returning the total loss. *)
  Loss : Type;
  LossesContainer : Loss -> tensor4 -> tensor4 -> result R
}.

Section Losses.
Context {TF : TensorFlow}.

(* ------------------------------------------------------------------ *)
(** * DSSIMObjective *)

Record DSSIMObjective := {
  _filter_size : Z;
  _filter_sigma : R;
  _k_1 : R;
  _k_2 : R;
  _max_value : R
}.

Definition DSSIMObjective_init (k_1 k_2 : R) (filter_size : Z)
  (filter_sigma max_value : R) : DSSIMObjective :=
  {| _filter_size := filter_size; _filter_sigma := filter_sigma;
     _k_1 := k_1; _k_2 := k_2; _max_value := max_value |}.

Definition DSSIMObjective_default : DSSIMObjective :=
  DSSIMObjective_init 0.01 0.03 11 1.5 1.0.

Definition DSSIMObjective_call (self : DSSIMObjective) (y_true y_pred : tensor4)
  : result (list R) :=
  ssim <- tf_image_ssim y_true y_pred self.(_max_value) self.(_filter_size)
            self.(_filter_sigma) self.(_k_1) self.(_k_2) ;;
  let dssim_loss := map (fun s => (1 - s) / 2.0) ssim in
  Ok dssim_loss.

(* ------------------------------------------------------------------ *)
(** * MSSSIMLoss *)

Record MSSSIMLoss := {
  filter_size : Z;
  filter_sigma : R;
  k_1 : R;
  k_2 : R;
  max_value : R;
  power_factors : list R
}.

Definition MSSSIMLoss_init (k_1 k_2 : R) (filter_size : Z)
  (filter_sigma max_value : R) (power_factors : list R) : MSSSIMLoss :=
  {| filter_size := filter_size; filter_sigma := filter_sigma;
     k_1 := k_1; k_2 := k_2; max_value := max_value;
     power_factors := power_factors |}.

Definition MSSSIMLoss_default : MSSSIMLoss :=
  MSSSIMLoss_init 0.01 0.03 4 1.5 1.0 [0.0448; 0.2856; 0.3001; 0.2363; 0.1333].

(** The recursion of the source on the Python integers; [//] is floor
    division. *)
Equations _get_smallest_size (size idx : Z) : Z by wf (Z.to_nat idx) lt :=
  _get_smallest_size size idx with Z_gt_dec idx 0 := {
    | left _ => _get_smallest_size (size / 2)%Z (idx - 1)%Z
    | right _ => size
  }.
Next Obligation. lia. Qed.

Definition MSSSIMLoss_call (self : MSSSIMLoss) (y_true y_pred : tensor4)
  : result (list R) :=
  let im_size := int_shape_1 y_true in
  let smallest_scale :=
    _get_smallest_size im_size (Z.of_nat (length self.(power_factors)) - 1)%Z in
  let filter_size := Z.min self.(filter_size) smallest_scale in
  ms_ssim <- tf_image_ssim_multiscale y_true y_pred self.(max_value)
               self.(power_factors) filter_size self.(filter_sigma)
               self.(k_1) self.(k_2) ;;
  let ms_ssim_loss := map (fun s => 1 - s) ms_ssim in
  Ok ms_ssim_loss.

(* ------------------------------------------------------------------ *)
(** * GeneralizedLoss *)

Record GeneralizedLoss := {
  alpha : R;
  beta : R
}.

(** [__init__] stores its arguments; it has no failing path. *)
Definition GeneralizedLoss_init (alpha beta : R) : result GeneralizedLoss :=
  Ok {| alpha := alpha; beta := beta |}.

Definition GeneralizedLoss_default_alpha : R := 1.0.
Definition GeneralizedLoss_default_beta : R := 1.0 / 255.0.

Definition GeneralizedLoss_call (self : GeneralizedLoss) (y_true y_pred : tensor4)
  : result tensor3 :=
  diff <- tbin Rminus y_pred y_true ;;
  let second :=
    tmap (fun x => x - 1)
      (tmap (fun x => K_pow x (self.(alpha) / 2))
         (tmap (fun x => x + 1)
            (tmap (fun x => x / Rabs (2 - self.(alpha)))
               (tmap (fun x => K_pow x 2)
                  (tmap (fun x => x / self.(beta)) diff))))) in
  let loss := tmap (fun x => (Rabs (2 - self.(alpha)) / self.(alpha)) * x) second in
  let loss := tmap3 (fun x => x * self.(beta)) (K_mean_last loss) in
  Ok loss.

(** [tf.keras.losses.Loss.__call__] of a [GeneralizedLoss] instance:
    [call], then the reduction. *)
Definition GeneralizedLoss___call__ (self : GeneralizedLoss)
  (y_true y_pred : tensor4) : result R :=
  losses <- GeneralizedLoss_call self y_true y_pred ;;
  Ok (loss_reduction losses).

(* ------------------------------------------------------------------ *)
(** * LInfNorm *)

Definition LInfNorm_call (y_true y_pred : tensor4) : result tensor3 :=
  d <- tbin Rminus y_true y_pred ;;
  let diff := tmap Rabs d in
  let max_loss := K_max_12_keepdims diff in
  let loss := K_mean_last max_loss in
  Ok loss.

(* ------------------------------------------------------------------ *)
(** * GradientLoss *)

Record GradientLoss := {
  generalized_loss : GeneralizedLoss
}.

Definition GradientLoss_init : result GradientLoss :=
  g <- GeneralizedLoss_init 1.9999 GeneralizedLoss_default_beta ;;
  Ok {| generalized_loss := g |}.

Definition _diff_x (img : tensor4) : result tensor4 :=
  x_left <- tbin Rminus (slice4 img full full (sl 1 2) full)
                        (slice4 img full full (sl 0 1) full) ;;
  x_inner <- tbin Rminus (slice4 img full full (from 2) full)
                         (slice4 img full full (upto (-2)) full) ;;
  x_right <- tbin Rminus (slice4 img full full (from (-1)) full)
                         (slice4 img full full (sl (-2) (-1)) full) ;;
  x_out <- K_concatenate [x_left; x_inner; x_right] Axis2 ;;
  Ok (tmap (fun x => x * 0.5) x_out).

Definition _diff_y (img : tensor4) : result tensor4 :=
  y_top <- tbin Rminus (slice4 img full (sl 1 2) full full)
                       (slice4 img full (sl 0 1) full full) ;;
  y_inner <- tbin Rminus (slice4 img full (from 2) full full)
                         (slice4 img full (upto (-2)) full full) ;;
  y_bot <- tbin Rminus (slice4 img full (from (-1)) full full)
                       (slice4 img full (sl (-2) (-1)) full full) ;;
  y_out <- K_concatenate [y_top; y_inner; y_bot] Axis1 ;;
  Ok (tmap (fun x => x * 0.5) y_out).

Definition _diff_xx (img : tensor4) : result tensor4 :=
  x_left <- tbin Rplus (slice4 img full full (sl 1 2) full)
                       (slice4 img full full (sl 0 1) full) ;;
  x_inner <- tbin Rplus (slice4 img full full (from 2) full)
                        (slice4 img full full (upto (-2)) full) ;;
  x_right <- tbin Rplus (slice4 img full full (from (-1)) full)
                        (slice4 img full full (sl (-2) (-1)) full) ;;
  x_out <- K_concatenate [x_left; x_inner; x_right] Axis2 ;;
  tbin Rminus x_out (tmap (fun x => 2.0 * x) img).

Definition _diff_yy (img : tensor4) : result tensor4 :=
  y_top <- tbin Rplus (slice4 img full (sl 1 2) full full)
                      (slice4 img full (sl 0 1) full full) ;;
  y_inner <- tbin Rplus (slice4 img full (from 2) full full)
                        (slice4 img full (upto (-2)) full full) ;;
  y_bot <- tbin Rplus (slice4 img full (from (-1)) full full)
                      (slice4 img full (sl (-2) (-1)) full full) ;;
  y_out <- K_concatenate [y_top; y_inner; y_bot] Axis1 ;;
  tbin Rminus y_out (tmap (fun x => 2.0 * x) img).

(** The second group of assignments rebinds the names of the first group,
    as in the source. *)
Definition _diff_xy (img : tensor4) : result tensor4 :=
  (* xout1 *)
  top_left <- tbin Rplus (slice4 img full (sl 1 2) (sl 1 2) full)
                         (slice4 img full (sl 0 1) (sl 0 1) full) ;;
  inner_left <- tbin Rplus (slice4 img full (from 2) (sl 1 2) full)
                           (slice4 img full (upto (-2)) (sl 0 1) full) ;;
  bot_left <- tbin Rplus (slice4 img full (from (-1)) (sl 1 2) full)
                         (slice4 img full (sl (-2) (-1)) (sl 0 1) full) ;;
  xy_left <- K_concatenate [top_left; inner_left; bot_left] Axis1 ;;

  top_mid <- tbin Rplus (slice4 img full (sl 1 2) (from 2) full)
                        (slice4 img full (sl 0 1) (upto (-2)) full) ;;
  mid_mid <- tbin Rplus (slice4 img full (from 2) (from 2) full)
                        (slice4 img full (upto (-2)) (upto (-2)) full) ;;
  bot_mid <- tbin Rplus (slice4 img full (from (-1)) (from 2) full)
                        (slice4 img full (sl (-2) (-1)) (upto (-2)) full) ;;
  xy_mid <- K_concatenate [top_mid; mid_mid; bot_mid] Axis1 ;;

  top_right <- tbin Rplus (slice4 img full (sl 1 2) (from (-1)) full)
                          (slice4 img full (sl 0 1) (sl (-2) (-1)) full) ;;
  inner_right <- tbin Rplus (slice4 img full (from 2) (from (-1)) full)
                            (slice4 img full (upto (-2)) (sl (-2) (-1)) full) ;;
  bot_right <- tbin Rplus (slice4 img full (from (-1)) (from (-1)) full)
                          (slice4 img full (sl (-2) (-1)) (sl (-2) (-1)) full) ;;
  xy_right <- K_concatenate [top_right; inner_right; bot_right] Axis1 ;;

  (* Xout2 *)
  top_left <- tbin Rplus (slice4 img full (sl 0 1) (sl 1 2) full)
                         (slice4 img full (sl 1 2) (sl 0 1) full) ;;
  inner_left <- tbin Rplus (slice4 img full (upto (-2)) (sl 1 2) full)
                           (slice4 img full (from 2) (sl 0 1) full) ;;
  bot_left <- tbin Rplus (slice4 img full (sl (-2) (-1)) (sl 1 2) full)
                         (slice4 img full (from (-1)) (sl 0 1) full) ;;
  xy_left <- K_concatenate [top_left; inner_left; bot_left] Axis1 ;;

  top_mid <- tbin Rplus (slice4 img full (sl 0 1) (from 2) full)
                        (slice4 img full (sl 1 2) (upto (-2)) full) ;;
  mid_mid <- tbin Rplus (slice4 img full (upto (-2)) (from 2) full)
                        (slice4 img full (from 2) (upto (-2)) full) ;;
  bot_mid <- tbin Rplus (slice4 img full (sl (-2) (-1)) (from 2) full)
                        (slice4 img full (from (-1)) (upto (-2)) full) ;;
  xy_mid <- K_concatenate [top_mid; mid_mid; bot_mid] Axis1 ;;

  top_right <- tbin Rplus (slice4 img full (sl 0 1) (from (-1)) full)
                          (slice4 img full (sl 1 2) (sl (-2) (-1)) full) ;;
  inner_right <- tbin Rplus (slice4 img full (upto (-2)) (from (-1)) full)
                            (slice4 img full (from 2) (sl (-2) (-1)) full) ;;
  bot_right <- tbin Rplus (slice4 img full (sl (-2) (-1)) (from (-1)) full)
                          (slice4 img full (from (-1)) (sl (-2) (-1)) full) ;;
  xy_right <- K_concatenate [top_right; inner_right; bot_right] Axis1 ;;

  xy_out1 <- K_concatenate [xy_left; xy_mid; xy_right] Axis2 ;;
  xy_out2 <- K_concatenate [xy_left; xy_mid; xy_right] Axis2 ;;
  d <- tbin Rminus xy_out1 xy_out2 ;;
  Ok (tmap (fun x => x * 0.25) d).

Definition GradientLoss_call (self : GradientLoss) (y_true y_pred : tensor4)
  : result R :=
  let tv_weight := 1.0 in
  let tv2_weight := 1.0 in
  let loss := 0.0 in
  x_true <- _diff_x y_true ;;
  x_pred <- _diff_x y_pred ;;
  g_x <- GeneralizedLoss___call__ self.(generalized_loss) x_true x_pred ;;
  y_true' <- _diff_y y_true ;;
  y_pred' <- _diff_y y_pred ;;
  g_y <- GeneralizedLoss___call__ self.(generalized_loss) y_true' y_pred' ;;
  let loss := loss + tv_weight * (g_x + g_y) in
  xx_true <- _diff_xx y_true ;;
  xx_pred <- _diff_xx y_pred ;;
  g_xx <- GeneralizedLoss___call__ self.(generalized_loss) xx_true xx_pred ;;
  yy_true <- _diff_yy y_true ;;
  yy_pred <- _diff_yy y_pred ;;
  g_yy <- GeneralizedLoss___call__ self.(generalized_loss) yy_true yy_pred ;;
  xy_true <- _diff_xy y_true ;;
  xy_pred <- _diff_xy y_pred ;;
  g_xy <- GeneralizedLoss___call__ self.(generalized_loss) xy_true xy_pred ;;
  let loss := loss + tv2_weight * (g_xx + g_yy + g_xy * 2) in
  let loss := loss / (tv_weight + tv2_weight) in
  Ok loss.

(* ------------------------------------------------------------------ *)
(** * GMSDLoss *)

(** The 5x5 modified Scharr kernel, of shape (5, 5, 1, 2). *)
Definition scharr_matrix : tensor4 :=
  [[[[0.00070; 0.00070]];
    [[0.00520; 0.00370]];
    [[0.03700; 0.00000]];
    [[0.00520; -0.0037]];
    [[0.00070; -0.0007]]];
   [[[0.00370; 0.00520]];
    [[0.11870; 0.11870]];
    [[0.25890; 0.00000]];
    [[0.11870; -0.1187]];
    [[0.00370; -0.0052]]];
   [[[0.00000; 0.03700]];
    [[0.00000; 0.25890]];
    [[0.00000; 0.00000]];
    [[0.00000; -0.2589]];
    [[0.00000; -0.0370]]];
   [[[-0.0037; 0.00520]];
    [[-0.1187; 0.11870]];
    [[-0.2589; 0.00000]];
    [[-0.1187; -0.1187]];
    [[-0.0037; -0.0052]]];
   [[[-0.0007; 0.00070]];
    [[-0.0052; 0.00370]];
    [[-0.0370; 0.00000]];
    [[-0.0052; -0.0037]];
    [[-0.0007; -0.0007]]]].

(** [K.shape(image)[-1]]. *)
Definition shape_last (image : tensor4) : nat :=
  length (hd [] (hd [] (hd [] image))).

(** [K.tile(kernels, [1, 1, n, 1])]. *)
Definition K_tile_axis2 (kernels : tensor4) (n : nat) : tensor4 :=
  map (map (fun l => concat (repeat l n))) kernels.

Definition _scharr_edges (image : tensor4) (magnitude : bool) : result tensor4 :=
  let kernels := scharr_matrix in
  let kernels := K_tile_axis2 kernels (shape_last image) in
  let pad_sizes := [(0, 0); (2, 2); (2, 2); (0, 0)]%nat in
  padded <- tf_pad_reflect image pad_sizes ;;
  output <- K_depthwise_conv2d padded kernels ;;
  if negb magnitude then edge_direction image output else Ok output.

Definition GMSDLoss_call (y_true y_pred : tensor4) : result tensor3 :=
  true_edge <- _scharr_edges y_true true ;;
  pred_edge <- _scharr_edges y_pred true ;;
  let ephsilon := 0.0025 in
  upper <- tbin Rmult (tmap (fun x => 2.0 * x) true_edge) pred_edge ;;
  lower <- tbin Rplus (tmap K_square true_edge) (tmap K_square pred_edge) ;;
  gms <- tbin Rdiv (tmap (fun x => x + ephsilon) upper)
                   (tmap (fun x => x + ephsilon) lower) ;;
  let gmsd := K_std_123_keepdims gms in
  K_squeeze_last gmsd.

(* ------------------------------------------------------------------ *)
(** * LossWrapper *)

Record LossWrapper := {
  _loss_functions : list (tensor4 -> tensor4 -> result R);
  _loss_weights : list R;
  _mask_channels : list Z
}.

Definition LossWrapper_init : LossWrapper :=
  {| _loss_functions := []; _loss_weights := []; _mask_channels := [] |}.

(** [add_loss] mutates the three lists of [self]; the updated wrapper is
    returned. *)
Definition add_loss (self : LossWrapper) (function : Loss) (weight : R)
  (mask_channel : Z) : LossWrapper :=
  {| _loss_functions := self.(_loss_functions) ++ [LossesContainer function];
     _loss_weights := self.(_loss_weights) ++ [weight];
     _mask_channels := self.(_mask_channels) ++ [mask_channel] |}.

Definition add_loss_default_weight : R := 1.0.
Definition add_loss_default_mask_channel : Z := (-1)%Z.

Definition _apply_mask (y_true y_pred : tensor4) (mask_channel : Z) (mask_prop : R)
  : result (tensor4 * tensor4) :=
  if (mask_channel =? -1)%Z then
    Ok (slice4 y_true full full full (upto 3), slice4 y_pred full full full (upto 3))
  else
    m <- index_last y_true mask_channel ;;
    let mask := K_expand_dims_last m in
    let mask_as_k_inv_prop := 1 - mask_prop in
    let mask := tmap (fun x => x * mask_prop + mask_as_k_inv_prop) mask in
    ts <- mapM (fun i => tbin Rmult (slice4 y_true full full full (sl i (i + 1))) mask)
               [0; 1; 2]%Z ;;
    n_true <- K_concatenate ts AxisLast ;;
    ps <- mapM (fun i => tbin Rmult (slice4 y_pred full full full (sl i (i + 1))) mask)
               [0; 1; 2]%Z ;;
    n_pred <- K_concatenate ps AxisLast ;;
    Ok (n_true, n_pred).

Definition _apply_mask_default_mask_prop : R := 1.0.

(** Python's [zip] of three lists stops at the shortest. *)
Fixpoint zip3 {A B C} (xs : list A) (ys : list B) (zs : list C) : list (A * B * C) :=
  match xs, ys, zs with
  | x :: xs', y :: ys', z :: zs' => (x, y, z) :: zip3 xs' ys' zs'
  | _, _, _ => []
  end.

Definition LossWrapper___call__ (self : LossWrapper) (y_true y_pred : tensor4)
  : result R :=
  let loss := 0.0 in
  fold_left
    (fun acc '(func, weight, mask_channel) =>
       loss <- acc ;;
       n <- _apply_mask y_true y_pred mask_channel _apply_mask_default_mask_prop ;;
       let '(n_true, n_pred) := n in
       v <- func n_true n_pred ;;
       Ok (loss + v * weight))
    (zip3 self.(_loss_functions) self.(_loss_weights) self.(_mask_channels))
    (Ok loss).

End Losses.

(* ================================================================== *)
(** * Definitions used by the statements *)

(** A list of [n] entries that all satisfy [P]. *)
Definition all_len {A} (P : A -> Prop) (n : nat) (l : list A) : Prop :=
  length l = n /\ Forall P l.

(** [has_shape b h w c t]: [t] is a rectangular (b, h, w, c) array. *)
Definition has_shape (b h w c : nat) (t : tensor4) : Prop :=
  all_len (all_len (all_len (fun p : pixel => length p = c) w) h) b t.

(** [has_shape3 b h w t]: [t] is a rectangular (b, h, w) array. *)
Definition has_shape3 (b h w : nat) (t : tensor3) : Prop :=
  all_len (all_len (fun r : list R => length r = w) h) b t.

(** The all-zero arrays. *)
Definition zeros (b h w c : nat) : tensor4 :=
  repeat (repeat (repeat (repeat 0 c) w) h) b.

Definition zeros3 (b h w : nat) : tensor3 :=
  repeat (repeat (repeat 0 w) h) b.

(** Number of entries of a slice of an axis of length [n]. *)
Definition slice_len (s : slice) (n : nat) : nat :=
  let '(lo, cnt) := slice_bounds (fst s) (snd s) n in
  Nat.min cnt (n - lo).

(** Element-wise combination of two arrays of the same shape. *)
Definition zip4 (op : R -> R -> R) (a b : tensor4) : tensor4 :=
  zip_with (zip_with (zip_with (zip_with op))) a b.

(** Concatenation of two arrays along an axis. *)
Definition cat (ax : axis) (a b : tensor4) : tensor4 :=
  match ax with
  | Axis1 => zip_with (@app _) a b
  | Axis2 => zip_with (zip_with (@app _)) a b
  | AxisLast => zip_with (zip_with (zip_with (@app _))) a b
  end.

(** Every entry of an array satisfies [P]. *)
Definition all_entries (P : R -> Prop) (t : tensor4) : Prop :=
  Forall (Forall (Forall (Forall P))) t.

(** [at4 t i j k l] is [t[i, j, k, l]] for indices within the shape. *)
Definition at4 (t : tensor4) (i j k l : nat) : R :=
  nth l (nth k (nth j (nth i t []) []) []) 0.

(** The x-difference of one image row, before the factor 0.5. *)
Definition diff_x_row (row : list pixel) : list pixel :=
  (zip_with (zip_with Rminus) (take (sl 1 2) row) (take (sl 0 1) row) ++
   zip_with (zip_with Rminus) (take (from 2) row) (take (upto (-2)) row)) ++
  zip_with (zip_with Rminus) (take (from (-1)) row) (take (sl (-2) (-1)) row).

(** A 2x2 image with one channel. *)
Definition img_2x2 : tensor4 := [[[[1]; [2]]; [[3]; [5]]]].

(** The 1-D analog of the specification: one row with values 0, 2, 4, 6. *)
Definition row_0246 : tensor4 := [[[[0]; [2]; [4]; [6]]]].

(** [at3 t i j k] is [t[i, j, k]] for indices within the shape. *)
Definition at3 (t : tensor3) (i j k : nat) : R :=
  nth k (nth j (nth i t []) []) 0.

(** The element-wise loss of the specification:
    d = (pred - true) / beta,
    loss_elem = (|2 - alpha| / alpha) * ((d^2 / |2 - alpha| + 1)^(alpha/2) - 1). *)
Definition loss_elem (alpha beta : R) (v_true v_pred : R) : R :=
  let d := (v_pred - v_true) / beta in
  (Rabs (2 - alpha) / alpha) *
  (Rpower (d * d / Rabs (2 - alpha) + 1) (alpha / 2) - 1).

(** The element-wise function that [GeneralizedLoss.call] maps over
    [diff = y_pred - y_true]. *)
Definition call_elem (alpha beta : R) (diff : R) : R :=
  (Rabs (2 - alpha) / alpha) *
  (K_pow (K_pow (diff / beta) 2 / Rabs (2 - alpha) + 1) (alpha / 2) - 1).

(** All the entries of one sample. *)
Definition flatten (smp : list (list (list R))) : list R := concat (concat smp).

(** The claim read literally: per sample, beta times the mean of
    [loss_elem] over all the non-batch axes. *)
Definition generalized_mean_all_axes (alpha beta : R) (y_true y_pred : tensor4)
  : list R :=
  zip_with (fun st sp =>
              beta * mean (zip_with (loss_elem alpha beta) (flatten st) (flatten sp)))
           y_true y_pred.

(** Two one-channel pixels, with errors 2 and 0. *)
Definition two_pixels_true : tensor4 := [[[[0]]; [[0]]]].
Definition two_pixels_pred : tensor4 := [[[[2]]; [[0]]]].

(** The claim read literally: construction or the first call fails with a
    configuration error. *)
Definition fails_with_configuration_error (alpha beta : R)
  (y_true y_pred : tensor4) : Prop :=
  GeneralizedLoss_init alpha beta = Err ConfigurationError \/
  exists self,
    GeneralizedLoss_init alpha beta = Ok self /\
    GeneralizedLoss_call self y_true y_pred = Err ConfigurationError.

(** The generalized error of the specification between two fields of shape
    (b, h, w, c): the (b, h, w) map that holds, at every pixel, beta times
    the mean over the channels of [loss_elem] of the two fields' entries. *)
Definition generalized_error (alpha beta : R) (b h w c : nat)
  (f_true f_pred : tensor4) (e : tensor3) : Prop :=
  has_shape3 b h w e /\
  forall i j k, (i < b)%nat -> (j < h)%nat -> (k < w)%nat ->
    at3 e i j k =
    beta * mean (map (fun l => loss_elem alpha beta
                                 (at4 f_true i j k l) (at4 f_pred i j k l))
                     (seq 0 c)).

(** The weighted average of the specification: first-order terms with
    weight [tv_weight], second-order terms with weight [tv2_weight] and the
    xy term counted twice, divided by the sum of the weights. *)
Definition weighted_average (tv_weight tv2_weight g_x g_y g_xx g_yy g_xy : R) : R :=
  (tv_weight * (g_x + g_y) + tv2_weight * (g_xx + g_yy + 2 * g_xy))
  / (tv_weight + tv2_weight).

(** Equality of arrays is decidable (classically, on the reals). *)
Definition tensor4_eq_dec : forall a b : tensor4, {a = b} + {a <> b} :=
  list_eq_dec (list_eq_dec (list_eq_dec (list_eq_dec Req_dec_T))).

(** A simple instance of [TensorFlow], used to exhibit concrete instances of
    the theorems below: its similarity index is 1 on identical images and 0
    otherwise, padding and convolution return their first operand, the loss
    reduction is the mean of all the entries, and a loss object is the
    function it computes. *)
Definition TF_instance : TensorFlow := {|
  tf_image_ssim := fun a b _ _ _ _ _ =>
    Ok (repeat (if tensor4_eq_dec a b then 1 else 0) (length a));
  tf_image_ssim_multiscale := fun a b _ _ _ _ _ _ =>
    Ok (repeat (if tensor4_eq_dec a b then 1 else 0) (length a));
  tf_pad_reflect := fun t _ => Ok t;
  K_depthwise_conv2d := fun x _ => Ok x;
  edge_direction := fun _ out => Ok out;
  loss_reduction := fun t => mean (concat (concat t));
  Loss := list (list (list (list R))) -> list (list (list (list R))) -> result R;
  LossesContainer := fun f => f
|}.

(** A uniform constant 2x2 image with one channel. *)
Definition img_const : tensor4 := [[[[0.5]; [0.5]]; [[0.5]; [0.5]]]].

(** A second 2x2 image with one channel. *)
Definition img_2x2_pred : tensor4 := [[[[1]; [1]]; [[2]; [5]]]].

(** Integer halving, repeated [n] times. *)
Definition halve_steps (n : nat) (size : Z) : Z :=
  Nat.iter n (fun s => (s / 2)%Z) size.

(** The loss computed with a given filter size at the finest scale. *)
Definition msssim_with_filter_size {TF : TensorFlow} (self : MSSSIMLoss)
  (y_true y_pred : tensor4) (fs : Z) : result (list R) :=
  ms_ssim <- tf_image_ssim_multiscale y_true y_pred self.(max_value)
               self.(power_factors) fs self.(filter_sigma)
               self.(k_1) self.(k_2) ;;
  Ok (map (fun s => 1 - s) ms_ssim).

(** A 32x32 image with one channel. *)
Definition img_32 : tensor4 := [repeat (repeat [0] 32) 32].

(** The wrapper obtained from the empty one by a sequence of [add_loss]
    calls. *)
Definition wrapper_of {TF : TensorFlow} (regs : list (Loss * R * Z)) : LossWrapper :=
  fold_left (fun self '(function, weight, mask_channel) =>
               add_loss self function weight mask_channel)
            regs LossWrapper_init.

(** One iteration of the loop of [__call__]. *)
Definition call_step {TF : TensorFlow} (y_true y_pred : tensor4) (acc : result R)
  (reg : (tensor4 -> tensor4 -> result R) * R * Z) : result R :=
  let '(func, weight, mask_channel) := reg in
  loss <- acc ;;
  n <- _apply_mask y_true y_pred mask_channel _apply_mask_default_mask_prop ;;
  let '(n_true, n_pred) := n in
  v <- func n_true n_pred ;;
  Ok (loss + v * weight).

(** [m] is the maximum of [f j k] over [j < h] and [k < w]. *)
Definition is_max_over (f : nat -> nat -> R) (h w : nat) (m : R) : Prop :=
  (forall j k, (j < h)%nat -> (k < w)%nat -> f j k <= m) /\
  (exists j k, (j < h)%nat /\ (k < w)%nat /\ f j k = m).

(** The maximum over height and width of channel [l] of one sample. *)
Definition sample_max (smp : list (list (list R))) (w l : nat) : R :=
  max_along Rmax 0
    (map (fun k => max_along Rmax 0 (map (fun r => nth l (nth k r []) 0) smp))
         (seq 0 w)).

(** Two 2x2 images with two channels. *)
Definition linf_true : tensor4 := [[[[1; 0]; [2; 0]]; [[3; 0]; [5; 0]]]].
Definition linf_pred : tensor4 := [[[[1; 4]; [1; 0]]; [[2; 0]; [5; 1]]]].

(** The three-part stencil shared by the derivative helpers, along one
    axis: entries [1:2] with [0:1], entries [2:] with [:-2], entries [-1:]
    with [-2:-1], combined by [op] and concatenated. *)
Definition diff_line {A} (op : A -> A -> A) (line : list A) : list A :=
  (zip_with op (take (sl 1 2) line) (take (sl 0 1) line) ++
   zip_with op (take (from 2) line) (take (upto (-2)) line)) ++
  zip_with op (take (from (-1)) line) (take (sl (-2) (-1)) line).

(** Mapping over the value of a computation. *)
Definition rmap {A B} (g : A -> B) (m : result A) : result B :=
  r <- m ;; Ok (g r).

(** A 2x2 image with three channels. *)
Definition img_3ch : tensor4 :=
  [[[[1; 2; 3]; [4; 5; 6]]; [[7; 8; 9]; [1; 1; 1]]]].

(** The weight that [_apply_mask] derives from a mask value. *)
Definition mask_weight (mask_prop m : R) : R := m * mask_prop + (1 - mask_prop).

(** A 1x1 image with three colour channels and one mask channel. *)
Definition img_masked : tensor4 := [[[[2; 4; 6; 0.5]]]].
Definition img_masked_pred : tensor4 := [[[[1; 3; 5]]]].

(** 1x1 images whose fourth channel is a mask of ones, and of zeros. *)
Definition img_mask_ones : tensor4 := [[[[2; 4; 6; 1]]]].
Definition img_mask_zeros : tensor4 := [[[[2; 4; 6; 0]]]].

(** What one registration adds to the total of [__call__]. *)
Definition term {TF : TensorFlow} (y_true y_pred : tensor4)
  (reg : Loss * R * Z) : result R :=
  let '(function, weight, mask_channel) := reg in
  n <- _apply_mask y_true y_pred mask_channel _apply_mask_default_mask_prop ;;
  let '(n_true, n_pred) := n in
  v <- LossesContainer function n_true n_pred ;;
  Ok (v * weight).

(** An 8x8 image with one channel. *)
Definition img_8 : tensor4 := [repeat (repeat [0] 8) 8].

(** A loss object of [TF_instance]: the largest value of [LInfNorm.call]
    on the first sample. *)
Definition LInfNorm_scalar : Loss (TensorFlow := TF_instance) :=
  fun y_true y_pred => rmap (fun t => at3 t 0 0 0) (LInfNorm_call y_true y_pred).

(* ================================================================== *)
(** * Lemmas and theorems *)

(* ================================================================== *)
(** * Shapes *)

Lemma bind_Ok {A B} (a : A) (k : A -> result B) : bind (Ok a) k = k a.
Proof. reflexivity. Qed.

Lemma take_length {A} (s : slice) (l : list A) :
  length (take s l) = slice_len s (length l).
Proof.
  unfold take, py_slice, slice_len.
  destruct (slice_bounds (fst s) (snd s) (length l)) as [lo cnt].
  rewrite length_firstn, length_skipn. reflexivity.
Qed.

Lemma Forall_firstn {A} (P : A -> Prop) n (l : list A) :
  Forall P l -> Forall P (firstn n l).
Proof.
  intros H. revert n. induction H; intros [|n]; cbn; auto.
Qed.

Lemma Forall_skipn {A} (P : A -> Prop) n (l : list A) :
  Forall P l -> Forall P (skipn n l).
Proof.
  intros H. revert n. induction H; intros [|n]; cbn; auto.
Qed.

Lemma take_Forall {A} (P : A -> Prop) (s : slice) (l : list A) :
  Forall P l -> Forall P (take s l).
Proof.
  intros H. unfold take, py_slice.
  destruct (slice_bounds (fst s) (snd s) (length l)) as [lo cnt].
  now apply Forall_firstn, Forall_skipn.
Qed.

Lemma take_full {A} (l : list A) : take full l = l.
Proof.
  unfold take, py_slice, full, slice_bounds; cbn [fst snd].
  rewrite Z.sub_0_r, Nat2Z.id. cbn. apply firstn_all.
Qed.

Lemma all_len_map {A B} (P : A -> Prop) (Q : B -> Prop) (f : A -> B) n l :
  (forall x, P x -> Q (f x)) -> all_len P n l -> all_len Q n (map f l).
Proof.
  intros Hf [Hn Hl]. split.
  - now rewrite length_map.
  - rewrite Forall_map. eapply Forall_impl; eauto.
Qed.

Lemma all_len_take {A} (P : A -> Prop) (s : slice) n (l : list A) :
  all_len P n l -> all_len P (slice_len s n) (take s l).
Proof.
  intros [Hn Hl]. split.
  - now rewrite take_length, Hn.
  - now apply take_Forall.
Qed.

Lemma slice4_shape b h w c img sb sh sw sc :
  has_shape b h w c img ->
  has_shape (slice_len sb b) (slice_len sh h) (slice_len sw w) (slice_len sc c)
            (slice4 img sb sh sw sc).
Proof.
  intros H. unfold slice4, has_shape.
  eapply all_len_map; [| apply all_len_take; exact H].
  intros smp Hs. eapply all_len_map; [| apply all_len_take; exact Hs].
  intros row Hr. eapply all_len_map; [| apply all_len_take; exact Hr].
  intros px Hp. cbv beta. now rewrite take_length, Hp.
Qed.

Lemma has_shape_eq b h w c b' h' w' c' t :
  has_shape b h w c t -> b' = b -> h' = h -> w' = w -> c' = c ->
  has_shape b' h' w' c' t.
Proof. intros; subst; assumption. Qed.

Ltac slice_len_tac :=
  unfold slice_len, slice_bounds, full, sl, from, upto, norm_index;
  cbn [fst snd];
  repeat match goal with
         | |- context [(?a <? ?b)%Z] => destruct (Z.ltb_spec a b)
         end;
  lia.

Lemma slice_len_full n : slice_len full n = n.
Proof. slice_len_tac. Qed.

Lemma slice_len_0_1 n : (1 <= n)%nat -> slice_len (sl 0 1) n = 1%nat.
Proof. slice_len_tac. Qed.

Lemma slice_len_1_2 n : (2 <= n)%nat -> slice_len (sl 1 2) n = 1%nat.
Proof. slice_len_tac. Qed.

Lemma slice_len_from_2 n : slice_len (from 2) n = (n - 2)%nat.
Proof. slice_len_tac. Qed.

Lemma slice_len_upto_m2 n : slice_len (upto (-2)) n = (n - 2)%nat.
Proof. slice_len_tac. Qed.

Lemma slice_len_from_m1 n : (1 <= n)%nat -> slice_len (from (-1)) n = 1%nat.
Proof. slice_len_tac. Qed.

Lemma slice_len_m2_m1 n : (2 <= n)%nat -> slice_len (sl (-2) (-1)) n = 1%nat.
Proof. slice_len_tac. Qed.

Lemma slice_len_upto n k :
  slice_len (upto (Z.of_nat k)) n = Nat.min k n.
Proof. slice_len_tac. Qed.

(** ** Element-wise operations on arrays of equal shape *)

Lemma all_len_Forall2 {A B} (P : A -> Prop) (Q : B -> Prop) (S : A -> B -> Prop)
  n xs ys :
  (forall x y, P x -> Q y -> S x y) ->
  all_len P n xs -> all_len Q n ys -> Forall2 S xs ys.
Proof.
  intros HS [Hn Hx] [Hm Hy]. subst n.
  revert ys Hm Hy. induction Hx; intros [|y ys] Hm Hy; cbn in Hm; try discriminate.
  - constructor.
  - inversion Hy; subst. constructor; auto.
Qed.

Lemma zipM_ok {A B C} (f : A -> B -> result C) (g : A -> B -> C) xs ys :
  Forall2 (fun x y => f x y = Ok (g x y)) xs ys ->
  zipM f xs ys = Ok (zip_with g xs ys).
Proof.
  induction 1 as [|x y xs ys Hxy _ IH]; cbn; [reflexivity|].
  rewrite Hxy. cbn. rewrite IH. reflexivity.
Qed.

Lemma bcast_ok {A B C} (f : A -> B -> result C) (g : A -> B -> C) xs ys :
  Forall2 (fun x y => f x y = Ok (g x y)) xs ys ->
  bcast f xs ys = Ok (zip_with g xs ys).
Proof.
  intros H. unfold bcast.
  rewrite (Forall2_length H), Nat.eqb_refl. now apply zipM_ok.
Qed.

Lemma zip_with_all_len {A B C} (P : A -> Prop) (Q : B -> Prop) (S : C -> Prop)
  (g : A -> B -> C) n xs ys :
  (forall x y, P x -> Q y -> S (g x y)) ->
  all_len P n xs -> all_len Q n ys -> all_len S n (zip_with g xs ys).
Proof.
  intros HS [Hn Hx] [Hm Hy]. subst n.
  revert ys Hm Hy. induction Hx; intros [|y ys] Hm Hy; cbn in Hm; try discriminate.
  - split; [reflexivity | constructor].
  - inversion Hy; subst.
    destruct (IHHx ys) as [Hl Hf]; [lia | assumption |].
    split; cbn.
    + f_equal. exact Hl.
    + constructor; auto.
Qed.

Lemma zip_with_length {A B C} (g : A -> B -> C) xs ys :
  length xs = length ys -> length (zip_with g xs ys) = length xs.
Proof.
  intros H. unfold zip_with. rewrite length_map, length_combine. lia.
Qed.

Lemma tbin_ok op b h w c t1 t2 :
  has_shape b h w c t1 -> has_shape b h w c t2 ->
  tbin op t1 t2 = Ok (zip4 op t1 t2).
Proof.
  intros H1 H2. unfold tbin, zip4.
  apply bcast_ok. eapply all_len_Forall2; [| exact H1 | exact H2].
  intros s1 s2 Hs1 Hs2.
  apply bcast_ok. eapply all_len_Forall2; [| exact Hs1 | exact Hs2].
  intros r1 r2 Hr1 Hr2.
  apply bcast_ok. eapply all_len_Forall2; [| exact Hr1 | exact Hr2].
  intros p1 p2 Hp1 Hp2. cbv beta in *.
  apply bcast_ok.
  assert (Hl : length p1 = length p2) by congruence.
  clear - Hl. revert p2 Hl.
  induction p1; intros [|y p2] Hl; cbn in Hl; try discriminate; constructor; auto.
Qed.

Lemma zip4_shape op b h w c t1 t2 :
  has_shape b h w c t1 -> has_shape b h w c t2 ->
  has_shape b h w c (zip4 op t1 t2).
Proof.
  intros H1 H2. unfold zip4, has_shape.
  eapply zip_with_all_len; [| exact H1 | exact H2].
  intros s1 s2 Hs1 Hs2.
  eapply zip_with_all_len; [| exact Hs1 | exact Hs2].
  intros r1 r2 Hr1 Hr2.
  eapply zip_with_all_len; [| exact Hr1 | exact Hr2].
  intros p1 p2 Hp1 Hp2. cbv beta in *.
  rewrite zip_with_length; congruence.
Qed.

Lemma tmap_shape f b h w c t :
  has_shape b h w c t -> has_shape b h w c (tmap f t).
Proof.
  intros H. unfold tmap, has_shape.
  eapply all_len_map; [| exact H]. intros s Hs.
  eapply all_len_map; [| exact Hs]. intros r Hr.
  eapply all_len_map; [| exact Hr]. intros p Hp.
  cbv beta in *. now rewrite length_map.
Qed.

(** ** Concatenation *)

Lemma Forall_uniform {A} (n : nat) (l : list (list A)) :
  Forall (fun x => length x = n) l -> uniform (map (@length _) l) = true.
Proof.
  intros H. destruct H as [|x l Hx Hl]; cbn; [reflexivity|].
  rewrite forallb_forall. intros m Hm.
  rewrite in_map_iff in Hm. destruct Hm as (y & <- & Hy).
  rewrite Forall_forall in Hl. rewrite (Hl y Hy), Hx. apply Nat.eqb_refl.
Qed.

Lemma Forall_concat_intro {A} (P : A -> Prop) (l : list (list A)) :
  Forall (Forall P) l -> Forall P (concat l).
Proof.
  induction 1; cbn; [constructor|]. apply Forall_app; auto.
Qed.

Lemma has_shape_rect b h w c t : has_shape b h w c t -> rect4 t = true.
Proof.
  intros [_ H]. unfold rect4.
  assert (H1 : Forall (fun s : list (list pixel) => length s = h) t).
  { eapply Forall_impl; [| exact H]. now intros s [Hs _]. }
  assert (H2 : Forall (all_len (fun p : pixel => length p = c) w) (concat t)).
  { apply Forall_concat_intro. eapply Forall_impl; [| exact H]. now intros s [_ Hs]. }
  assert (H3 : Forall (fun r : list pixel => length r = w) (concat t)).
  { eapply Forall_impl; [| exact H2]. now intros s [Hs _]. }
  assert (H4 : Forall (fun p : pixel => length p = c) (concat (concat t))).
  { apply Forall_concat_intro. eapply Forall_impl; [| exact H2]. now intros s [_ Hs]. }
  rewrite (Forall_uniform H1), (Forall_uniform H3), (Forall_uniform H4).
  reflexivity.
Qed.

Lemma all_len_app {A} (P : A -> Prop) n m (x y : list A) :
  all_len P n x -> all_len P m y -> all_len P (n + m) (x ++ y).
Proof.
  intros [Hn Hx] [Hm Hy]. split.
  - rewrite length_app. lia.
  - apply Forall_app; auto.
Qed.

Lemma concat2_ok ax b h w c b' h' w' c' t1 t2 :
  has_shape b h w c t1 -> has_shape b' h' w' c' t2 ->
  b = b' ->
  (ax <> Axis1 -> h = h') ->
  (ax = AxisLast -> w = w') ->
  concat2 ax t1 t2 = Ok (cat ax t1 t2).
Proof.
  intros H1 H2 -> Hh Hw. destruct ax; cbn.
  - apply zipM_ok. eapply all_len_Forall2; [| exact H1 | exact H2]. reflexivity.
  - rewrite <- Hh in H2 by discriminate.
    apply zipM_ok. eapply all_len_Forall2; [| exact H1 | exact H2].
    intros s1 s2 Hs1 Hs2.
    apply zipM_ok. eapply all_len_Forall2; [| exact Hs1 | exact Hs2]. reflexivity.
  - rewrite <- Hh in H2 by discriminate. rewrite <- Hw in H2 by reflexivity.
    apply zipM_ok. eapply all_len_Forall2; [| exact H1 | exact H2].
    intros s1 s2 Hs1 Hs2.
    apply zipM_ok. eapply all_len_Forall2; [| exact Hs1 | exact Hs2].
    intros r1 r2 Hr1 Hr2.
    apply zipM_ok. eapply all_len_Forall2; [| exact Hr1 | exact Hr2]. reflexivity.
Qed.

Lemma cat_shape_1 b h1 h2 w c t1 t2 :
  has_shape b h1 w c t1 -> has_shape b h2 w c t2 ->
  has_shape b (h1 + h2) w c (cat Axis1 t1 t2).
Proof.
  intros H1 H2. unfold cat, has_shape.
  eapply zip_with_all_len; [| exact H1 | exact H2].
  intros s1 s2 Hs1 Hs2. now apply all_len_app.
Qed.

Lemma cat_shape_2 b h w1 w2 c t1 t2 :
  has_shape b h w1 c t1 -> has_shape b h w2 c t2 ->
  has_shape b h (w1 + w2) c (cat Axis2 t1 t2).
Proof.
  intros H1 H2. unfold cat, has_shape.
  eapply zip_with_all_len; [| exact H1 | exact H2].
  intros s1 s2 Hs1 Hs2.
  eapply zip_with_all_len; [| exact Hs1 | exact Hs2].
  intros r1 r2 Hr1 Hr2. now apply all_len_app.
Qed.

Lemma cat_shape_last b h w c1 c2 t1 t2 :
  has_shape b h w c1 t1 -> has_shape b h w c2 t2 ->
  has_shape b h w (c1 + c2) (cat AxisLast t1 t2).
Proof.
  intros H1 H2. unfold cat, has_shape.
  eapply zip_with_all_len; [| exact H1 | exact H2].
  intros s1 s2 Hs1 Hs2.
  eapply zip_with_all_len; [| exact Hs1 | exact Hs2].
  intros r1 r2 Hr1 Hr2.
  eapply zip_with_all_len; [| exact Hr1 | exact Hr2].
  intros p1 p2 Hp1 Hp2. cbv beta in *. rewrite length_app. congruence.
Qed.

(** Three operands along the height axis. *)
Lemma K_concatenate3_1 b h1 h2 h3 w c t1 t2 t3 :
  has_shape b h1 w c t1 -> has_shape b h2 w c t2 -> has_shape b h3 w c t3 ->
  K_concatenate [t1; t2; t3] Axis1 = Ok (cat Axis1 (cat Axis1 t1 t2) t3) /\
  has_shape b (h1 + h2 + h3) w c (cat Axis1 (cat Axis1 t1 t2) t3).
Proof.
  intros H1 H2 H3.
  pose proof (cat_shape_1 H1 H2) as H12.
  pose proof (cat_shape_1 H12 H3) as H123.
  split; [| exact H123].
  unfold K_concatenate. cbn [fold_left]. rewrite bind_Ok.
  rewrite (concat2_ok (ax := Axis1) H1 H2) by congruence. rewrite bind_Ok.
  rewrite (concat2_ok (ax := Axis1) H12 H3) by congruence. rewrite bind_Ok.
  now rewrite (has_shape_rect H123).
Qed.

(** Three operands along the width axis. *)
Lemma K_concatenate3_2 b h w1 w2 w3 c t1 t2 t3 :
  has_shape b h w1 c t1 -> has_shape b h w2 c t2 -> has_shape b h w3 c t3 ->
  K_concatenate [t1; t2; t3] Axis2 = Ok (cat Axis2 (cat Axis2 t1 t2) t3) /\
  has_shape b h (w1 + w2 + w3) c (cat Axis2 (cat Axis2 t1 t2) t3).
Proof.
  intros H1 H2 H3.
  pose proof (cat_shape_2 H1 H2) as H12.
  pose proof (cat_shape_2 H12 H3) as H123.
  split; [| exact H123].
  unfold K_concatenate. cbn [fold_left]. rewrite bind_Ok.
  rewrite (concat2_ok (ax := Axis2) H1 H2) by congruence. rewrite bind_Ok.
  rewrite (concat2_ok (ax := Axis2) H12 H3) by congruence. rewrite bind_Ok.
  now rewrite (has_shape_rect H123).
Qed.

(** ** The derivative fields of [GradientLoss] *)

Lemma slice_op_ok op img b h w c h1 w1 h2 w2 :
  has_shape b h w c img ->
  slice_len h2 h = slice_len h1 h ->
  slice_len w2 w = slice_len w1 w ->
  tbin op (slice4 img full h1 w1 full) (slice4 img full h2 w2 full)
  = Ok (zip4 op (slice4 img full h1 w1 full) (slice4 img full h2 w2 full)) /\
  has_shape b (slice_len h1 h) (slice_len w1 w) c
    (zip4 op (slice4 img full h1 w1 full) (slice4 img full h2 w2 full)).
Proof.
  intros H Hh Hw.
  assert (S1 : has_shape b (slice_len h1 h) (slice_len w1 w) c
                 (slice4 img full h1 w1 full)).
  { eapply has_shape_eq; [exact (slice4_shape full h1 w1 full H) | ..];
      now rewrite ?slice_len_full. }
  assert (S2 : has_shape b (slice_len h1 h) (slice_len w1 w) c
                 (slice4 img full h2 w2 full)).
  { eapply has_shape_eq; [exact (slice4_shape full h2 w2 full H) | ..];
      now rewrite ?slice_len_full. }
  split; [now apply (tbin_ok op S1 S2) | now apply zip4_shape].
Qed.

Ltac norm_len :=
  rewrite ?slice_len_full, ?slice_len_from_2, ?slice_len_upto_m2,
    ?slice_len_0_1, ?slice_len_1_2, ?slice_len_from_m1, ?slice_len_m2_m1
    by lia.

Ltac norm_len_in S :=
  rewrite ?slice_len_full, ?slice_len_from_2, ?slice_len_upto_m2,
    ?slice_len_0_1, ?slice_len_1_2, ?slice_len_from_m1, ?slice_len_m2_m1
    in S by lia.

(** One assignment [name = img[...] op img[...]] of the source. *)
Ltac step_slices H :=
  match goal with
  | |- context [bind (tbin ?op (slice4 ?img full ?h1 ?w1 full)
                               (slice4 ?img full ?h2 ?w2 full)) _] =>
      let E := fresh "E" in
      let S := fresh "S" in
      destruct (@slice_op_ok op img _ _ _ _ h1 w1 h2 w2 H) as [E S];
      [norm_len; reflexivity | norm_len; reflexivity |];
      rewrite E, bind_Ok; clear E; norm_len_in S
  end.

(** One assignment [name = K.concatenate([a, b, c], axis)]. *)
Ltac step_concat :=
  match goal with
  | Sa : has_shape _ _ _ _ ?a, Sb : has_shape _ _ _ _ ?b, Sc : has_shape _ _ _ _ ?c
    |- context [bind (K_concatenate [?a; ?b; ?c] Axis1) _] =>
      let E := fresh "E" in
      let S := fresh "S" in
      destruct (K_concatenate3_1 Sa Sb Sc) as [E S];
      rewrite E, bind_Ok; clear E
  | Sa : has_shape _ _ _ _ ?a, Sb : has_shape _ _ _ _ ?b, Sc : has_shape _ _ _ _ ?c
    |- context [bind (K_concatenate [?a; ?b; ?c] Axis2) _] =>
      let E := fresh "E" in
      let S := fresh "S" in
      destruct (K_concatenate3_2 Sa Sb Sc) as [E S];
      rewrite E, bind_Ok; clear E
  end.

Lemma _diff_x_ok b h w c img :
  has_shape b h w c img -> (2 <= w)%nat ->
  exists x_out,
    _diff_x img = Ok (tmap (fun x => x * 0.5) x_out) /\
    x_out = cat Axis2
              (cat Axis2
                 (zip4 Rminus (slice4 img full full (sl 1 2) full)
                              (slice4 img full full (sl 0 1) full))
                 (zip4 Rminus (slice4 img full full (from 2) full)
                              (slice4 img full full (upto (-2)) full)))
              (zip4 Rminus (slice4 img full full (from (-1)) full)
                           (slice4 img full full (sl (-2) (-1)) full)) /\
    has_shape b h w c x_out.
Proof.
  intros H Hw. unfold _diff_x.
  do 3 step_slices H. step_concat.
  eexists. split; [reflexivity |]. split; [reflexivity |].
  eapply has_shape_eq; [eassumption | ..]; lia.
Qed.

Lemma _diff_y_ok b h w c img :
  has_shape b h w c img -> (2 <= h)%nat ->
  exists y_out,
    _diff_y img = Ok (tmap (fun x => x * 0.5) y_out) /\ has_shape b h w c y_out.
Proof.
  intros H Hh. unfold _diff_y.
  do 3 step_slices H. step_concat.
  eexists. split; [reflexivity |].
  eapply has_shape_eq; [eassumption | ..]; lia.
Qed.

Lemma _diff_xx_ok b h w c img :
  has_shape b h w c img -> (2 <= w)%nat ->
  exists out, _diff_xx img = Ok out /\ has_shape b h w c out.
Proof.
  intros H Hw. unfold _diff_xx.
  do 3 step_slices H. step_concat.
  assert (S' : has_shape b h w c
                 (cat Axis2 (cat Axis2
                    (zip4 Rplus (slice4 img full full (sl 1 2) full)
                                (slice4 img full full (sl 0 1) full))
                    (zip4 Rplus (slice4 img full full (from 2) full)
                                (slice4 img full full (upto (-2)) full)))
                    (zip4 Rplus (slice4 img full full (from (-1)) full)
                                (slice4 img full full (sl (-2) (-1)) full)))).
  { eapply has_shape_eq; [eassumption | ..]; lia. }
  pose proof (tmap_shape (fun x => 2.0 * x) H) as Si.
  rewrite (tbin_ok Rminus S' Si).
  eexists. split; [reflexivity |]. now apply zip4_shape.
Qed.

Lemma _diff_yy_ok b h w c img :
  has_shape b h w c img -> (2 <= h)%nat ->
  exists out, _diff_yy img = Ok out /\ has_shape b h w c out.
Proof.
  intros H Hh. unfold _diff_yy.
  do 3 step_slices H. step_concat.
  assert (S' : has_shape b h w c
                 (cat Axis1 (cat Axis1
                    (zip4 Rplus (slice4 img full (sl 1 2) full full)
                                (slice4 img full (sl 0 1) full full))
                    (zip4 Rplus (slice4 img full (from 2) full full)
                                (slice4 img full (upto (-2)) full full)))
                    (zip4 Rplus (slice4 img full (from (-1)) full full)
                                (slice4 img full (sl (-2) (-1)) full full)))).
  { eapply has_shape_eq; [eassumption | ..]; lia. }
  pose proof (tmap_shape (fun x => 2.0 * x) H) as Si.
  rewrite (tbin_ok Rminus S' Si).
  eexists. split; [reflexivity |]. now apply zip4_shape.
Qed.

(** ** Arrays of zeros *)

Lemma zip_with_diag {A C} (P : A -> Prop) (g : A -> A -> C) (z : C) n l :
  (forall x, P x -> g x x = z) ->
  all_len P n l -> zip_with g l l = repeat z n.
Proof.
  intros Hg [Hn Hl]. subst n. induction Hl; cbn; [reflexivity|].
  unfold zip_with in IHHl. rewrite IHHl, Hg by assumption. reflexivity.
Qed.

Lemma zip4_minus_self b h w c t :
  has_shape b h w c t -> zip4 Rminus t t = zeros b h w c.
Proof.
  intros H. unfold zip4, zeros.
  eapply zip_with_diag; [| exact H]. intros s Hs.
  eapply zip_with_diag; [| exact Hs]. intros r Hr.
  eapply zip_with_diag; [| exact Hr]. intros p Hp. cbv beta in Hp.
  eapply zip_with_diag with (P := fun _ => True).
  - intros x _. apply Rminus_diag.
  - split; [exact Hp |]. apply Forall_forall. auto.
Qed.

Lemma map_repeat {A B} (f : A -> B) (x : A) n :
  map f (repeat x n) = repeat (f x) n.
Proof. induction n; cbn; congruence. Qed.

Lemma tmap_zeros f b h w c :
  f 0 = 0 -> tmap f (zeros b h w c) = zeros b h w c.
Proof.
  intros Hf. unfold tmap, zeros.
  now rewrite !map_repeat, Hf.
Qed.

Lemma all_len_repeat {A} (P : A -> Prop) (x : A) n :
  P x -> all_len P n (repeat x n).
Proof.
  intros Hx. split; [apply repeat_length |].
  apply Forall_forall. intros y Hy. now rewrite (repeat_spec _ _ _ Hy).
Qed.

Lemma zeros_shape b h w c : has_shape b h w c (zeros b h w c).
Proof.
  unfold zeros, has_shape.
  repeat apply all_len_repeat. apply repeat_length.
Qed.

Lemma _diff_xy_zero b h w c img :
  has_shape b h w c img -> (2 <= h)%nat -> (2 <= w)%nat ->
  _diff_xy img = Ok (zeros b h w c).
Proof.
  intros H Hh Hw. unfold _diff_xy.
  do 3 step_slices H. step_concat. clear S S0 S1.
  do 3 step_slices H. step_concat. clear S S0 S1.
  do 3 step_slices H. step_concat. clear S S0 S1 S2 S3 S4.
  do 3 step_slices H. step_concat. clear S S0 S1.
  do 3 step_slices H. step_concat. clear S S0 S1.
  do 3 step_slices H. step_concat. clear S S0 S1.
  (* xy_out1 and xy_out2 are the same expression *)
  step_concat. rewrite bind_Ok.
  match goal with
  | Sx : has_shape _ _ _ _ ?t |- context [tbin Rminus ?t ?t] =>
      rewrite (tbin_ok Rminus Sx Sx), bind_Ok, (zip4_minus_self Sx)
  end.
  rewrite tmap_zeros by lra.
  f_equal. unfold zeros. repeat f_equal; lia.
Qed.

Lemma zipM_diag {A C} (f : A -> A -> result C) (P : C -> Prop) xs ys :
  (forall x y, f x x = Ok y -> P y) ->
  zipM f xs xs = Ok ys -> Forall P ys.
Proof.
  intros Hf. revert ys. induction xs as [|x xs IH]; intros ys; cbn.
  - intros [= <-]. constructor.
  - destruct (f x x) as [y |] eqn:Ef; cbn; [| discriminate].
    destruct (zipM f xs xs) as [zs |] eqn:Ez; cbn; [| discriminate].
    intros [= <-]. constructor; eauto.
Qed.

Lemma bcast_diag {A C} (f : A -> A -> result C) (P : C -> Prop) xs ys :
  (forall x y, f x x = Ok y -> P y) ->
  bcast f xs xs = Ok ys -> Forall P ys.
Proof.
  intros Hf. unfold bcast. rewrite Nat.eqb_refl. now apply zipM_diag.
Qed.

Lemma tbin_minus_self_entries t d :
  tbin Rminus t t = Ok d -> all_entries (eq 0) d.
Proof.
  unfold tbin, all_entries. apply bcast_diag. intros s ds.
  apply bcast_diag. intros r dr.
  apply bcast_diag. intros p dp.
  apply bcast_diag. intros x y [= <-]. symmetry. apply Rminus_diag.
Qed.

Lemma tmap_entries (P Q : R -> Prop) f t :
  (forall x, P x -> Q (f x)) -> all_entries P t -> all_entries Q (tmap f t).
Proof.
  intros Hf H. unfold all_entries, tmap in *.
  apply Forall_map. eapply Forall_impl; [| exact H]. intros s Hs.
  apply Forall_map. eapply Forall_impl; [| exact Hs]. intros r Hr.
  apply Forall_map. eapply Forall_impl; [| exact Hr]. intros p Hp.
  apply Forall_map. eapply Forall_impl; [| exact Hp]. exact Hf.
Qed.

(** Whatever the shape of the input, a result of [_diff_xy] has no non-zero
    entry. *)
Lemma _diff_xy_entries_zero img out :
  _diff_xy img = Ok out -> all_entries (eq 0) out.
Proof.
  unfold _diff_xy.
  repeat match goal with
         | |- context [bind ?m _] =>
             destruct m eqn:?; cbn [bind]; [| discriminate]
         end.
  intros [= <-].
  match goal with
  | H : tbin Rminus ?u ?u = Ok _ |- _ =>
      apply tbin_minus_self_entries in H;
      apply (tmap_entries (P := eq 0)); [intros z <-; lra | exact H]
  end.
Qed.

(** ** Entries of an array *)

Lemma nth_map_dflt {A B} (f : A -> B) l d d' n :
  (n < length l)%nat -> nth n (map f l) d' = f (nth n l d).
Proof.
  intros H. rewrite (nth_indep _ d' (f d)) by now rewrite length_map.
  apply map_nth.
Qed.

Lemma nth_zip_with {A B C} (g : A -> B -> C) xs ys n dx dy d :
  (n < length xs)%nat -> (n < length ys)%nat ->
  nth n (zip_with g xs ys) d = g (nth n xs dx) (nth n ys dy).
Proof.
  revert ys n. induction xs as [|x xs IH]; intros [|y ys] [|n] Hx Hy;
    cbn in *; try lia; [reflexivity|].
  apply IH; lia.
Qed.

Lemma zip_with_map_same {A B C D} (k : B -> C -> D) (f : A -> B) (g : A -> C) l :
  zip_with k (map f l) (map g l) = map (fun x => k (f x) (g x)) l.
Proof. induction l; cbn; [reflexivity|]. unfold zip_with in IHl. now rewrite IHl. Qed.

Lemma map_take_full {A} (l : list (list A)) : map (take full) l = l.
Proof.
  rewrite <- (map_id l) at 2. apply map_ext. intros; apply take_full.
Qed.

Lemma slice4_width img s :
  slice4 img full full s full = map (map (take s)) img.
Proof.
  unfold slice4. rewrite take_full. apply map_ext. intros smp.
  rewrite take_full. apply map_ext. intros row. apply map_take_full.
Qed.

Lemma diff_x_rows img :
  cat Axis2
    (cat Axis2
       (zip4 Rminus (slice4 img full full (sl 1 2) full)
                    (slice4 img full full (sl 0 1) full))
       (zip4 Rminus (slice4 img full full (from 2) full)
                    (slice4 img full full (upto (-2)) full)))
    (zip4 Rminus (slice4 img full full (from (-1)) full)
                 (slice4 img full full (sl (-2) (-1)) full))
  = map (map diff_x_row) img.
Proof.
  rewrite !slice4_width. unfold cat, zip4.
  rewrite !zip_with_map_same. apply map_ext. intros smp.
  rewrite !zip_with_map_same. reflexivity.
Qed.

Lemma take_explicit {A} (s : slice) (l : list A) lo cnt :
  slice_bounds (fst s) (snd s) (length l) = (lo, cnt) ->
  take s l = firstn cnt (skipn lo l).
Proof. intros H. unfold take, py_slice. now rewrite H. Qed.

Ltac slice_bounds_tac :=
  unfold slice_bounds, full, sl, from, upto, norm_index;
  cbn [fst snd];
  repeat match goal with
         | |- context [(?a <? ?b)%Z] => destruct (Z.ltb_spec a b)
         end;
  f_equal; lia.

Lemma nth_take {A} (s : slice) (l : list A) lo cnt i d :
  slice_bounds (fst s) (snd s) (length l) = (lo, cnt) ->
  (i < cnt)%nat ->
  nth i (take s l) d = nth (lo + i) l d.
Proof.
  intros H Hi. rewrite (take_explicit s l H), nth_firstn.
  destruct (Nat.ltb_spec i cnt); [| lia]. apply nth_skipn.
Qed.

(** Entry [j] of the x-difference of a row of width [w >= 2]: the right
    neighbour minus the left neighbour, with both indices clamped to the
    row. *)
Lemma diff_x_row_nth (row : list pixel) w j :
  length row = w -> (2 <= w)%nat -> (j < w)%nat ->
  nth j (diff_x_row row) [] =
  zip_with Rminus (nth (Nat.min (j + 1) (w - 1)) row []) (nth (j - 1) row []).
Proof.
  intros Hl Hw Hj. unfold diff_x_row.
  assert (L1 : length (zip_with (zip_with Rminus) (take (sl 1 2) row)
                         (take (sl 0 1) row)) = 1%nat).
  { rewrite zip_with_length; rewrite !take_length, Hl; norm_len; reflexivity. }
  assert (L2 : length (zip_with (zip_with Rminus) (take (from 2) row)
                         (take (upto (-2)) row)) = (w - 2)%nat).
  { rewrite zip_with_length; rewrite !take_length, Hl; norm_len; reflexivity. }
  destruct (Nat.eq_dec j 0) as [-> | Hj0].
  - rewrite app_nth1 by (rewrite length_app; lia).
    rewrite app_nth1 by lia.
    rewrite (nth_zip_with _ _ _ [] []) by (rewrite take_length, Hl; norm_len; lia).
    rewrite (@nth_take _ (sl 1 2) row 1 1), (@nth_take _ (sl 0 1) row 0 1);
      try lia; try (rewrite Hl; slice_bounds_tac).
    f_equal; f_equal; lia.
  - destruct (Nat.eq_dec j (w - 1)) as [-> | Hjw].
    + rewrite app_nth2 by (rewrite length_app; lia).
      rewrite length_app, L1, L2.
      replace (w - 1 - (1 + (w - 2)))%nat with 0%nat by lia.
      rewrite (nth_zip_with _ _ _ [] []) by (rewrite take_length, Hl; norm_len; lia).
      rewrite (@nth_take _ (from (-1)) row (w - 1) 1),
        (@nth_take _ (sl (-2) (-1)) row (w - 2) 1);
        try lia; try (rewrite Hl; slice_bounds_tac).
      f_equal; f_equal; lia.
    + rewrite app_nth1 by (rewrite length_app; lia).
      rewrite app_nth2 by lia. rewrite L1.
      rewrite (nth_zip_with _ _ _ [] []) by (rewrite take_length, Hl; norm_len; lia).
      rewrite (@nth_take _ (from 2) row 2 (w - 2)),
        (@nth_take _ (upto (-2)) row 0 (w - 2));
        try lia; try (rewrite Hl; slice_bounds_tac).
      f_equal; f_equal; lia.
Qed.

Lemma all_len_nth {A} (P : A -> Prop) n (l : list A) i d :
  all_len P n l -> (i < n)%nat -> P (nth i l d).
Proof.
  intros [Hn Hl] Hi. subst n. revert i Hi.
  induction Hl; intros [|i] Hi; cbn in *; try lia; auto.
  apply IHHl. lia.
Qed.

Lemma at4_tmap f b h w c t i j k l :
  has_shape b h w c t ->
  (i < b)%nat -> (j < h)%nat -> (k < w)%nat -> (l < c)%nat ->
  at4 (tmap f t) i j k l = f (at4 t i j k l).
Proof.
  intros H Hi Hj Hk Hl. unfold at4, tmap, has_shape in *.
  pose proof (@all_len_nth _ _ _ _ i [] H Hi) as Hs.
  pose proof (@all_len_nth _ _ _ _ j [] Hs Hj) as Hr.
  pose proof (@all_len_nth _ _ _ _ k [] Hr Hk) as Hp. cbv beta in Hp.
  destruct H as [Hb _], Hs as [Hh _], Hr as [Hw _].
  rewrite (nth_map_dflt _ _ []) by lia.
  rewrite (nth_map_dflt _ _ []) by lia.
  rewrite (nth_map_dflt _ _ []) by lia.
  rewrite (nth_map_dflt _ _ 0) by lia.
  reflexivity.
Qed.

Lemma at4_diff_x_rows b h w c img i j k l :
  has_shape b h w c img -> (2 <= w)%nat ->
  (i < b)%nat -> (j < h)%nat -> (k < w)%nat -> (l < c)%nat ->
  at4 (map (map diff_x_row) img) i j k l =
  at4 img i j (Nat.min (k + 1) (w - 1)) l - at4 img i j (k - 1) l.
Proof.
  intros H Hw Hi Hj Hk Hl. unfold at4, has_shape in *.
  pose proof (@all_len_nth _ _ _ _ i [] H Hi) as Hs.
  pose proof (@all_len_nth _ _ _ _ j [] Hs Hj) as Hr.
  assert (Hp1 : length (nth (Nat.min (k + 1) (w - 1)) (nth j (nth i img []) []) []) = c).
  { apply (@all_len_nth _ _ _ _ _ [] Hr). lia. }
  assert (Hp2 : length (nth (k - 1) (nth j (nth i img []) []) []) = c).
  { apply (@all_len_nth _ _ _ _ _ [] Hr). lia. }
  destruct H as [Hb _], Hs as [Hh _]. destruct Hr as [Hwr _].
  rewrite (nth_map_dflt _ _ []) by lia.
  rewrite (nth_map_dflt _ _ []) by lia.
  rewrite (diff_x_row_nth _ Hwr Hw Hk).
  apply nth_zip_with; lia.
Qed.

(* ================================================================== *)
(** * GradientLoss: the cross term and the boundary policy *)

(** C1.  For every rectangular image tensor of height and width at least 2,
    [GradientLoss._diff_xy] returns the all-zero tensor of the shape of its
    input: [xy_out1] and [xy_out2] are built from the same variables and
    subtracted. *)
Theorem C1_diff_xy_all_zero (b h w c : nat) (img : tensor4) :
  has_shape b h w c img -> (2 <= h)%nat -> (2 <= w)%nat ->
  _diff_xy img = Ok (zeros b h w c) /\ has_shape b h w c (zeros b h w c).
Proof.
  intros H Hh Hw. split.
  - now apply _diff_xy_zero.
  - apply zeros_shape.
Qed.

Lemma img_2x2_shape : has_shape 1 2 2 1 img_2x2.
Proof. unfold has_shape, all_len, img_2x2. cbn. repeat constructor. Defined.

Lemma C1_diff_xy_all_zero_witness :
  has_shape 1 2 2 1 img_2x2 /\
  _diff_xy img_2x2 = Ok [[[[0]; [0]]; [[0]; [0]]]].
Proof.
  split; [exact img_2x2_shape |].
  exact (proj1 (@C1_diff_xy_all_zero 1 2 2 1 img_2x2 img_2x2_shape
                  (le_n 2) (le_n 2))).
Defined.

Ltac eval_tensor :=
  cbv -[Rminus Rmult Rplus Rdiv IZR Rinv Ropp Rabs Rmax sqrt Q2R K_pow].

(** Below height or width 2 the slices [1:2] and [-2:-1] are empty, and
    broadcasting against them leaves an empty axis: the hypotheses on the
    height and the width cannot be dropped. *)
Example _diff_xy_single_row : _diff_xy [[[[1]; [2]]]] = Ok [[]].
Proof. eval_tensor. reflexivity. Qed.

Example _diff_x_single_column : _diff_x [[[[1]]; [[2]]]] = Ok [[[]; []]].
Proof. eval_tensor. reflexivity. Qed.

Lemma _diff_x_row_0246 : _diff_x row_0246 = Ok [[[[1]; [2]; [2]; [1]]]].
Proof. eval_tensor. repeat f_equal; lra. Qed.

(** C3, as stated, fails: on the values 0, 2, 4, 6 the first entry of the
    x-difference field is 1, not value[1] - value[0] = 2. *)
Lemma C3_first_entry_is_not_neighbor_difference :
  ~ (exists out, _diff_x row_0246 = Ok out /\
                 at4 out 0 0 0 0 = at4 row_0246 0 0 1 0 - at4 row_0246 0 0 0 0).
Proof.
  intros (out & Hout & Hfirst).
  rewrite _diff_x_row_0246 in Hout. injection Hout as <-.
  cbn in Hfirst. lra.
Qed.

(** C3, amended.  For every rectangular input of width at least 2,
    [GradientLoss._diff_x] returns a field of the shape of its input whose
    entry at column [k] is 0.5 times the difference between the right and the
    left neighbour, both clamped to the row; at the boundaries this is half
    the one-sided neighbour difference (1 for the values 0, 2, 4, 6), not
    zero. *)
Theorem C3_diff_x_half_one_sided (b h w c : nat) (img : tensor4) :
  has_shape b h w c img -> (2 <= w)%nat ->
  exists out,
    _diff_x img = Ok out /\
    has_shape b h w c out /\
    (forall i j k l, (i < b)%nat -> (j < h)%nat -> (k < w)%nat -> (l < c)%nat ->
       at4 out i j k l =
       (at4 img i j (Nat.min (k + 1) (w - 1)) l - at4 img i j (k - 1) l) * 0.5) /\
    (forall i j l, (i < b)%nat -> (j < h)%nat -> (l < c)%nat ->
       at4 out i j 0 l = (at4 img i j 1 l - at4 img i j 0 l) * 0.5 /\
       at4 out i j (w - 1) l =
       (at4 img i j (w - 1) l - at4 img i j (w - 2) l) * 0.5).
Proof.
  intros H Hw.
  destruct (_diff_x_ok H Hw) as (x_out & E & Hx & Sx).
  rewrite diff_x_rows in Hx. subst x_out.
  assert (Hall : forall i j k l,
            (i < b)%nat -> (j < h)%nat -> (k < w)%nat -> (l < c)%nat ->
            at4 (tmap (fun x => x * 0.5) (map (map diff_x_row) img)) i j k l =
            (at4 img i j (Nat.min (k + 1) (w - 1)) l - at4 img i j (k - 1) l) * 0.5).
  { intros i j k l Hi Hj Hk Hl.
    rewrite (at4_tmap _ Sx) by assumption.
    now rewrite (at4_diff_x_rows H Hw). }
  eexists. split; [exact E |]. split; [now apply tmap_shape |].
  split; [exact Hall |].
  intros i j l Hi Hj Hl. split.
  - rewrite Hall by lia.
    replace (Nat.min (0 + 1) (w - 1)) with 1%nat by lia.
    replace (0 - 1)%nat with 0%nat by lia. reflexivity.
  - rewrite Hall by lia.
    replace (Nat.min (w - 1 + 1) (w - 1)) with (w - 1)%nat by lia.
    replace (w - 1 - 1)%nat with (w - 2)%nat by lia. reflexivity.
Qed.

Lemma row_0246_shape : has_shape 1 1 4 1 row_0246.
Proof. unfold has_shape, all_len, row_0246. cbn. repeat constructor. Defined.

Lemma C3_diff_x_half_one_sided_witness :
  has_shape 1 1 4 1 row_0246 /\ (2 <= 4)%nat /\
  exists out,
    _diff_x row_0246 = Ok out /\
    has_shape 1 1 4 1 out /\
    (forall i j k l, (i < 1)%nat -> (j < 1)%nat -> (k < 4)%nat -> (l < 1)%nat ->
       at4 out i j k l =
       (at4 row_0246 i j (Nat.min (k + 1) (4 - 1)) l - at4 row_0246 i j (k - 1) l) * 0.5) /\
    (forall i j l, (i < 1)%nat -> (j < 1)%nat -> (l < 1)%nat ->
       at4 out i j 0 l = (at4 row_0246 i j 1 l - at4 row_0246 i j 0 l) * 0.5 /\
       at4 out i j (4 - 1) l =
       (at4 row_0246 i j (4 - 1) l - at4 row_0246 i j (4 - 2) l) * 0.5).
Proof.
  split; [exact row_0246_shape |]. split; [lia |].
  apply (@C3_diff_x_half_one_sided 1 1 4 1 row_0246 row_0246_shape). lia.
Defined.

(* ================================================================== *)
(** * GeneralizedLoss *)

Lemma Int_part_2 : Int_part 2 = 2%Z.
Proof. symmetry. apply Int_part_spec. lra. Qed.

Lemma K_pow_2 x : K_pow x 2 = x * x.
Proof.
  unfold K_pow. destruct (Rlt_dec 0 x) as [Hx | Hx].
  - change 2 with (INR 2). rewrite Rpower_pow by assumption. ring.
  - rewrite Int_part_2. destruct (Req_dec_T 2 2) as [_ | Hn]; [| congruence].
    unfold powerRZ. change (Pos.to_nat 2) with 2%nat. ring.
Qed.

Lemma K_pow_pos x y : 0 < x -> K_pow x y = Rpower x y.
Proof. intros Hx. unfold K_pow. now destruct (Rlt_dec 0 x). Qed.

Lemma K_pow_1_l y : K_pow 1 y = 1.
Proof.
  rewrite K_pow_pos by lra. unfold Rpower. rewrite ln_1, Rmult_0_r. apply exp_0.
Qed.

Lemma tmap_tmap f g t : tmap f (tmap g t) = tmap (fun x => f (g x)) t.
Proof.
  unfold tmap. rewrite map_map. apply map_ext. intros s.
  rewrite map_map. apply map_ext. intros r.
  rewrite map_map. apply map_ext. intros p.
  now rewrite map_map.
Qed.

Lemma GeneralizedLoss_call_ok self b h w c y_true y_pred :
  has_shape b h w c y_true -> has_shape b h w c y_pred ->
  GeneralizedLoss_call self y_true y_pred =
  Ok (tmap3 (fun x => x * self.(beta))
        (K_mean_last (tmap (call_elem self.(alpha) self.(beta))
                        (zip4 Rminus y_pred y_true)))).
Proof.
  intros Ht Hp. unfold GeneralizedLoss_call.
  rewrite (tbin_ok Rminus Hp Ht), bind_Ok.
  rewrite !tmap_tmap. reflexivity.
Qed.

Lemma call_elem_loss_elem alpha beta t p :
  alpha <> 2 ->
  call_elem alpha beta (p - t) = loss_elem alpha beta t p.
Proof.
  intros Ha. unfold call_elem, loss_elem. cbv zeta.
  rewrite K_pow_2. rewrite K_pow_pos; [reflexivity |].
  assert (Hpos : 0 < Rabs (2 - alpha)) by (apply Rabs_pos_lt; lra).
  assert (Hsq : 0 <= (p - t) / beta * ((p - t) / beta)) by apply Rle_0_sqr.
  assert (0 <= (p - t) / beta * ((p - t) / beta) / Rabs (2 - alpha)).
  { apply Rmult_le_pos; [assumption |]. left. now apply Rinv_0_lt_compat. }
  lra.
Qed.

Lemma at4_zip4 op b h w c t1 t2 i j k l :
  has_shape b h w c t1 -> has_shape b h w c t2 ->
  (i < b)%nat -> (j < h)%nat -> (k < w)%nat -> (l < c)%nat ->
  at4 (zip4 op t1 t2) i j k l = op (at4 t1 i j k l) (at4 t2 i j k l).
Proof.
  intros H1 H2 Hi Hj Hk Hl. unfold at4, zip4, has_shape in *.
  pose proof (@all_len_nth _ _ _ _ i [] H1 Hi) as Hs1.
  pose proof (@all_len_nth _ _ _ _ i [] H2 Hi) as Hs2.
  pose proof (@all_len_nth _ _ _ _ j [] Hs1 Hj) as Hr1.
  pose proof (@all_len_nth _ _ _ _ j [] Hs2 Hj) as Hr2.
  pose proof (@all_len_nth _ _ _ _ k [] Hr1 Hk) as Hp1.
  pose proof (@all_len_nth _ _ _ _ k [] Hr2 Hk) as Hp2.
  cbv beta in Hp1, Hp2.
  destruct H1 as [Hb1 _], H2 as [Hb2 _], Hs1 as [Hh1 _], Hs2 as [Hh2 _],
    Hr1 as [Hw1 _], Hr2 as [Hw2 _].
  rewrite (nth_zip_with _ _ _ [] []) by lia.
  rewrite (nth_zip_with _ _ _ [] []) by lia.
  rewrite (nth_zip_with _ _ _ [] []) by lia.
  rewrite (nth_zip_with _ _ _ 0 0) by lia.
  reflexivity.
Qed.

Lemma K_mean_last_shape b h w c t :
  has_shape b h w c t -> has_shape3 b h w (K_mean_last t).
Proof.
  intros H. unfold K_mean_last, has_shape3.
  eapply all_len_map; [| exact H]. intros s Hs.
  eapply all_len_map; [| exact Hs]. intros r [Hr _].
  cbv beta. now rewrite length_map.
Qed.

Lemma tmap3_shape f b h w t :
  has_shape3 b h w t -> has_shape3 b h w (tmap3 f t).
Proof.
  intros H. unfold tmap3, has_shape3.
  eapply all_len_map; [| exact H]. intros s Hs.
  eapply all_len_map; [| exact Hs]. intros r Hr.
  cbv beta in *. now rewrite length_map.
Qed.

Lemma at3_tmap3_mean f b h w c t i j k :
  has_shape b h w c t ->
  (i < b)%nat -> (j < h)%nat -> (k < w)%nat ->
  at3 (tmap3 f (K_mean_last t)) i j k = f (mean (nth k (nth j (nth i t []) []) [])).
Proof.
  intros H Hi Hj Hk. unfold at3, tmap3, K_mean_last, has_shape in *.
  pose proof (@all_len_nth _ _ _ _ i [] H Hi) as Hs.
  pose proof (@all_len_nth _ _ _ _ j [] Hs Hj) as Hr.
  destruct H as [Hb _], Hs as [Hh _], Hr as [Hw _].
  rewrite !map_map.
  rewrite (nth_map_dflt _ _ []) by lia.
  rewrite !map_map.
  rewrite (nth_map_dflt _ _ []) by lia.
  rewrite !map_map.
  rewrite (nth_map_dflt _ _ []) by lia.
  reflexivity.
Qed.

Lemma list_as_map_nth {A} (l : list A) d :
  l = map (fun i => nth i l d) (seq 0 (length l)).
Proof.
  apply (nth_ext _ _ d d).
  - now rewrite length_map, length_seq.
  - intros n Hn.
    rewrite (nth_map_dflt _ _ 0%nat) by now rewrite length_seq.
    now rewrite seq_nth.
Qed.

Lemma two_pixels_true_shape : has_shape 1 2 1 1 two_pixels_true.
Proof. unfold has_shape, all_len, two_pixels_true. cbn. repeat constructor. Defined.

Lemma two_pixels_pred_shape : has_shape 1 2 1 1 two_pixels_pred.
Proof. unfold has_shape, all_len, two_pixels_pred. cbn. repeat constructor. Defined.

Lemma Rabs_2_minus_4 : Rabs (2 - 4) = 2.
Proof. rewrite Rabs_left by lra. lra. Qed.

Lemma call_elem_4_1_2 : call_elem 4 1 (2 - 0) = 4.
Proof.
  unfold call_elem. rewrite Rabs_2_minus_4, K_pow_2.
  replace (4 / 2) with 2 by lra. rewrite K_pow_2. lra.
Qed.

Lemma call_elem_4_1_0 : call_elem 4 1 (0 - 0) = 0.
Proof.
  unfold call_elem. rewrite Rabs_2_minus_4, K_pow_2.
  replace (4 / 2) with 2 by lra. rewrite K_pow_2. lra.
Qed.

Lemma loss_elem_4_1_2 : loss_elem 4 1 0 2 = 4.
Proof.
  rewrite <- call_elem_loss_elem by lra. apply call_elem_4_1_2.
Qed.

Lemma loss_elem_4_1_0 : loss_elem 4 1 0 0 = 0.
Proof.
  rewrite <- call_elem_loss_elem by lra. apply call_elem_4_1_0.
Qed.

Lemma GeneralizedLoss_call_two_pixels :
  GeneralizedLoss_call {| alpha := 4; beta := 1 |} two_pixels_true two_pixels_pred
  = Ok [[[4]; [0]]].
Proof.
  rewrite (GeneralizedLoss_call_ok _ two_pixels_true_shape two_pixels_pred_shape).
  cbv -[Rminus Rmult Rplus Rdiv IZR Rinv Ropp call_elem].
  rewrite call_elem_4_1_2, call_elem_4_1_0.
  repeat f_equal; lra.
Qed.

Lemma generalized_mean_all_axes_two_pixels :
  generalized_mean_all_axes 4 1 two_pixels_true two_pixels_pred = [2].
Proof.
  cbv -[Rminus Rmult Rplus Rdiv IZR Rinv Ropp loss_elem].
  rewrite loss_elem_4_1_2, loss_elem_4_1_0.
  repeat f_equal; lra.
Qed.

(** C2, as stated, fails: with alpha = 4 and beta = 1, on two pixels with
    errors 2 and 0 the call returns the two values 4 and 0 for the one
    sample, not the single mean 2 over all the non-batch axes. *)
Lemma C2_call_is_not_mean_over_all_axes :
  ~ (exists out,
       GeneralizedLoss_call {| alpha := 4; beta := 1 |}
         two_pixels_true two_pixels_pred = Ok out /\
       map (@concat R) out =
       map (fun v => [v])
           (generalized_mean_all_axes 4 1 two_pixels_true two_pixels_pred)).
Proof.
  intros (out & Hout & Hflat).
  rewrite GeneralizedLoss_call_two_pixels in Hout. injection Hout as <-.
  rewrite generalized_mean_all_axes_two_pixels in Hflat.
  cbn in Hflat. discriminate Hflat.
Qed.

(** C2, amended.  For same-shaped (b, h, w, c) tensors, alpha other than 0
    and 2 and beta > 0, [GeneralizedLoss.call] returns a (b, h, w) tensor:
    at every pixel, beta times the mean over the channel axis only of
    [loss_elem]. *)
Theorem C2_generalized_mean_over_channels (self : GeneralizedLoss)
  (b h w c : nat) (y_true y_pred : tensor4) :
  has_shape b h w c y_true -> has_shape b h w c y_pred ->
  self.(alpha) <> 0 -> self.(alpha) <> 2 -> 0 < self.(beta) ->
  exists out,
    GeneralizedLoss_call self y_true y_pred = Ok out /\
    has_shape3 b h w out /\
    forall i j k, (i < b)%nat -> (j < h)%nat -> (k < w)%nat ->
      at3 out i j k =
      self.(beta) *
      mean (map (fun l => loss_elem self.(alpha) self.(beta)
                            (at4 y_true i j k l) (at4 y_pred i j k l))
                (seq 0 c)).
Proof.
  intros Ht Hp Ha0 Ha2 Hb.
  pose proof (zip4_shape Rminus Hp Ht) as Hd.
  pose proof (tmap_shape (call_elem self.(alpha) self.(beta)) Hd) as Hl.
  eexists. split; [apply (GeneralizedLoss_call_ok self Ht Hp) |].
  split; [apply tmap3_shape, (K_mean_last_shape Hl) |].
  intros i j k Hi Hj Hk.
  rewrite (at3_tmap3_mean _ Hl Hi Hj Hk).
  rewrite Rmult_comm. f_equal. f_equal.
  set (px := nth k (nth j (nth i (tmap _ _) []) []) []).
  assert (Hpx : length px = c).
  { unfold px.
    exact (@all_len_nth _ _ _ _ k []
             (@all_len_nth _ _ _ _ j [] (@all_len_nth _ _ _ _ i [] Hl Hi) Hj) Hk). }
  rewrite (list_as_map_nth px 0), Hpx.
  apply map_ext_in. intros l Hin. apply in_seq in Hin.
  change (nth l px 0)
    with (at4 (tmap (call_elem (alpha self) (beta self)) (zip4 Rminus y_pred y_true))
              i j k l).
  rewrite (at4_tmap _ Hd) by lia.
  rewrite (at4_zip4 _ Hp Ht) by lia.
  now apply call_elem_loss_elem.
Qed.

Lemma C2_generalized_mean_over_channels_witness :
  exists out,
    GeneralizedLoss_call {| alpha := 4; beta := 1 |} two_pixels_true two_pixels_pred
    = Ok out /\
    has_shape3 1 2 1 out /\
    forall i j k, (i < 1)%nat -> (j < 2)%nat -> (k < 1)%nat ->
      at3 out i j k =
      1 * mean (map (fun l => loss_elem 4 1 (at4 two_pixels_true i j k l)
                                (at4 two_pixels_pred i j k l))
                    (seq 0 1)).
Proof.
  apply (@C2_generalized_mean_over_channels {| alpha := 4; beta := 1 |}
           1 2 1 1 two_pixels_true two_pixels_pred
           two_pixels_true_shape two_pixels_pred_shape); cbn; lra.
Defined.

(** ** The only error of element-wise operations is a shape mismatch *)

Lemma mapM_err {A B} (f : A -> result B) l e :
  (forall x e', f x = Err e' -> e' = IncompatibleShapes) ->
  mapM f l = Err e -> e = IncompatibleShapes.
Proof.
  intros Hf. induction l as [|x l IH]; cbn; [discriminate |].
  destruct (f x) eqn:Ex; cbn.
  - destruct (mapM f l); cbn; [discriminate |].
    intros [= <-]. now apply IH.
  - intros [= <-]. eapply Hf; eauto.
Qed.

Lemma zipM_err {A B C} (f : A -> B -> result C) xs ys e :
  (forall x y e', f x y = Err e' -> e' = IncompatibleShapes) ->
  zipM f xs ys = Err e -> e = IncompatibleShapes.
Proof.
  intros Hf. revert ys.
  induction xs as [|x xs IH]; intros [|y ys]; cbn; try discriminate;
    try (now intros [= <-]).
  destruct (f x y) eqn:Ex; cbn.
  - destruct (zipM f xs ys) eqn:Ez; cbn; [discriminate |].
    intros [= <-]. eapply IH; eauto.
  - intros [= <-]. eapply Hf; eauto.
Qed.

Lemma bcast_err {A B C} (f : A -> B -> result C) xs ys e :
  (forall x y e', f x y = Err e' -> e' = IncompatibleShapes) ->
  bcast f xs ys = Err e -> e = IncompatibleShapes.
Proof.
  intros Hf. unfold bcast.
  destruct (Nat.eqb (length xs) (length ys)).
  - now apply zipM_err.
  - destruct xs as [|x [|x' xs]].
    + destruct ys as [|y [|y' ys]]; cbn; try discriminate; now intros [= <-].
    + apply mapM_err. intros y e'. apply Hf.
    + destruct ys as [|y [|y' ys]]; try (now intros [= <-]).
      apply mapM_err. intros z e'. apply Hf.
Qed.

Lemma tbin_err op t1 t2 e :
  tbin op t1 t2 = Err e -> e = IncompatibleShapes.
Proof.
  unfold tbin. apply bcast_err. intros s1 s2 e1.
  apply bcast_err. intros r1 r2 e2.
  apply bcast_err. intros p1 p2 e3.
  apply bcast_err. intros x y e4. discriminate.
Qed.

Lemma GeneralizedLoss_call_err self y_true y_pred e :
  GeneralizedLoss_call self y_true y_pred = Err e -> e = IncompatibleShapes.
Proof.
  unfold GeneralizedLoss_call.
  destruct (tbin Rminus y_pred y_true) eqn:E; cbn; [discriminate |].
  intros [= <-]. eapply tbin_err; eauto.
Qed.

(** C4, as stated, fails: with alpha = 0 and with alpha = 2, construction
    succeeds and a call on two one-channel pixels does not end in a
    configuration error. *)
Lemma C4_no_configuration_error_at_0_and_2 :
  ~ (fails_with_configuration_error 0 GeneralizedLoss_default_beta
       two_pixels_true two_pixels_pred \/
     fails_with_configuration_error 2 GeneralizedLoss_default_beta
       two_pixels_true two_pixels_pred).
Proof.
  unfold fails_with_configuration_error, GeneralizedLoss_init.
  intros [[H | (self & _ & H)] | [H | (self & _ & H)]];
    try discriminate H;
    apply GeneralizedLoss_call_err in H; discriminate H.
Qed.

(** C4, amended.  [GeneralizedLoss] validates nothing: for every alpha (0
    and 2 included) and every beta, construction succeeds and stores the
    parameters, a call on same-shaped inputs returns a tensor, and the only
    error a call can end in is a shape mismatch of its operands. *)
Theorem C4_generalized_no_validation (alpha_ beta_ : R) (b h w c : nat)
  (y_true y_pred : tensor4) :
  has_shape b h w c y_true -> has_shape b h w c y_pred ->
  exists self out,
    GeneralizedLoss_init alpha_ beta_ = Ok self /\
    self.(alpha) = alpha_ /\ self.(beta) = beta_ /\
    GeneralizedLoss_call self y_true y_pred = Ok out /\
    has_shape3 b h w out /\
    (forall t p e, GeneralizedLoss_call self t p = Err e -> e = IncompatibleShapes).
Proof.
  intros Ht Hp.
  exists {| alpha := alpha_; beta := beta_ |}. eexists.
  split; [reflexivity |]. split; [reflexivity |]. split; [reflexivity |].
  split; [apply (GeneralizedLoss_call_ok _ Ht Hp) |].
  split.
  - apply tmap3_shape. apply (@K_mean_last_shape b h w c). apply tmap_shape.
    apply (zip4_shape Rminus Hp Ht).
  - intros t p e. apply GeneralizedLoss_call_err.
Qed.

Lemma C4_generalized_no_validation_witness :
  exists self out,
    GeneralizedLoss_init 2 GeneralizedLoss_default_beta = Ok self /\
    self.(alpha) = 2 /\ self.(beta) = GeneralizedLoss_default_beta /\
    GeneralizedLoss_call self two_pixels_true two_pixels_pred = Ok out /\
    has_shape3 1 2 1 out /\
    (forall t p e, GeneralizedLoss_call self t p = Err e -> e = IncompatibleShapes).
Proof.
  exact (@C4_generalized_no_validation 2 GeneralizedLoss_default_beta 1 2 1 1
           two_pixels_true two_pixels_pred
           two_pixels_true_shape two_pixels_pred_shape).
Defined.

(** ** Identical inputs *)

Lemma call_elem_0 alpha beta : call_elem alpha beta 0 = 0.
Proof.
  unfold call_elem.
  replace (0 / beta) with 0 by (unfold Rdiv; ring).
  rewrite K_pow_2.
  replace (0 * 0 / Rabs (2 - alpha) + 1) with 1 by (unfold Rdiv; ring).
  rewrite K_pow_1_l. ring.
Qed.

Lemma sum_repeat_0 n : sum (repeat 0 n) = 0.
Proof. induction n; cbn; [reflexivity |]. rewrite IHn. ring. Qed.

Lemma mean_repeat_0 n : mean (repeat 0 n) = 0.
Proof. unfold mean. rewrite sum_repeat_0. unfold Rdiv. ring. Qed.

Lemma K_mean_last_zeros b h w c : K_mean_last (zeros b h w c) = zeros3 b h w.
Proof.
  unfold K_mean_last, zeros, zeros3. now rewrite !map_repeat, mean_repeat_0.
Qed.

Lemma tmap3_zeros3 f b h w : f 0 = 0 -> tmap3 f (zeros3 b h w) = zeros3 b h w.
Proof. intros Hf. unfold tmap3, zeros3. now rewrite !map_repeat, Hf. Qed.

Lemma GeneralizedLoss_call_same self b h w c y :
  has_shape b h w c y ->
  GeneralizedLoss_call self y y = Ok (zeros3 b h w).
Proof.
  intros H. rewrite (GeneralizedLoss_call_ok self H H).
  rewrite (zip4_minus_self H).
  rewrite tmap_zeros by apply call_elem_0.
  rewrite K_mean_last_zeros, tmap3_zeros3 by ring.
  reflexivity.
Qed.

Lemma GeneralizedLoss_call_entries (self : GeneralizedLoss)
  (b h w c : nat) (y_true y_pred : tensor4) :
  has_shape b h w c y_true -> has_shape b h w c y_pred ->
  self.(alpha) <> 2 ->
  exists out,
    GeneralizedLoss_call self y_true y_pred = Ok out /\
    has_shape3 b h w out /\
    forall i j k, (i < b)%nat -> (j < h)%nat -> (k < w)%nat ->
      at3 out i j k =
      self.(beta) *
      mean (map (fun l => loss_elem self.(alpha) self.(beta)
                            (at4 y_true i j k l) (at4 y_pred i j k l))
                (seq 0 c)).
Proof.
  intros Ht Hp Ha2.
  pose proof (zip4_shape Rminus Hp Ht) as Hd.
  pose proof (tmap_shape (call_elem self.(alpha) self.(beta)) Hd) as Hl.
  eexists. split; [apply (GeneralizedLoss_call_ok self Ht Hp) |].
  split; [apply tmap3_shape, (K_mean_last_shape Hl) |].
  intros i j k Hi Hj Hk.
  rewrite (at3_tmap3_mean _ Hl Hi Hj Hk).
  rewrite Rmult_comm. f_equal. f_equal.
  set (px := nth k (nth j (nth i (tmap _ _) []) []) []).
  assert (Hpx : length px = c).
  { unfold px.
    exact (@all_len_nth _ _ _ _ k []
             (@all_len_nth _ _ _ _ j [] (@all_len_nth _ _ _ _ i [] Hl Hi) Hj) Hk). }
  rewrite (list_as_map_nth px 0), Hpx.
  apply map_ext_in. intros l Hin. apply in_seq in Hin.
  change (nth l px 0)
    with (at4 (tmap (call_elem (alpha self) (beta self)) (zip4 Rminus y_pred y_true))
              i j k l).
  rewrite (at4_tmap _ Hd) by lia.
  rewrite (at4_zip4 _ Hp Ht) by lia.
  now apply call_elem_loss_elem.
Qed.

Section GradientLemmas.
Context {TF : TensorFlow}.

Lemma GeneralizedLoss___call___ok self b h w c y_true y_pred :
  has_shape b h w c y_true -> has_shape b h w c y_pred ->
  exists g, GeneralizedLoss___call__ self y_true y_pred = Ok g.
Proof.
  intros Ht Hp. unfold GeneralizedLoss___call__.
  rewrite (GeneralizedLoss_call_ok self Ht Hp), bind_Ok. eauto.
Qed.

Lemma GeneralizedLoss___call___same self b h w c y :
  has_shape b h w c y ->
  GeneralizedLoss___call__ self y y = Ok (loss_reduction (zeros3 b h w)).
Proof.
  intros H. unfold GeneralizedLoss___call__.
  now rewrite (GeneralizedLoss_call_same self H), bind_Ok.
Qed.

Lemma _diff_x_shape b h w c img :
  has_shape b h w c img -> (2 <= w)%nat ->
  exists out, _diff_x img = Ok out /\ has_shape b h w c out.
Proof.
  intros H Hw. destruct (_diff_x_ok H Hw) as (x & E & _ & S).
  eexists. split; [exact E | now apply tmap_shape].
Qed.

Lemma _diff_y_shape b h w c img :
  has_shape b h w c img -> (2 <= h)%nat ->
  exists out, _diff_y img = Ok out /\ has_shape b h w c out.
Proof.
  intros H Hh. destruct (_diff_y_ok H Hh) as (x & E & S).
  eexists. split; [exact E | now apply tmap_shape].
Qed.

End GradientLemmas.

(** C9.  On same-shaped inputs of height and width at least 2,
    [GradientLoss.call] returns the weighted average of five terms: weight
    1.0 on the x and y terms, weight 1.0 on the xx, yy and twice the xy
    terms, divided by the sum of the two weights.  Each term is the
    reduction of the generalized error with alpha = 1.9999 and beta = 1/255
    between the corresponding derivative fields of [y_true] and [y_pred]:
    the map [GeneralizedLoss.call] returns on the two fields, which holds at
    every pixel beta times the mean over the channels of [loss_elem] of the
    field of [y_true] and the field of [y_pred]. *)
Theorem C9_gradient_weighted_average {TF : TensorFlow} (b h w c : nat)
  (y_true y_pred : tensor4) :
  has_shape b h w c y_true -> has_shape b h w c y_pred ->
  (2 <= h)%nat -> (2 <= w)%nat ->
  exists self x_t x_p y_t y_p xx_t xx_p yy_t yy_p xy_t xy_p e_x e_y e_xx e_yy e_xy,
    GradientLoss_init = Ok self /\
    self.(generalized_loss).(alpha) = 1.9999 /\
    self.(generalized_loss).(beta) = 1.0 / 255.0 /\
    _diff_x y_true = Ok x_t /\ _diff_x y_pred = Ok x_p /\
    _diff_y y_true = Ok y_t /\ _diff_y y_pred = Ok y_p /\
    _diff_xx y_true = Ok xx_t /\ _diff_xx y_pred = Ok xx_p /\
    _diff_yy y_true = Ok yy_t /\ _diff_yy y_pred = Ok yy_p /\
    _diff_xy y_true = Ok xy_t /\ _diff_xy y_pred = Ok xy_p /\
    (GeneralizedLoss_call self.(generalized_loss) x_t x_p = Ok e_x /\
     generalized_error 1.9999 (1.0 / 255.0) b h w c x_t x_p e_x) /\
    (GeneralizedLoss_call self.(generalized_loss) y_t y_p = Ok e_y /\
     generalized_error 1.9999 (1.0 / 255.0) b h w c y_t y_p e_y) /\
    (GeneralizedLoss_call self.(generalized_loss) xx_t xx_p = Ok e_xx /\
     generalized_error 1.9999 (1.0 / 255.0) b h w c xx_t xx_p e_xx) /\
    (GeneralizedLoss_call self.(generalized_loss) yy_t yy_p = Ok e_yy /\
     generalized_error 1.9999 (1.0 / 255.0) b h w c yy_t yy_p e_yy) /\
    (GeneralizedLoss_call self.(generalized_loss) xy_t xy_p = Ok e_xy /\
     generalized_error 1.9999 (1.0 / 255.0) b h w c xy_t xy_p e_xy) /\
    GradientLoss_call self y_true y_pred =
    Ok (weighted_average 1.0 1.0
          (loss_reduction e_x) (loss_reduction e_y)
          (loss_reduction e_xx) (loss_reduction e_yy) (loss_reduction e_xy)).
Proof.
  intros Ht Hp Hh Hw.
  destruct (_diff_x_shape Ht Hw) as (x_t & Ext & Sxt).
  destruct (_diff_x_shape Hp Hw) as (x_p & Exp & Sxp).
  destruct (_diff_y_shape Ht Hh) as (y_t & Eyt & Syt).
  destruct (_diff_y_shape Hp Hh) as (y_p & Eyp & Syp).
  destruct (_diff_xx_ok Ht Hw) as (xx_t & Exxt & Sxxt).
  destruct (_diff_xx_ok Hp Hw) as (xx_p & Exxp & Sxxp).
  destruct (_diff_yy_ok Ht Hh) as (yy_t & Eyyt & Syyt).
  destruct (_diff_yy_ok Hp Hh) as (yy_p & Eyyp & Syyp).
  pose proof (_diff_xy_zero Ht Hh Hw) as Exyt.
  pose proof (_diff_xy_zero Hp Hh Hw) as Exyp.
  pose proof (zeros_shape b h w c) as Sz.
  set (gl := {| alpha := 1.9999; beta := GeneralizedLoss_default_beta |}).
  assert (Ha : gl.(alpha) <> 2) by (cbn; lra).
  destruct (GeneralizedLoss_call_entries gl Sxt Sxp Ha) as (e_x & Eex & Gex).
  destruct (GeneralizedLoss_call_entries gl Syt Syp Ha) as (e_y & Eey & Gey).
  destruct (GeneralizedLoss_call_entries gl Sxxt Sxxp Ha) as (e_xx & Eexx & Gexx).
  destruct (GeneralizedLoss_call_entries gl Syyt Syyp Ha) as (e_yy & Eeyy & Geyy).
  destruct (GeneralizedLoss_call_entries gl Sz Sz Ha) as (e_xy & Eexy & Gexy).
  exists {| generalized_loss := gl |}.
  exists x_t, x_p, y_t, y_p, xx_t, xx_p, yy_t, yy_p, (zeros b h w c), (zeros b h w c).
  exists e_x, e_y, e_xx, e_yy, e_xy.
  do 3 (split; [reflexivity |]).
  do 10 (split; [assumption |]).
  split; [exact (conj Eex Gex) |].
  split; [exact (conj Eey Gey) |].
  split; [exact (conj Eexx Gexx) |].
  split; [exact (conj Eeyy Geyy) |].
  split; [exact (conj Eexy Gexy) |].
  unfold GradientLoss_call, GeneralizedLoss___call__. cbn [generalized_loss].
  rewrite Ext, bind_Ok, Exp, bind_Ok, Eex, !bind_Ok.
  rewrite Eyt, bind_Ok, Eyp, bind_Ok, Eey, !bind_Ok.
  rewrite Exxt, bind_Ok, Exxp, bind_Ok, Eexx, !bind_Ok.
  rewrite Eyyt, bind_Ok, Eyyp, bind_Ok, Eeyy, !bind_Ok.
  rewrite Exyt, bind_Ok, Exyp, bind_Ok, Eexy, !bind_Ok.
  f_equal. unfold weighted_average. lra.
Qed.

Lemma fold_left_idem {A} (f : A -> A -> A) (x : A) n :
  f x x = x -> fold_left f (repeat x n) x = x.
Proof. intros Hf. induction n; cbn; [reflexivity |]. now rewrite Hf. Qed.

Lemma max_along_repeat {A} (f : A -> A -> A) (d x : A) n :
  f x x = x -> (0 < n)%nat -> max_along f d (repeat x n) = x.
Proof.
  intros Hf Hn. destruct n as [|n]; [lia |]. cbn. now apply fold_left_idem.
Qed.

Lemma zip_with_repeat {A B C} (f : A -> B -> C) x y n :
  zip_with f (repeat x n) (repeat y n) = repeat (f x y) n.
Proof. unfold zip_with. induction n; cbn; congruence. Qed.

Lemma K_max_12_keepdims_zeros b h w c :
  (0 < h)%nat -> (0 < w)%nat ->
  K_max_12_keepdims (zeros b h w c) = zeros b 1 1 c.
Proof.
  intros Hh Hw. unfold K_max_12_keepdims, zeros.
  rewrite map_repeat. f_equal.
  assert (Hp : zip_with Rmax (repeat 0 c) (repeat 0 c) = repeat 0 c).
  { rewrite zip_with_repeat. f_equal. apply Rmax_left. lra. }
  assert (Hr : zip_with (zip_with Rmax) (repeat (repeat 0 c) w) (repeat (repeat 0 c) w)
               = repeat (repeat 0 c) w).
  { rewrite zip_with_repeat. now rewrite Hp. }
  rewrite (@max_along_repeat _ _ [] _ _ Hr Hh).
  rewrite (@max_along_repeat _ _ [] _ _ Hp Hw).
  reflexivity.
Qed.

Lemma LInfNorm_call_same b h w c y :
  has_shape b h w c y -> (0 < h)%nat -> (0 < w)%nat ->
  LInfNorm_call y y = Ok (zeros3 b 1 1).
Proof.
  intros H Hh Hw. unfold LInfNorm_call.
  rewrite (tbin_ok Rminus H H), bind_Ok, (zip4_minus_self H).
  rewrite tmap_zeros by apply Rabs_R0.
  rewrite K_max_12_keepdims_zeros by assumption.
  now rewrite K_mean_last_zeros.
Qed.

(** ** Standard deviation of a constant field *)

Lemma tmap_ext f g t : (forall x, f x = g x) -> tmap f t = tmap g t.
Proof.
  intros H. unfold tmap.
  apply map_ext; intros s. apply map_ext; intros r. apply map_ext; intros p.
  now apply map_ext.
Qed.

Lemma zip4_tmap_same op f g t :
  zip4 op (tmap f t) (tmap g t) = tmap (fun x => op (f x) (g x)) t.
Proof.
  unfold zip4, tmap.
  rewrite zip_with_map_same. apply map_ext; intros s.
  rewrite zip_with_map_same. apply map_ext; intros r.
  rewrite zip_with_map_same. apply map_ext; intros p.
  apply zip_with_map_same.
Qed.

Lemma tmap_id t : tmap (fun x => x) t = t.
Proof.
  unfold tmap.
  rewrite <- (map_id t) at 2. apply map_ext; intros s.
  rewrite <- (map_id s) at 2. apply map_ext; intros r.
  rewrite <- (map_id r) at 2. apply map_ext; intros p.
  apply map_id.
Qed.

Lemma zip4_tmap_left op f t :
  zip4 op (tmap f t) t = tmap (fun x => op (f x) x) t.
Proof. rewrite <- (tmap_id t) at 2. apply zip4_tmap_same. Qed.

Lemma sum_const_1 (l : list R) :
  Forall (eq 1) l -> sum l = INR (length l).
Proof.
  induction 1 as [|x l Hx _ IH]; [reflexivity |].
  cbn [sum length]. rewrite S_INR, IH, <- Hx. ring.
Qed.

Lemma std_const_1 (l : list R) : Forall (eq 1) l -> std l = 0.
Proof.
  intros H. unfold std.
  assert (Hz : map (fun x => (x - mean l) * (x - mean l)) l = repeat 0 (length l)).
  { destruct l as [|x l]; [reflexivity |].
    assert (Hm : mean (x :: l) = 1).
    { unfold mean. rewrite (sum_const_1 H). field.
      apply not_0_INR. discriminate. }
    rewrite Hm. clear Hm.
    induction H as [|y l' Hy _ IH]; [reflexivity |].
    cbn [map length repeat]. rewrite IH, <- Hy. f_equal. ring. }
  rewrite Hz, mean_repeat_0. apply sqrt_0.
Qed.

Lemma gms_same_is_1 (x : R) :
  (2.0 * x * x + 0.0025) / (K_square x + K_square x + 0.0025) = 1.
Proof.
  unfold K_square. pose proof (Rle_0_sqr x) as H. unfold Rsqr in H.
  replace (2.0 * x * x + 0.0025) with (x * x + x * x + 0.0025)
    by (rewrite Rmult_assoc; lra).
  apply Rdiv_diag. lra.
Qed.

Lemma Forall_flatten_const (smp : list (list (list R))) (v : R) :
  Forall (eq v) (concat (concat (map (map (map (fun _ => v))) smp))).
Proof.
  apply Forall_concat_intro. apply Forall_concat_intro.
  apply Forall_map, Forall_forall. intros s _.
  apply Forall_map, Forall_forall. intros r _.
  apply Forall_map, Forall_forall. intros p _. reflexivity.
Qed.

Lemma K_std_const_1 (t : tensor4) :
  K_std_123_keepdims (tmap (fun _ => 1) t) = zeros (length t) 1 1 1.
Proof.
  unfold K_std_123_keepdims, tmap, zeros. rewrite map_map.
  induction t as [|s t IH]; [reflexivity |].
  cbn [map length repeat]. rewrite IH. f_equal.
  now rewrite (std_const_1 (Forall_flatten_const s 1)).
Qed.

Lemma K_squeeze_last_zeros b : K_squeeze_last (zeros b 1 1 1) = Ok (zeros3 b 1 1).
Proof.
  unfold K_squeeze_last, zeros, zeros3.
  induction b as [|b IH]; [reflexivity |].
  cbn [repeat mapM]. cbn [repeat] in IH. rewrite IH. reflexivity.
Qed.

Section GMSDLemmas.
Context {TF : TensorFlow}.

Lemma GMSDLoss_call_same y e b h w c :
  _scharr_edges y true = Ok e -> has_shape b h w c e ->
  GMSDLoss_call y y = Ok (zeros3 b 1 1).
Proof.
  intros He H. unfold GMSDLoss_call.
  rewrite He, !bind_Ok.
  rewrite (tbin_ok Rmult (tmap_shape (fun x => 2.0 * x) H) H), bind_Ok.
  rewrite (tbin_ok Rplus (tmap_shape K_square H) (tmap_shape K_square H)), bind_Ok.
  rewrite zip4_tmap_left, zip4_tmap_same, !tmap_tmap.
  pose proof (tmap_shape (fun x => 2.0 * x * x + 0.0025) H) as Su.
  pose proof (tmap_shape (fun x => K_square x + K_square x + 0.0025) H) as Sl.
  rewrite (tbin_ok Rdiv Su Sl), bind_Ok.
  rewrite zip4_tmap_same.
  rewrite (tmap_ext _ (fun _ => 1) e gms_same_is_1).
  rewrite K_std_const_1. destruct H as [Hb _]. rewrite Hb.
  apply K_squeeze_last_zeros.
Qed.

End GMSDLemmas.

(* ================================================================== *)
(** * Instances over [TF_instance] *)

Lemma img_const_shape : has_shape 1 2 2 1 img_const.
Proof. unfold has_shape, all_len, img_const. cbn. repeat constructor. Defined.

Lemma img_2x2_pred_shape : has_shape 1 2 2 1 img_2x2_pred.
Proof. unfold has_shape, all_len, img_2x2_pred. cbn. repeat constructor. Defined.

Lemma C9_gradient_weighted_average_witness :
  exists self x_t x_p e_x e_y e_xx e_yy e_xy,
    _diff_x img_2x2 = Ok x_t /\ _diff_x img_2x2_pred = Ok x_p /\
    generalized_error 1.9999 (1.0 / 255.0) 1 2 2 1 x_t x_p e_x /\
    GradientLoss_call (TF := TF_instance) self img_2x2 img_2x2_pred =
    Ok (weighted_average 1.0 1.0
          (loss_reduction (TensorFlow := TF_instance) e_x) (loss_reduction (TensorFlow := TF_instance) e_y)
          (loss_reduction (TensorFlow := TF_instance) e_xx) (loss_reduction (TensorFlow := TF_instance) e_yy) (loss_reduction (TensorFlow := TF_instance) e_xy)).
Proof.
  destruct (@C9_gradient_weighted_average TF_instance 1 2 2 1 img_2x2 img_2x2_pred
              img_2x2_shape img_2x2_pred_shape (le_n 2) (le_n 2))
    as (self & x_t & x_p & y_t & y_p & xx_t & xx_p & yy_t & yy_p & xy_t & xy_p &
        e_x & e_y & e_xx & e_yy & e_xy &
        _ & _ & _ & Ext & Exp & _ & _ & _ & _ & _ & _ & _ & _ &
        (_ & Gex) & _ & _ & _ & _ & H).
  exists self, x_t, x_p, e_x, e_y, e_xx, e_yy, e_xy.
  split; [exact Ext |]. split; [exact Exp |]. split; [exact Gex |]. exact H.
Defined.

(* ================================================================== *)
(** * Identical inputs *)

(** C5.  On identical inputs of valid shape every metric returns 0:
    [DSSIMObjective] and [MSSSIMLoss] whenever the similarity primitive
    returns 1 on the pair, [GeneralizedLoss] (alpha other than 0 and 2, beta
    other than 0), [LInfNorm], [GradientLoss] whenever the reduction of
    [Loss.__call__] maps the zero tensor to 0, and [GMSDLoss] whenever the
    edge map is computed; a uniform constant image is one such input. *)
Theorem C5_identical_inputs_give_zero {TF : TensorFlow}
  (dssim : DSSIMObjective) (msssim : MSSSIMLoss) (gen : GeneralizedLoss)
  (y e : tensor4) (b h w c eh ew ec : nat) :
  has_shape b h w c y ->
  (0 < b)%nat -> (2 <= h)%nat -> (2 <= w)%nat -> (0 < c)%nat ->
  tf_image_ssim y y dssim.(_max_value) dssim.(_filter_size)
    dssim.(_filter_sigma) dssim.(_k_1) dssim.(_k_2) = Ok (repeat 1 b) ->
  tf_image_ssim_multiscale y y msssim.(max_value) msssim.(power_factors)
    (Z.min msssim.(filter_size)
       (_get_smallest_size (int_shape_1 y)
          (Z.of_nat (length msssim.(power_factors)) - 1)))
    msssim.(filter_sigma) msssim.(k_1) msssim.(k_2) = Ok (repeat 1 b) ->
  gen.(alpha) <> 0 -> gen.(alpha) <> 2 -> gen.(beta) <> 0 ->
  loss_reduction (zeros3 b h w) = 0 ->
  _scharr_edges y true = Ok e ->
  has_shape b eh ew ec e -> (0 < eh)%nat -> (0 < ew)%nat -> (0 < ec)%nat ->
  DSSIMObjective_call dssim y y = Ok (repeat 0 b) /\
  MSSSIMLoss_call msssim y y = Ok (repeat 0 b) /\
  GeneralizedLoss_call gen y y = Ok (zeros3 b h w) /\
  LInfNorm_call y y = Ok (zeros3 b 1 1) /\
  (exists grad, GradientLoss_init = Ok grad /\ GradientLoss_call grad y y = Ok 0) /\
  GMSDLoss_call y y = Ok (zeros3 b 1 1).
Proof.
  intros H Hb Hh Hw Hc Hssim Hms Ha0 Ha2 Hbeta Hred He Se Heh Hew Hec.
  split; [| split; [| split; [| split; [| split]]]].
  - unfold DSSIMObjective_call. rewrite Hssim, bind_Ok, map_repeat.
    do 2 f_equal. lra.
  - unfold MSSSIMLoss_call. cbv zeta. rewrite Hms, bind_Ok, map_repeat.
    do 2 f_equal. lra.
  - apply (GeneralizedLoss_call_same gen H).
  - apply (LInfNorm_call_same H); lia.
  - eexists. split; [reflexivity |].
    unfold GradientLoss_call. cbn [generalized_loss].
    destruct (_diff_x_shape H Hw) as (dx & Ex & Sx).
    destruct (_diff_y_shape H Hh) as (dy & Ey & Sy).
    destruct (_diff_xx_ok H Hw) as (dxx & Exx & Sxx).
    destruct (_diff_yy_ok H Hh) as (dyy & Eyy & Syy).
    rewrite Ex, !bind_Ok, (GeneralizedLoss___call___same _ Sx), bind_Ok.
    rewrite Ey, !bind_Ok, (GeneralizedLoss___call___same _ Sy), bind_Ok.
    rewrite Exx, !bind_Ok, (GeneralizedLoss___call___same _ Sxx), bind_Ok.
    rewrite Eyy, !bind_Ok, (GeneralizedLoss___call___same _ Syy), bind_Ok.
    rewrite (_diff_xy_zero H Hh Hw), !bind_Ok.
    rewrite (GeneralizedLoss___call___same _ (zeros_shape b h w c)), bind_Ok.
    rewrite Hred. f_equal. lra.
  - apply (GMSDLoss_call_same y He Se).
Qed.

Lemma loss_reduction_zeros_2x2 :
  loss_reduction (TensorFlow := TF_instance) (zeros3 1 2 2) = 0.
Proof. cbv -[Rminus Rmult Rplus Rdiv IZR Rinv Ropp]. lra. Defined.

Lemma ssim_instance_same (y : tensor4) :
  (if tensor4_eq_dec y y then 1 else 0) = 1.
Proof. destruct (tensor4_eq_dec y y); [reflexivity | congruence]. Defined.

Lemma C5_identical_inputs_give_zero_witness :
  DSSIMObjective_call (TF := TF_instance) DSSIMObjective_default img_const img_const
  = Ok [0] /\
  MSSSIMLoss_call (TF := TF_instance) MSSSIMLoss_default img_const img_const
  = Ok [0] /\
  GeneralizedLoss_call
    {| alpha := GeneralizedLoss_default_alpha; beta := GeneralizedLoss_default_beta |}
    img_const img_const = Ok [[[0; 0]; [0; 0]]] /\
  LInfNorm_call img_const img_const = Ok [[[0]]] /\
  (exists grad, GradientLoss_init = Ok grad /\
                GradientLoss_call (TF := TF_instance) grad img_const img_const = Ok 0) /\
  GMSDLoss_call (TF := TF_instance) img_const img_const = Ok [[[0]]].
Proof.
  apply (@C5_identical_inputs_give_zero TF_instance
           DSSIMObjective_default MSSSIMLoss_default
           {| alpha := GeneralizedLoss_default_alpha;
              beta := GeneralizedLoss_default_beta |}
           img_const img_const 1 2 2 1 2 2 1 img_const_shape).
  - lia.
  - lia.
  - lia.
  - lia.
  - cbn [tf_image_ssim TF_instance]. now rewrite ssim_instance_same.
  - cbn [tf_image_ssim_multiscale TF_instance]. now rewrite ssim_instance_same.
  - cbn. unfold GeneralizedLoss_default_alpha. lra.
  - cbn. unfold GeneralizedLoss_default_alpha. lra.
  - cbn. unfold GeneralizedLoss_default_beta. lra.
  - exact loss_reduction_zeros_2x2.
  - reflexivity.
  - exact img_const_shape.
  - lia.
  - lia.
  - lia.
Defined.

(* ================================================================== *)
(** * MSSSIMLoss: the effective filter size *)

Lemma iter_shift {A} (f : A -> A) n x : Nat.iter n f (f x) = f (Nat.iter n f x).
Proof.
  induction n as [|n IH]; [reflexivity |].
  change (Nat.iter (S n) f (f x)) with (f (Nat.iter n f (f x))).
  now rewrite IH.
Qed.

Lemma _get_smallest_size_eq (size idx : Z) :
  _get_smallest_size size idx =
  if Z_gt_dec idx 0 then _get_smallest_size (size / 2) (idx - 1) else size.
Proof.
  rewrite _get_smallest_size_equation_1.
  destruct (Z_gt_dec idx 0); reflexivity.
Qed.

Lemma _get_smallest_size_halves (n : nat) (size : Z) :
  _get_smallest_size size (Z.of_nat n) = halve_steps n size.
Proof.
  revert size. induction n as [|n IH]; intros size.
  - rewrite _get_smallest_size_eq.
    destruct (Z_gt_dec (Z.of_nat 0) 0) as [Hn | _]; [lia | reflexivity].
  - rewrite _get_smallest_size_eq.
    destruct (Z_gt_dec (Z.of_nat (S n)) 0) as [_ | Hn]; [| lia].
    replace (Z.of_nat (S n) - 1)%Z with (Z.of_nat n) by lia.
    rewrite IH. unfold halve_steps.
    change (Nat.iter (S n) (fun s => (s / 2)%Z) size)
      with ((Nat.iter n (fun s => (s / 2)%Z) size) / 2)%Z.
    apply (iter_shift (fun s => (s / 2)%Z)).
Qed.

Lemma _get_smallest_size_nonpositive (size idx : Z) :
  (idx <= 0)%Z -> _get_smallest_size size idx = size.
Proof.
  intros H. rewrite _get_smallest_size_eq.
  destruct (Z_gt_dec idx 0); [lia | reflexivity].
Qed.

Lemma _get_smallest_size_levels (levels : nat) (size : Z) :
  _get_smallest_size size (Z.of_nat levels - 1) = halve_steps (levels - 1) size.
Proof.
  destruct levels as [|n].
  - now rewrite _get_smallest_size_nonpositive by lia.
  - replace (Z.of_nat (S n) - 1)%Z with (Z.of_nat n) by lia.
    replace (S n - 1)%nat with n by lia.
    apply _get_smallest_size_halves.
Qed.

Lemma int_shape_1_height b h w c (t : tensor4) :
  has_shape b h w c t -> (0 < b)%nat -> int_shape_1 t = Z.of_nat h.
Proof.
  intros [Hb Hs] Hpos. unfold int_shape_1.
  destruct Hs as [|s t [Hh _] _]; cbn in *; [lia | now rewrite Hh].
Qed.

(** C6.  [MSSSIMLoss.call] halves the height of the input, with integer
    division, once per power factor but the first, and passes the minimum of
    the configured filter size and of that smallest size to the similarity
    primitive; with height 32 and 5 power factors the smallest size is 2 and
    every configured filter size above 2 is clamped to 2. *)
Theorem C6_msssim_filter_size_clamp {TF : TensorFlow} (self : MSSSIMLoss)
  (b h w c : nat) (y_true y_pred : tensor4) :
  has_shape b h w c y_true -> (0 < b)%nat ->
  let levels := length self.(power_factors) in
  _get_smallest_size (Z.of_nat h) (Z.of_nat levels - 1)
  = halve_steps (levels - 1) (Z.of_nat h) /\
  MSSSIMLoss_call self y_true y_pred
  = msssim_with_filter_size self y_true y_pred
      (Z.min self.(filter_size) (halve_steps (levels - 1) (Z.of_nat h))) /\
  (h = 32%nat -> levels = 5%nat ->
   halve_steps (levels - 1) (Z.of_nat h) = 2%Z /\
   ((2 < self.(filter_size))%Z ->
    MSSSIMLoss_call self y_true y_pred
    = msssim_with_filter_size self y_true y_pred 2%Z)).
Proof.
  intros H Hb levels.
  assert (Hcall : MSSSIMLoss_call self y_true y_pred
                  = msssim_with_filter_size self y_true y_pred
                      (Z.min self.(filter_size)
                         (halve_steps (levels - 1) (Z.of_nat h)))).
  { unfold MSSSIMLoss_call, msssim_with_filter_size. cbv zeta.
    rewrite (int_shape_1_height H Hb).
    fold levels. now rewrite _get_smallest_size_levels. }
  split; [apply _get_smallest_size_levels |].
  split; [exact Hcall |].
  intros -> Hl. rewrite Hl in *.
  assert (H2 : halve_steps (5 - 1) (Z.of_nat 32) = 2%Z) by reflexivity.
  split; [exact H2 |].
  intros Hfs. rewrite Hcall, H2. f_equal. lia.
Qed.

Lemma img_32_shape : has_shape 1 32 32 1 img_32.
Proof.
  unfold has_shape, img_32. split; [reflexivity |].
  constructor; [| constructor].
  apply all_len_repeat. apply all_len_repeat. reflexivity.
Defined.

Lemma C6_msssim_filter_size_clamp_witness :
  _get_smallest_size 32 4 = 2%Z /\
  MSSSIMLoss_call (TF := TF_instance) MSSSIMLoss_default img_32 img_32
  = msssim_with_filter_size (TF := TF_instance) MSSSIMLoss_default img_32 img_32 2%Z.
Proof.
  destruct (@C6_msssim_filter_size_clamp TF_instance MSSSIMLoss_default
              1 32 32 1 img_32 img_32 img_32_shape (le_n 1))
    as (Hsmall & _ & Hclamp).
  destruct (Hclamp eq_refl eq_refl) as (H2 & Hcall).
  split.
  - exact (eq_trans Hsmall H2).
  - apply Hcall. reflexivity.
Defined.

(* ================================================================== *)
(** * LossWrapper *)

Lemma take_upto_3 {A} (l : list A) : take (upto 3) l = firstn 3 l.
Proof.
  unfold take, py_slice, upto, slice_bounds, norm_index. cbn [fst snd].
  change (3 <? 0)%Z with false. cbv iota.
  rewrite Z.sub_0_r. cbn [Z.to_nat skipn].
  destruct (Z.min_spec 3 (Z.of_nat (length l))) as [[Hlt ->] | [Hle ->]].
  - reflexivity.
  - rewrite Nat2Z.id. rewrite firstn_all. symmetry. apply firstn_all2. lia.
Qed.

Lemma slice4_upto_3 (t : tensor4) :
  slice4 t full full full (upto 3) = map (map (map (firstn 3))) t.
Proof.
  unfold slice4. rewrite take_full. apply map_ext; intros s.
  rewrite take_full. apply map_ext; intros r.
  rewrite take_full. apply map_ext; intros p. apply take_upto_3.
Qed.

Lemma slice4_upto_3_idem (t : tensor4) :
  slice4 (slice4 t full full full (upto 3)) full full full (upto 3)
  = slice4 t full full full (upto 3).
Proof.
  rewrite !slice4_upto_3. rewrite map_map. apply map_ext; intros s.
  rewrite map_map. apply map_ext; intros r.
  rewrite map_map. apply map_ext; intros p.
  rewrite firstn_firstn. reflexivity.
Qed.

Lemma LossWrapper___call___fold {TF : TensorFlow} self y_true y_pred :
  LossWrapper___call__ self y_true y_pred =
  fold_left (call_step y_true y_pred)
    (zip3 self.(_loss_functions) self.(_loss_weights) self.(_mask_channels))
    (Ok 0.0).
Proof. reflexivity. Qed.

Lemma zip3_snoc {A B C} (xs : list A) (ys : list B) (zs : list C) x y z :
  length xs = length ys -> length ys = length zs ->
  zip3 (xs ++ [x]) (ys ++ [y]) (zs ++ [z]) = zip3 xs ys zs ++ [(x, y, z)].
Proof.
  revert ys zs. induction xs as [|a xs IH]; intros [|b ys] [|c zs] H1 H2;
    cbn in *; try discriminate; [reflexivity |].
  f_equal. apply IH; lia.
Qed.

Lemma add_loss_lengths {TF : TensorFlow} self function weight mask_channel :
  length self.(_loss_functions) = length self.(_loss_weights) /\
  length self.(_loss_weights) = length self.(_mask_channels) ->
  let self' := add_loss self function weight mask_channel in
  length self'.(_loss_functions) = length self'.(_loss_weights) /\
  length self'.(_loss_weights) = length self'.(_mask_channels).
Proof. intros [H1 H2]. cbn. rewrite !length_app. cbn. lia. Qed.

Lemma wrapper_of_lengths {TF : TensorFlow} regs :
  let self := wrapper_of regs in
  length self.(_loss_functions) = length self.(_loss_weights) /\
  length self.(_loss_weights) = length self.(_mask_channels).
Proof.
  unfold wrapper_of.
  assert (G : forall self,
            length self.(_loss_functions) = length self.(_loss_weights) /\
            length self.(_loss_weights) = length self.(_mask_channels) ->
            let self' := fold_left (fun self '(function, weight, mask_channel) =>
                                      add_loss self function weight mask_channel)
                                   regs self in
            length self'.(_loss_functions) = length self'.(_loss_weights) /\
            length self'.(_loss_weights) = length self'.(_mask_channels)).
  { induction regs as [|[[f w] m] regs IH]; intros self H; [exact H |].
    cbn [fold_left]. apply IH. now apply add_loss_lengths. }
  apply G. split; reflexivity.
Qed.

Lemma LossWrapper___call___add_loss {TF : TensorFlow} regs function weight mask_channel y_true y_pred :
  LossWrapper___call__ (add_loss (wrapper_of regs) function weight mask_channel)
    y_true y_pred =
  call_step y_true y_pred (LossWrapper___call__ (wrapper_of regs) y_true y_pred)
    (LossesContainer function, weight, mask_channel).
Proof.
  rewrite !LossWrapper___call___fold.
  destruct (wrapper_of_lengths regs) as [H1 H2].
  cbn [add_loss _loss_functions _loss_weights _mask_channels].
  rewrite (zip3_snoc _ _ _ _ _ _ H1 H2), fold_left_app. reflexivity.
Qed.

(** C7.  A metric registered with [mask_channel = -1] is applied to the
    first 3 channels of [y_true] and [y_pred]: registered alone with the
    default weight, the composition returns what the compiled metric returns
    on them; registered after any other metrics and with any weight, it adds
    the weight times that value to their total; the channels of [y_true]
    after the third are ignored, the pre-sliced tensor giving the same
    output. *)
Theorem C7_unmasked_metric_sees_first_three_channels {TF : TensorFlow}
  (function : Loss) (weight : R) (regs : list (Loss * R * Z))
  (y_true y_pred : tensor4) :
  LossWrapper___call__
    (add_loss LossWrapper_init function add_loss_default_weight (-1)) y_true y_pred
  = LossesContainer function (slice4 y_true full full full (upto 3))
                             (slice4 y_pred full full full (upto 3)) /\
  LossWrapper___call__ (add_loss (wrapper_of regs) function weight (-1)) y_true y_pred
  = (loss <- LossWrapper___call__ (wrapper_of regs) y_true y_pred ;;
     v <- LossesContainer function (slice4 y_true full full full (upto 3))
                                   (slice4 y_pred full full full (upto 3)) ;;
     Ok (loss + v * weight)) /\
  LossWrapper___call__ (add_loss LossWrapper_init function weight (-1)) y_true y_pred
  = LossWrapper___call__ (add_loss LossWrapper_init function weight (-1))
      (slice4 y_true full full full (upto 3)) y_pred.
Proof.
  split; [| split].
  - unfold LossWrapper___call__, add_loss, LossWrapper_init, _apply_mask.
    cbn -[slice4 Rplus Rmult].
    destruct (LossesContainer function _ _) as [v | e]; cbn; [| reflexivity].
    f_equal. unfold add_loss_default_weight. lra.
  - rewrite LossWrapper___call___add_loss. unfold call_step, _apply_mask.
    change (-1 =? -1)%Z with true. cbv iota.
    destruct (LossWrapper___call__ (wrapper_of regs) y_true y_pred); reflexivity.
  - unfold LossWrapper___call__, add_loss, LossWrapper_init, _apply_mask.
    cbn -[slice4 Rplus Rmult].
    now rewrite slice4_upto_3_idem.
Qed.

(** C10.  With no registered loss function the composition returns 0 for
    every input pair. *)
Theorem C10_empty_wrapper_returns_zero (y_true y_pred : tensor4) :
  LossWrapper___call__ LossWrapper_init y_true y_pred = Ok 0.
Proof.
  unfold LossWrapper___call__, LossWrapper_init. cbn [zip3 fold_left _loss_functions].
  f_equal. lra.
Qed.

(* ================================================================== *)
(** * LInfNorm *)

Lemma fold_left_Rmax_ge_init l a : a <= fold_left Rmax l a.
Proof.
  revert a. induction l as [|x l IH]; intros a; cbn; [lra |].
  eapply Rle_trans; [apply (Rmax_l a x) | apply IH].
Qed.

Lemma fold_left_Rmax_ge l a x : In x l -> x <= fold_left Rmax l a.
Proof.
  revert a. induction l as [|y l IH]; intros a Hx; [contradiction |].
  destruct Hx as [Hx | Hx]; cbn.
  - subst y. eapply Rle_trans; [apply (Rmax_r a x) | apply fold_left_Rmax_ge_init].
  - now apply IH.
Qed.

Lemma fold_left_Rmax_in l a : In (fold_left Rmax l a) (a :: l).
Proof.
  revert a. induction l as [|y l IH]; intros a; cbn; [now left |].
  destruct (IH (Rmax a y)) as [H | H].
  - unfold Rmax in H at 1. destruct (Rle_dec a y); rewrite <- H; auto.
  - right. now right.
Qed.

Lemma max_along_Rmax_ge l d x : In x l -> x <= max_along Rmax d l.
Proof.
  destruct l as [|a l]; [contradiction |]. cbn. intros [<- | Hx].
  - apply fold_left_Rmax_ge_init.
  - now apply fold_left_Rmax_ge.
Qed.

Lemma max_along_Rmax_in l d : l <> [] -> In (max_along Rmax d l) l.
Proof.
  destruct l as [|a l]; [congruence |]. intros _. apply fold_left_Rmax_in.
Qed.

Lemma nth_map_seq {A} (F : nat -> A) n l d :
  (l < n)%nat -> nth l (map F (seq 0 n)) d = F l.
Proof.
  intros H. rewrite (nth_map_dflt _ _ 0%nat) by now rewrite length_seq.
  now rewrite seq_nth.
Qed.

(** Reducing a non-empty list of equally long vectors entry by entry. *)
Lemma fold_left_zip_with {A} (f : A -> A -> A) (d : A) n (vs : list (list A)) v :
  length v = n -> Forall (fun u => length u = n) vs ->
  fold_left (zip_with f) vs v =
  map (fun l => fold_left f (map (fun u => nth l u d) vs) (nth l v d)) (seq 0 n).
Proof.
  intros Hv Hvs. revert v Hv.
  induction Hvs as [|u vs Hu _ IH]; intros v Hv; cbn [fold_left map].
  - subst n. apply list_as_map_nth.
  - rewrite IH by (rewrite zip_with_length; congruence).
    apply map_ext_in. intros l Hl. apply in_seq in Hl.
    f_equal. apply nth_zip_with; lia.
Qed.

Lemma max_along_zip_with {A} (f : A -> A -> A) (d : A) n (vs : list (list A)) :
  vs <> [] -> Forall (fun u => length u = n) vs ->
  max_along (zip_with f) [] vs =
  map (fun l => max_along f d (map (fun u => nth l u d) vs)) (seq 0 n).
Proof.
  destruct vs as [|v vs]; [congruence |]. intros _ H.
  inversion H as [|? ? Hv Hvs]; subst.
  cbn [max_along map]. now apply fold_left_zip_with.
Qed.

Lemma K_max_12_sample h w c (smp : list (list (list R))) :
  all_len (all_len (fun p : list R => length p = c) w) h smp ->
  (0 < h)%nat -> (0 < w)%nat ->
  max_along (zip_with Rmax) [] (max_along (zip_with (zip_with Rmax)) [] smp)
  = map (sample_max smp w) (seq 0 c).
Proof.
  intros [Hh Hs] Hhpos Hwpos.
  assert (Hne : smp <> []) by (intros ->; cbn in Hh; lia).
  assert (Hrows : Forall (fun r : list (list R) => length r = w) smp).
  { eapply Forall_impl; [| exact Hs]. now intros r [Hr _]. }
  rewrite (max_along_zip_with (zip_with Rmax) [] Hne Hrows).
  assert (Hcol : forall k, (k < w)%nat ->
            max_along (zip_with Rmax) [] (map (fun r => nth k r []) smp)
            = map (fun l => max_along Rmax 0
                              (map (fun r => nth l (nth k r []) 0) smp))
                  (seq 0 c)).
  { intros k Hk.
    rewrite (@max_along_zip_with _ Rmax 0 c).
    - apply map_ext. intros l. now rewrite map_map.
    - destruct smp; [congruence | discriminate].
    - apply Forall_map. eapply Forall_impl; [| exact Hs].
      intros r Hr. exact (@all_len_nth _ _ _ _ k [] Hr Hk). }
  rewrite (@max_along_zip_with _ Rmax 0 c).
  - apply map_ext_in. intros l Hl. apply in_seq in Hl.
    unfold sample_max. f_equal. rewrite map_map.
    apply map_ext_in. intros k Hk. apply in_seq in Hk.
    rewrite Hcol by lia. rewrite nth_map_seq by lia. reflexivity.
  - destruct w; [lia | discriminate].
  - apply Forall_map, Forall_forall. intros k Hk. apply in_seq in Hk.
    rewrite Hcol by lia. now rewrite length_map, length_seq.
Qed.

Lemma sample_max_is_max h w c (smp : list (list (list R))) l :
  all_len (all_len (fun p : list R => length p = c) w) h smp ->
  (0 < h)%nat -> (0 < w)%nat ->
  is_max_over (fun j k => nth l (nth k (nth j smp []) []) 0) h w (sample_max smp w l).
Proof.
  intros [Hh Hs] Hhpos Hwpos. unfold sample_max. split.
  - intros j k Hj Hk.
    eapply Rle_trans.
    + apply (@max_along_Rmax_ge (map (fun r => nth l (nth k r []) 0) smp) 0).
      apply in_map_iff. exists (nth j smp []). split; [reflexivity |].
      apply nth_In. lia.
    + apply max_along_Rmax_ge.
      apply in_map_iff. exists k. split; [reflexivity |]. apply in_seq. lia.
  - set (col := fun k => max_along Rmax 0 (map (fun r => nth l (nth k r []) 0) smp)).
    assert (Hin : In (max_along Rmax 0 (map col (seq 0 w))) (map col (seq 0 w))).
    { apply max_along_Rmax_in. destruct w; [lia | discriminate]. }
    apply in_map_iff in Hin. destruct Hin as (k & Hk & Hkin). apply in_seq in Hkin.
    assert (Hin' : In (col k) (map (fun r => nth l (nth k r []) 0) smp)).
    { apply max_along_Rmax_in. destruct smp; [cbn in Hh; lia | discriminate]. }
    apply in_map_iff in Hin'. destruct Hin' as (r & Hr & Hrin).
    destruct (In_nth _ _ [] Hrin) as (j & Hj & Hnth).
    exists j, k. repeat split; try lia.
    rewrite Hnth, Hr. exact Hk.
Qed.

Lemma is_max_over_ext f g h w m :
  (forall j k, (j < h)%nat -> (k < w)%nat -> f j k = g j k) ->
  is_max_over f h w m -> is_max_over g h w m.
Proof.
  intros Hfg [Hub (j & k & Hj & Hk & Hat)]. split.
  - intros j' k' Hj' Hk'. rewrite <- Hfg by assumption. now apply Hub.
  - exists j, k. repeat split; try assumption. now rewrite <- Hfg.
Qed.

(** C8.  On same-shaped images with non-empty spatial axes,
    [LInfNorm.call] returns one value per sample (shape (b, 1, 1)): the mean
    over the channels of the maximum over height and width of the absolute
    pixel-wise error. *)
Theorem C8_linf_mean_of_spatial_max (b h w c : nat) (y_true y_pred : tensor4) :
  has_shape b h w c y_true -> has_shape b h w c y_pred ->
  (0 < h)%nat -> (0 < w)%nat ->
  exists (out : tensor3) (M : nat -> nat -> R),
    LInfNorm_call y_true y_pred = Ok out /\
    has_shape3 b 1 1 out /\
    (forall i, (i < b)%nat -> at3 out i 0 0 = mean (map (M i) (seq 0 c))) /\
    (forall i l, (i < b)%nat -> (l < c)%nat ->
       is_max_over (fun j k => Rabs (at4 y_true i j k l - at4 y_pred i j k l))
                   h w (M i l)).
Proof.
  intros Ht Hp Hh Hw.
  pose proof (zip4_shape Rminus Ht Hp) as Hd.
  pose proof (tmap_shape Rabs Hd) as Ha.
  set (D := tmap Rabs (zip4 Rminus y_true y_pred)) in *.
  exists (map (fun smp => [[mean (map (sample_max smp w) (seq 0 c))]]) D).
  exists (fun i => sample_max (nth i D []) w).
  assert (Hmax : K_max_12_keepdims D
                 = map (fun smp => [[map (sample_max smp w) (seq 0 c)]]) D).
  { unfold K_max_12_keepdims. apply map_ext_in. intros smp Hin.
    destruct Ha as [_ Hall]. rewrite Forall_forall in Hall.
    cbv zeta. now rewrite (K_max_12_sample (Hall smp Hin) Hh Hw). }
  split; [| split; [| split]].
  - unfold LInfNorm_call. rewrite (tbin_ok Rminus Ht Hp), bind_Ok.
    fold D. rewrite Hmax. unfold K_mean_last. rewrite map_map. reflexivity.
  - destruct Ha as [Hb _]. split; [now rewrite length_map |].
    apply Forall_map, Forall_forall. intros smp _.
    split; [reflexivity |]. repeat constructor.
  - intros i Hi. unfold at3. destruct Ha as [Hb _].
    rewrite (nth_map_dflt _ _ []) by lia. reflexivity.
  - intros i l Hi Hl.
    pose proof (@all_len_nth _ _ _ _ i [] Ha Hi) as Hs.
    apply (is_max_over_ext (f := fun j k => nth l (nth k (nth j (nth i D []) []) []) 0)).
    + intros j k Hj Hk.
      change (nth l (nth k (nth j (nth i D []) []) []) 0) with (at4 D i j k l).
      unfold D. rewrite (at4_tmap _ Hd) by assumption.
      now rewrite (at4_zip4 _ Ht Hp).
    + apply (sample_max_is_max l Hs Hh Hw).
Qed.

Lemma linf_true_shape : has_shape 1 2 2 2 linf_true.
Proof. unfold has_shape, all_len, linf_true. cbn. repeat constructor. Defined.

Lemma linf_pred_shape : has_shape 1 2 2 2 linf_pred.
Proof. unfold has_shape, all_len, linf_pred. cbn. repeat constructor. Defined.

Lemma C8_linf_mean_of_spatial_max_witness :
  exists (out : tensor3) (M : nat -> nat -> R),
    LInfNorm_call linf_true linf_pred = Ok out /\
    has_shape3 1 1 1 out /\
    (forall i, (i < 1)%nat -> at3 out i 0 0 = mean (map (M i) (seq 0 2))) /\
    (forall i l, (i < 1)%nat -> (l < 2)%nat ->
       is_max_over (fun j k => Rabs (at4 linf_true i j k l - at4 linf_pred i j k l))
                   2 2 (M i l)).
Proof.
  apply (@C8_linf_mean_of_spatial_max 1 2 2 2 linf_true linf_pred
           linf_true_shape linf_pred_shape); lia.
Defined.

(* ================================================================== *)
(** * The other derivative fields, entry by entry *)

Lemma diff_line_length {A} (op : A -> A -> A) (line : list A) n :
  length line = n -> (2 <= n)%nat -> length (diff_line op line) = n.
Proof.
  intros Hl Hn. unfold diff_line.
  rewrite !length_app, !zip_with_length;
    rewrite ?take_length, ?Hl; norm_len; try reflexivity. lia.
Qed.

(** Entry [j] of the stencil on a line of at least 2 entries: [op] of the
    next and of the previous entry, both indices clamped to the line. *)
Lemma diff_line_nth {A} (op : A -> A -> A) (line : list A) n j d :
  length line = n -> (2 <= n)%nat -> (j < n)%nat ->
  nth j (diff_line op line) d =
  op (nth (Nat.min (j + 1) (n - 1)) line d) (nth (j - 1) line d).
Proof.
  intros Hl Hn Hj. unfold diff_line.
  assert (L1 : length (zip_with op (take (sl 1 2) line) (take (sl 0 1) line)) = 1%nat).
  { rewrite zip_with_length; rewrite !take_length, Hl; norm_len; reflexivity. }
  assert (L2 : length (zip_with op (take (from 2) line) (take (upto (-2)) line))
               = (n - 2)%nat).
  { rewrite zip_with_length; rewrite !take_length, Hl; norm_len; reflexivity. }
  destruct (Nat.eq_dec j 0) as [-> | Hj0].
  - rewrite app_nth1 by (rewrite length_app; lia).
    rewrite app_nth1 by lia.
    rewrite (nth_zip_with _ _ _ d d) by (rewrite take_length, Hl; norm_len; lia).
    rewrite (@nth_take _ (sl 1 2) line 1 1), (@nth_take _ (sl 0 1) line 0 1);
      try lia; try (rewrite Hl; slice_bounds_tac).
    f_equal; f_equal; lia.
  - destruct (Nat.eq_dec j (n - 1)) as [-> | Hjn].
    + rewrite app_nth2 by (rewrite length_app; lia).
      rewrite length_app, L1, L2.
      replace (n - 1 - (1 + (n - 2)))%nat with 0%nat by lia.
      rewrite (nth_zip_with _ _ _ d d) by (rewrite take_length, Hl; norm_len; lia).
      rewrite (@nth_take _ (from (-1)) line (n - 1) 1),
        (@nth_take _ (sl (-2) (-1)) line (n - 2) 1);
        try lia; try (rewrite Hl; slice_bounds_tac).
      f_equal; f_equal; lia.
    + rewrite app_nth1 by (rewrite length_app; lia).
      rewrite app_nth2 by lia. rewrite L1.
      rewrite (nth_zip_with _ _ _ d d) by (rewrite take_length, Hl; norm_len; lia).
      rewrite (@nth_take _ (from 2) line 2 (n - 2)),
        (@nth_take _ (upto (-2)) line 0 (n - 2));
        try lia; try (rewrite Hl; slice_bounds_tac).
      f_equal; f_equal; lia.
Qed.

Lemma slice4_height img s :
  slice4 img full s full full = map (take s) img.
Proof.
  unfold slice4. rewrite take_full. apply map_ext. intros smp.
  rewrite <- (map_id (take s smp)) at 2. apply map_ext. intros row.
  rewrite take_full. apply map_take_full.
Qed.

(** The concatenated field of the width-axis helpers, as a map over rows. *)
Lemma width_stencil_rows op img :
  cat Axis2
    (cat Axis2
       (zip4 op (slice4 img full full (sl 1 2) full)
                (slice4 img full full (sl 0 1) full))
       (zip4 op (slice4 img full full (from 2) full)
                (slice4 img full full (upto (-2)) full)))
    (zip4 op (slice4 img full full (from (-1)) full)
             (slice4 img full full (sl (-2) (-1)) full))
  = map (map (diff_line (zip_with op))) img.
Proof.
  rewrite !slice4_width. unfold cat, zip4.
  rewrite !zip_with_map_same. apply map_ext. intros smp.
  rewrite !zip_with_map_same. reflexivity.
Qed.

(** The concatenated field of the height-axis helpers, as a map over
    samples. *)
Lemma height_stencil_samples op img :
  cat Axis1
    (cat Axis1
       (zip4 op (slice4 img full (sl 1 2) full full)
                (slice4 img full (sl 0 1) full full))
       (zip4 op (slice4 img full (from 2) full full)
                (slice4 img full (upto (-2)) full full)))
    (zip4 op (slice4 img full (from (-1)) full full)
             (slice4 img full (sl (-2) (-1)) full full))
  = map (diff_line (zip_with (zip_with op))) img.
Proof.
  rewrite !slice4_height. unfold cat, zip4.
  rewrite !zip_with_map_same. reflexivity.
Qed.

Lemma at4_width_stencil op b h w c img i j k l :
  has_shape b h w c img -> (2 <= w)%nat ->
  (i < b)%nat -> (j < h)%nat -> (k < w)%nat -> (l < c)%nat ->
  at4 (map (map (diff_line (zip_with op))) img) i j k l =
  op (at4 img i j (Nat.min (k + 1) (w - 1)) l) (at4 img i j (k - 1) l).
Proof.
  intros H Hw Hi Hj Hk Hl. unfold at4, has_shape in *.
  pose proof (@all_len_nth _ _ _ _ i [] H Hi) as Hs.
  pose proof (@all_len_nth _ _ _ _ j [] Hs Hj) as Hr.
  assert (Hp1 : length (nth (Nat.min (k + 1) (w - 1)) (nth j (nth i img []) []) []) = c).
  { apply (@all_len_nth _ _ _ _ _ [] Hr). lia. }
  assert (Hp2 : length (nth (k - 1) (nth j (nth i img []) []) []) = c).
  { apply (@all_len_nth _ _ _ _ _ [] Hr). lia. }
  destruct H as [Hb _], Hs as [Hh _]. destruct Hr as [Hwr _].
  rewrite (nth_map_dflt _ _ []) by lia.
  rewrite (nth_map_dflt _ _ []) by lia.
  rewrite (diff_line_nth _ _ [] Hwr Hw Hk).
  apply nth_zip_with; lia.
Qed.

Lemma at4_height_stencil op b h w c img i j k l :
  has_shape b h w c img -> (2 <= h)%nat ->
  (i < b)%nat -> (j < h)%nat -> (k < w)%nat -> (l < c)%nat ->
  at4 (map (diff_line (zip_with (zip_with op))) img) i j k l =
  op (at4 img i (Nat.min (j + 1) (h - 1)) k l) (at4 img i (j - 1) k l).
Proof.
  intros H Hh Hi Hj Hk Hl. unfold at4, has_shape in *.
  pose proof (@all_len_nth _ _ _ _ i [] H Hi) as Hs.
  assert (Hr1 : all_len (fun p : list R => length p = c) w
                  (nth (Nat.min (j + 1) (h - 1)) (nth i img []) [])).
  { apply (@all_len_nth _ _ _ _ _ [] Hs). lia. }
  assert (Hr2 : all_len (fun p : list R => length p = c) w
                  (nth (j - 1) (nth i img []) [])).
  { apply (@all_len_nth _ _ _ _ _ [] Hs). lia. }
  pose proof (@all_len_nth _ _ _ _ k [] Hr1 Hk) as Hp1.
  pose proof (@all_len_nth _ _ _ _ k [] Hr2 Hk) as Hp2.
  cbv beta in Hp1, Hp2.
  destruct H as [Hb _]. destruct Hs as [Hhs _].
  destruct Hr1 as [Hw1 _], Hr2 as [Hw2 _].
  rewrite (nth_map_dflt _ _ []) by lia.
  rewrite (diff_line_nth _ _ [] Hhs Hh Hj).
  rewrite (nth_zip_with _ _ _ [] []) by lia.
  apply nth_zip_with; lia.
Qed.

Lemma _diff_x_field b h w c img :
  has_shape b h w c img -> (2 <= w)%nat ->
  _diff_x img = Ok (tmap (fun x => x * 0.5)
                      (map (map (diff_line (zip_with Rminus))) img)) /\
  has_shape b h w c (map (map (diff_line (zip_with Rminus))) img).
Proof.
  intros H Hw. unfold _diff_x.
  do 3 step_slices H. step_concat.
  rewrite width_stencil_rows in *. split; [reflexivity |].
  eapply has_shape_eq; [eassumption | ..]; lia.
Qed.

Lemma _diff_y_field b h w c img :
  has_shape b h w c img -> (2 <= h)%nat ->
  _diff_y img = Ok (tmap (fun x => x * 0.5)
                      (map (diff_line (zip_with (zip_with Rminus))) img)) /\
  has_shape b h w c (map (diff_line (zip_with (zip_with Rminus))) img).
Proof.
  intros H Hh. unfold _diff_y.
  do 3 step_slices H. step_concat.
  rewrite height_stencil_samples in *. split; [reflexivity |].
  eapply has_shape_eq; [eassumption | ..]; lia.
Qed.

Lemma _diff_xx_field b h w c img :
  has_shape b h w c img -> (2 <= w)%nat ->
  _diff_xx img = Ok (zip4 Rminus (map (map (diff_line (zip_with Rplus))) img)
                                 (tmap (fun x => 2.0 * x) img)) /\
  has_shape b h w c (map (map (diff_line (zip_with Rplus))) img).
Proof.
  intros H Hw. unfold _diff_xx.
  do 3 step_slices H. step_concat.
  rewrite width_stencil_rows in *.
  assert (S' : has_shape b h w c (map (map (diff_line (zip_with Rplus))) img)).
  { eapply has_shape_eq; [eassumption | ..]; lia. }
  split; [| exact S'].
  apply (tbin_ok Rminus S' (tmap_shape (fun x => 2.0 * x) H)).
Qed.

Lemma _diff_yy_field b h w c img :
  has_shape b h w c img -> (2 <= h)%nat ->
  _diff_yy img = Ok (zip4 Rminus (map (diff_line (zip_with (zip_with Rplus))) img)
                                 (tmap (fun x => 2.0 * x) img)) /\
  has_shape b h w c (map (diff_line (zip_with (zip_with Rplus))) img).
Proof.
  intros H Hh. unfold _diff_yy.
  do 3 step_slices H. step_concat.
  rewrite height_stencil_samples in *.
  assert (S' : has_shape b h w c (map (diff_line (zip_with (zip_with Rplus))) img)).
  { eapply has_shape_eq; [eassumption | ..]; lia. }
  split; [| exact S'].
  apply (tbin_ok Rminus S' (tmap_shape (fun x => 2.0 * x) H)).
Qed.

Lemma _diff_x_entries b h w c img :
  has_shape b h w c img -> (2 <= w)%nat ->
  exists out,
    _diff_x img = Ok out /\ has_shape b h w c out /\
    forall i j k l, (i < b)%nat -> (j < h)%nat -> (k < w)%nat -> (l < c)%nat ->
      at4 out i j k l =
      (at4 img i j (Nat.min (k + 1) (w - 1)) l - at4 img i j (k - 1) l) * 0.5.
Proof.
  intros H Hw. destruct (_diff_x_field H Hw) as [E S].
  eexists. split; [exact E |]. split; [now apply tmap_shape |].
  intros i j k l Hi Hj Hk Hl.
  rewrite (at4_tmap _ S) by assumption.
  now rewrite (at4_width_stencil Rminus H Hw).
Qed.

Lemma _diff_y_entries b h w c img :
  has_shape b h w c img -> (2 <= h)%nat ->
  exists out,
    _diff_y img = Ok out /\ has_shape b h w c out /\
    forall i j k l, (i < b)%nat -> (j < h)%nat -> (k < w)%nat -> (l < c)%nat ->
      at4 out i j k l =
      (at4 img i (Nat.min (j + 1) (h - 1)) k l - at4 img i (j - 1) k l) * 0.5.
Proof.
  intros H Hh. destruct (_diff_y_field H Hh) as [E S].
  eexists. split; [exact E |]. split; [now apply tmap_shape |].
  intros i j k l Hi Hj Hk Hl.
  rewrite (at4_tmap _ S) by assumption.
  now rewrite (at4_height_stencil Rminus H Hh).
Qed.

Lemma _diff_xx_entries b h w c img :
  has_shape b h w c img -> (2 <= w)%nat ->
  exists out,
    _diff_xx img = Ok out /\ has_shape b h w c out /\
    forall i j k l, (i < b)%nat -> (j < h)%nat -> (k < w)%nat -> (l < c)%nat ->
      at4 out i j k l =
      at4 img i j (Nat.min (k + 1) (w - 1)) l + at4 img i j (k - 1) l
      - 2.0 * at4 img i j k l.
Proof.
  intros H Hw. destruct (_diff_xx_field H Hw) as [E S].
  pose proof (tmap_shape (fun x => 2.0 * x) H) as S2.
  eexists. split; [exact E |]. split; [now apply zip4_shape |].
  intros i j k l Hi Hj Hk Hl.
  rewrite (at4_zip4 _ S S2) by assumption.
  rewrite (at4_tmap _ H) by assumption.
  now rewrite (at4_width_stencil Rplus H Hw).
Qed.

Lemma _diff_yy_entries b h w c img :
  has_shape b h w c img -> (2 <= h)%nat ->
  exists out,
    _diff_yy img = Ok out /\ has_shape b h w c out /\
    forall i j k l, (i < b)%nat -> (j < h)%nat -> (k < w)%nat -> (l < c)%nat ->
      at4 out i j k l =
      at4 img i (Nat.min (j + 1) (h - 1)) k l + at4 img i (j - 1) k l
      - 2.0 * at4 img i j k l.
Proof.
  intros H Hh. destruct (_diff_yy_field H Hh) as [E S].
  pose proof (tmap_shape (fun x => 2.0 * x) H) as S2.
  eexists. split; [exact E |]. split; [now apply zip4_shape |].
  intros i j k l Hi Hj Hk Hl.
  rewrite (at4_zip4 _ S S2) by assumption.
  rewrite (at4_tmap _ H) by assumption.
  now rewrite (at4_height_stencil Rplus H Hh).
Qed.

(** X1.  On a rectangular input of height at least 2, [_diff_y] returns a
    field of the shape of its input; its entry at row [j] is 0.5 times the
    difference between the next and the previous row, both clamped to the
    image. *)
Theorem X1_diff_y_entries (b h w c : nat) (img : tensor4) :
  has_shape b h w c img -> (2 <= h)%nat ->
  exists out,
    _diff_y img = Ok out /\ has_shape b h w c out /\
    forall i j k l, (i < b)%nat -> (j < h)%nat -> (k < w)%nat -> (l < c)%nat ->
      at4 out i j k l =
      (at4 img i (Nat.min (j + 1) (h - 1)) k l - at4 img i (j - 1) k l) * 0.5.
Proof. apply _diff_y_entries. Qed.

Lemma X1_diff_y_entries_witness :
  exists out,
    _diff_y img_2x2 = Ok out /\ has_shape 1 2 2 1 out /\
    forall i j k l, (i < 1)%nat -> (j < 2)%nat -> (k < 2)%nat -> (l < 1)%nat ->
      at4 out i j k l =
      (at4 img_2x2 i (Nat.min (j + 1) (2 - 1)) k l - at4 img_2x2 i (j - 1) k l) * 0.5.
Proof. exact (@X1_diff_y_entries 1 2 2 1 img_2x2 img_2x2_shape (le_n 2)). Defined.

(** X2.  On a rectangular input of width at least 2, [_diff_xx] returns a
    field of the shape of its input; its entry at column [k] is the sum of
    the next and the previous column, both clamped to the row, minus twice
    the entry itself.  In the first and the last column this is the
    difference with the single neighbour, not a second difference. *)
Theorem X2_diff_xx_entries (b h w c : nat) (img : tensor4) :
  has_shape b h w c img -> (2 <= w)%nat ->
  exists out,
    _diff_xx img = Ok out /\ has_shape b h w c out /\
    (forall i j k l, (i < b)%nat -> (j < h)%nat -> (k < w)%nat -> (l < c)%nat ->
       at4 out i j k l =
       at4 img i j (Nat.min (k + 1) (w - 1)) l + at4 img i j (k - 1) l
       - 2.0 * at4 img i j k l) /\
    (forall i j l, (i < b)%nat -> (j < h)%nat -> (l < c)%nat ->
       at4 out i j 0 l = at4 img i j 1 l - at4 img i j 0 l /\
       at4 out i j (w - 1) l = at4 img i j (w - 2) l - at4 img i j (w - 1) l).
Proof.
  intros H Hw. destruct (_diff_xx_entries H Hw) as (out & E & S & Hall).
  exists out. split; [exact E |]. split; [exact S |]. split; [exact Hall |].
  intros i j l Hi Hj Hl. split.
  - rewrite Hall by lia.
    replace (Nat.min (0 + 1) (w - 1)) with 1%nat by lia.
    replace (0 - 1)%nat with 0%nat by lia. lra.
  - rewrite Hall by lia.
    replace (Nat.min (w - 1 + 1) (w - 1)) with (w - 1)%nat by lia.
    replace (w - 1 - 1)%nat with (w - 2)%nat by lia. lra.
Qed.

Lemma X2_diff_xx_entries_witness :
  exists out, _diff_xx row_0246 = Ok out /\ has_shape 1 1 4 1 out.
Proof.
  destruct (@X2_diff_xx_entries 1 1 4 1 row_0246 row_0246_shape)
    as (out & E & S & _); [lia |].
  exists out. split; assumption.
Defined.

(** X3.  On a rectangular input of height at least 2, [_diff_yy] returns a
    field of the shape of its input; its entry at row [j] is the sum of the
    next and the previous row, both clamped to the image, minus twice the
    entry itself; in the first and the last row this is the difference with
    the single neighbour. *)
Theorem X3_diff_yy_entries (b h w c : nat) (img : tensor4) :
  has_shape b h w c img -> (2 <= h)%nat ->
  exists out,
    _diff_yy img = Ok out /\ has_shape b h w c out /\
    (forall i j k l, (i < b)%nat -> (j < h)%nat -> (k < w)%nat -> (l < c)%nat ->
       at4 out i j k l =
       at4 img i (Nat.min (j + 1) (h - 1)) k l + at4 img i (j - 1) k l
       - 2.0 * at4 img i j k l) /\
    (forall i k l, (i < b)%nat -> (k < w)%nat -> (l < c)%nat ->
       at4 out i 0 k l = at4 img i 1 k l - at4 img i 0 k l /\
       at4 out i (h - 1) k l = at4 img i (h - 2) k l - at4 img i (h - 1) k l).
Proof.
  intros H Hh. destruct (_diff_yy_entries H Hh) as (out & E & S & Hall).
  exists out. split; [exact E |]. split; [exact S |]. split; [exact Hall |].
  intros i k l Hi Hk Hl. split.
  - rewrite Hall by lia.
    replace (Nat.min (0 + 1) (h - 1)) with 1%nat by lia.
    replace (0 - 1)%nat with 0%nat by lia. lra.
  - rewrite Hall by lia.
    replace (Nat.min (h - 1 + 1) (h - 1)) with (h - 1)%nat by lia.
    replace (h - 1 - 1)%nat with (h - 2)%nat by lia. lra.
Qed.

Lemma X3_diff_yy_entries_witness :
  exists out, _diff_yy img_2x2 = Ok out /\ has_shape 1 2 2 1 out.
Proof.
  destruct (@X3_diff_yy_entries 1 2 2 1 img_2x2 img_2x2_shape (le_n 2))
    as (out & E & S & _).
  exists out. split; assumption.
Defined.

(** X4.  Whatever its input, rectangular or not, a tensor returned by
    [_diff_xy] has no non-zero entry. *)
Theorem X4_diff_xy_never_nonzero (img out : tensor4) :
  _diff_xy img = Ok out -> all_entries (eq 0) out.
Proof. apply _diff_xy_entries_zero. Qed.

Lemma X4_diff_xy_never_nonzero_witness :
  all_entries (eq 0) [[[[0]; [0]]; [[0]; [0]]]].
Proof.
  apply (@X4_diff_xy_never_nonzero img_2x2).
  exact (_diff_xy_zero img_2x2_shape (le_n 2) (le_n 2)).
Defined.

(* ================================================================== *)
(** * Arrays of one shape with the same entries *)

Lemma has_shape_ext b h w c t1 t2 :
  has_shape b h w c t1 -> has_shape b h w c t2 ->
  (forall i j k l, (i < b)%nat -> (j < h)%nat -> (k < w)%nat -> (l < c)%nat ->
     at4 t1 i j k l = at4 t2 i j k l) ->
  t1 = t2.
Proof.
  intros H1 H2 Hat. unfold at4, has_shape in *.
  apply (nth_ext _ _ [] []); [destruct H1, H2; congruence |].
  intros i Hi. assert (Hi' : (i < b)%nat) by (destruct H1; lia).
  pose proof (@all_len_nth _ _ _ _ i [] H1 Hi') as Hs1.
  pose proof (@all_len_nth _ _ _ _ i [] H2 Hi') as Hs2.
  apply (nth_ext _ _ [] []); [destruct Hs1, Hs2; congruence |].
  intros j Hj. assert (Hj' : (j < h)%nat) by (destruct Hs1; lia).
  pose proof (@all_len_nth _ _ _ _ j [] Hs1 Hj') as Hr1.
  pose proof (@all_len_nth _ _ _ _ j [] Hs2 Hj') as Hr2.
  apply (nth_ext _ _ [] []); [destruct Hr1, Hr2; congruence |].
  intros k Hk. assert (Hk' : (k < w)%nat) by (destruct Hr1; lia).
  pose proof (@all_len_nth _ _ _ _ k [] Hr1 Hk') as Hp1.
  pose proof (@all_len_nth _ _ _ _ k [] Hr2 Hk') as Hp2.
  cbv beta in Hp1, Hp2.
  apply (nth_ext _ _ 0 0); [congruence |].
  intros l Hl. apply Hat; lia.
Qed.

(* ================================================================== *)
(** * Element-wise operations: exchanging and transforming operands *)

Lemma mapM_ext {A B} (f g : A -> result B) l :
  (forall x, f x = g x) -> mapM f l = mapM g l.
Proof. intros H. induction l; cbn; [reflexivity |]. now rewrite H, IHl. Qed.

Lemma zipM_flip {A B C} (f : A -> B -> result C) (f' : B -> A -> result C) xs ys :
  (forall x y, f' y x = f x y) -> zipM f' ys xs = zipM f xs ys.
Proof.
  intros H. revert ys. induction xs as [|x xs IH]; intros [|y ys]; cbn;
    try reflexivity.
  now rewrite H, IH.
Qed.

Lemma bcast_flip {A B C} (f : A -> B -> result C) (f' : B -> A -> result C) xs ys :
  (forall x y, f' y x = f x y) -> bcast f' ys xs = bcast f xs ys.
Proof.
  intros H. unfold bcast. rewrite (Nat.eqb_sym (length ys) (length xs)).
  destruct (Nat.eqb (length xs) (length ys)) eqn:E.
  - now apply zipM_flip.
  - assert (Hne : length xs <> length ys) by now apply Nat.eqb_neq.
    destruct xs as [|x [|x' xs]], ys as [|y [|y' ys]]; cbn in Hne;
      try congruence; try reflexivity;
      apply mapM_ext; intros z; apply H.
Qed.

Lemma mapM_rmap {A B C} (f : A -> result B) (f' : A -> result C) (g : B -> C) l :
  (forall x, f' x = rmap g (f x)) -> mapM f' l = rmap (map g) (mapM f l).
Proof.
  intros H. induction l as [|x l IH]; cbn; [reflexivity |].
  rewrite H, IH. unfold rmap.
  destruct (f x); cbn; [| reflexivity].
  destruct (mapM f l); reflexivity.
Qed.

Lemma zipM_rmap {A B C D} (f : A -> B -> result C) (f' : A -> B -> result D)
  (g : C -> D) xs ys :
  (forall x y, f' x y = rmap g (f x y)) ->
  zipM f' xs ys = rmap (map g) (zipM f xs ys).
Proof.
  intros H. revert ys. induction xs as [|x xs IH]; intros [|y ys]; cbn;
    try reflexivity.
  rewrite H, IH. unfold rmap.
  destruct (f x y); cbn; [| reflexivity].
  destruct (zipM f xs ys); reflexivity.
Qed.

Lemma bcast_rmap {A B C D} (f : A -> B -> result C) (f' : A -> B -> result D)
  (g : C -> D) xs ys :
  (forall x y, f' x y = rmap g (f x y)) ->
  bcast f' xs ys = rmap (map g) (bcast f xs ys).
Proof.
  intros H. unfold bcast.
  destruct (Nat.eqb (length xs) (length ys)).
  - now apply zipM_rmap.
  - destruct xs as [|x [|x' xs]].
    + destruct ys as [|y [|y' ys]]; reflexivity.
    + apply mapM_rmap. intros z. apply H.
    + destruct ys as [|y [|y' ys]]; try reflexivity.
      apply mapM_rmap. intros z. apply H.
Qed.

Lemma mapM_map {A A' B} (f : A' -> result B) (u : A -> A') l :
  mapM f (map u l) = mapM (fun x => f (u x)) l.
Proof. induction l; cbn; [reflexivity |]. now rewrite IHl. Qed.

Lemma zipM_map {A A' B B' C} (f : A' -> B' -> result C) (u : A -> A') (v : B -> B')
  xs ys :
  zipM f (map u xs) (map v ys) = zipM (fun x y => f (u x) (v y)) xs ys.
Proof.
  revert ys. induction xs as [|x xs IH]; intros [|y ys]; cbn; try reflexivity.
  now rewrite IH.
Qed.

Lemma bcast_map {A A' B B' C} (f : A' -> B' -> result C) (u : A -> A') (v : B -> B')
  xs ys :
  bcast f (map u xs) (map v ys) = bcast (fun x y => f (u x) (v y)) xs ys.
Proof.
  unfold bcast. rewrite !length_map.
  destruct (Nat.eqb (length xs) (length ys)).
  - apply zipM_map.
  - destruct xs as [|x [|x' xs]]; cbn [map].
    + destruct ys as [|y [|y' ys]]; reflexivity.
    + apply mapM_map.
    + destruct ys as [|y [|y' ys]]; cbn [map]; try reflexivity.
      apply (mapM_map (fun z => f z (v y)) u (x :: x' :: xs)).
Qed.

Lemma zipM_ext {A B C} (f g : A -> B -> result C) xs ys :
  (forall x y, f x y = g x y) -> zipM f xs ys = zipM g xs ys.
Proof.
  intros H. revert ys. induction xs as [|x xs IH]; intros [|y ys]; cbn;
    try reflexivity.
  now rewrite H, IH.
Qed.

Lemma bcast_ext {A B C} (f g : A -> B -> result C) xs ys :
  (forall x y, f x y = g x y) -> bcast f xs ys = bcast g xs ys.
Proof.
  intros H. unfold bcast.
  destruct (Nat.eqb (length xs) (length ys)).
  - now apply zipM_ext.
  - destruct xs as [|x [|x' xs]].
    + destruct ys as [|y [|y' ys]]; reflexivity.
    + apply mapM_ext. intros z. apply H.
    + destruct ys as [|y [|y' ys]]; try reflexivity.
      apply mapM_ext. intros z. apply H.
Qed.

Lemma tbin_flip op a b : tbin (fun x y => op y x) b a = tbin op a b.
Proof.
  unfold tbin.
  apply bcast_flip; intros s1 s2.
  apply bcast_flip; intros r1 r2.
  apply bcast_flip; intros p1 p2.
  apply bcast_flip; intros x y. reflexivity.
Qed.

Lemma tbin_ext op op' a b :
  (forall x y, op x y = op' x y) -> tbin op a b = tbin op' a b.
Proof.
  intros H. unfold tbin.
  apply bcast_ext; intros s1 s2.
  apply bcast_ext; intros r1 r2.
  apply bcast_ext; intros p1 p2.
  apply bcast_ext; intros x y. now rewrite H.
Qed.

Lemma tbin_post op g a b :
  tbin (fun x y => g (op x y)) a b = rmap (tmap g) (tbin op a b).
Proof.
  unfold tbin, tmap.
  apply bcast_rmap; intros s1 s2.
  apply bcast_rmap; intros r1 r2.
  apply bcast_rmap; intros p1 p2.
  apply bcast_rmap; intros x y. reflexivity.
Qed.

Lemma tbin_pre op u v a b :
  tbin op (tmap u a) (tmap v b) = tbin (fun x y => op (u x) (v y)) a b.
Proof.
  unfold tbin, tmap.
  rewrite bcast_map. apply bcast_ext; intros s1 s2.
  rewrite bcast_map. apply bcast_ext; intros r1 r2.
  rewrite bcast_map. apply bcast_ext; intros p1 p2.
  rewrite bcast_map. reflexivity.
Qed.

Lemma tbin_minus_swap a b :
  tbin Rminus b a = rmap (tmap Ropp) (tbin Rminus a b).
Proof.
  rewrite <- tbin_post, <- (tbin_flip Rminus b a).
  apply tbin_ext. intros x y. ring.
Qed.

Lemma call_elem_opp alpha_ beta_ x :
  call_elem alpha_ beta_ (- x) = call_elem alpha_ beta_ x.
Proof.
  unfold call_elem. rewrite !K_pow_2.
  replace (- x / beta_ * (- x / beta_)) with (x / beta_ * (x / beta_))
    by (unfold Rdiv; ring).
  reflexivity.
Qed.

Lemma GeneralizedLoss_call_elem self y_true y_pred :
  GeneralizedLoss_call self y_true y_pred =
  rmap (fun diff => tmap3 (fun x => x * self.(beta))
                      (K_mean_last (tmap (call_elem self.(alpha) self.(beta)) diff)))
       (tbin Rminus y_pred y_true).
Proof.
  unfold GeneralizedLoss_call, rmap.
  destruct (tbin Rminus y_pred y_true); cbn [bind]; [| reflexivity].
  now rewrite !tmap_tmap.
Qed.

(** X6.  [GeneralizedLoss.call] is symmetric in its two arguments, for all
    inputs and parameters: the result, or the error, is the same. *)
Theorem X6_generalized_symmetric (self : GeneralizedLoss) (a b : tensor4) :
  GeneralizedLoss_call self a b = GeneralizedLoss_call self b a.
Proof.
  rewrite !GeneralizedLoss_call_elem.
  rewrite (tbin_minus_swap b a). unfold rmap.
  destruct (tbin Rminus b a) as [d | e]; cbn [bind]; [| reflexivity].
  rewrite tmap_tmap.
  rewrite (tmap_ext _ (call_elem self.(alpha) self.(beta)) d
             (call_elem_opp self.(alpha) self.(beta))).
  reflexivity.
Qed.

(** X7.  [LInfNorm.call] is symmetric in its two arguments, for all
    inputs. *)
Theorem X7_linf_symmetric (a b : tensor4) :
  LInfNorm_call a b = LInfNorm_call b a.
Proof.
  unfold LInfNorm_call. rewrite (tbin_minus_swap b a). unfold rmap.
  destruct (tbin Rminus b a) as [d | e]; cbn [bind]; [| reflexivity].
  rewrite tmap_tmap.
  now rewrite (tmap_ext _ Rabs d Rabs_Ropp).
Qed.

(** X8.  When the edge maps of both images are computed, [GMSDLoss.call]
    is symmetric in its two arguments. *)
Theorem X8_gmsd_symmetric {TF : TensorFlow} (a b ea eb : tensor4) :
  _scharr_edges a true = Ok ea -> _scharr_edges b true = Ok eb ->
  GMSDLoss_call a b = GMSDLoss_call b a.
Proof.
  intros Ha Hb. unfold GMSDLoss_call. rewrite Ha, Hb, !bind_Ok.
  assert (Hu : tbin Rmult (tmap (fun x => 2.0 * x) ea) eb
               = tbin Rmult (tmap (fun x => 2.0 * x) eb) ea).
  { rewrite <- (tmap_id eb) at 1. rewrite <- (tmap_id ea) at 2.
    rewrite !tbin_pre.
    rewrite <- (tbin_flip (fun x y => 2.0 * x * y) eb ea).
    apply tbin_ext. intros x y. ring. }
  assert (Hl : tbin Rplus (tmap K_square ea) (tmap K_square eb)
               = tbin Rplus (tmap K_square eb) (tmap K_square ea)).
  { rewrite !tbin_pre.
    rewrite <- (tbin_flip (fun x y => K_square x + K_square y) eb ea).
    apply tbin_ext. intros x y. ring. }
  rewrite Hu, Hl. reflexivity.
Qed.

Lemma scharr_instance (y : tensor4) :
  _scharr_edges (TF := TF_instance) y true = Ok y.
Proof. reflexivity. Defined.

Lemma X8_gmsd_symmetric_witness :
  GMSDLoss_call (TF := TF_instance) img_2x2 img_2x2_pred
  = GMSDLoss_call (TF := TF_instance) img_2x2_pred img_2x2.
Proof.
  exact (@X8_gmsd_symmetric TF_instance img_2x2 img_2x2_pred img_2x2 img_2x2_pred
           (scharr_instance img_2x2) (scharr_instance img_2x2_pred)).
Defined.

(* ================================================================== *)
(** * GeneralizedLoss: sign, zeros and shape errors *)

Lemma loss_elem_base alpha_ beta_ t p :
  alpha_ <> 2 ->
  1 <= (p - t) / beta_ * ((p - t) / beta_) / Rabs (2 - alpha_) + 1.
Proof.
  intros Ha.
  assert (Hpos : 0 < Rabs (2 - alpha_)) by (apply Rabs_pos_lt; lra).
  pose proof (Rle_0_sqr ((p - t) / beta_)) as Hsq. unfold Rsqr in Hsq.
  assert (0 <= (p - t) / beta_ * ((p - t) / beta_) / Rabs (2 - alpha_)).
  { apply Rmult_le_pos; [assumption |]. left. now apply Rinv_0_lt_compat. }
  lra.
Qed.

Lemma loss_elem_nonneg alpha_ beta_ t p :
  0 < alpha_ -> alpha_ <> 2 -> 0 <= loss_elem alpha_ beta_ t p.
Proof.
  intros Ha0 Ha2. unfold loss_elem. cbv zeta.
  pose proof (loss_elem_base beta_ t p Ha2) as Hb.
  assert (Hpos : 0 < Rabs (2 - alpha_)) by (apply Rabs_pos_lt; lra).
  assert (Hc : 0 < Rabs (2 - alpha_) / alpha_) by now apply Rdiv_lt_0_compat.
  assert (Hp : 1 <= Rpower ((p - t) / beta_ * ((p - t) / beta_) / Rabs (2 - alpha_) + 1)
                      (alpha_ / 2)).
  { rewrite <- (Rpower_O ((p - t) / beta_ * ((p - t) / beta_) / Rabs (2 - alpha_) + 1))
      at 1 by lra.
    apply Rle_Rpower; lra. }
  apply Rmult_le_pos; lra.
Qed.

Lemma loss_elem_same alpha_ beta_ t : loss_elem alpha_ beta_ t t = 0.
Proof.
  unfold loss_elem. cbv zeta.
  replace ((t - t) / beta_ * ((t - t) / beta_) / Rabs (2 - alpha_) + 1) with 1
    by (unfold Rdiv; ring).
  unfold Rpower. rewrite ln_1, Rmult_0_r, exp_0. ring.
Qed.

Lemma map_const_seq {A} (x : A) n :
  map (fun _ => x) (seq 0 n) = repeat x n.
Proof.
  generalize 0%nat. induction n as [|n IH]; intros s; cbn; [reflexivity |].
  now rewrite IH.
Qed.

Lemma sum_nonneg (l : list R) : Forall (fun x => 0 <= x) l -> 0 <= sum l.
Proof. induction 1; cbn; lra. Qed.

Lemma mean_nonneg (l : list R) : Forall (fun x => 0 <= x) l -> 0 <= mean l.
Proof.
  intros H. unfold mean. destruct l as [|x l].
  - cbn. unfold Rdiv. rewrite Rmult_0_l. lra.
  - apply Rmult_le_pos; [now apply sum_nonneg |].
    left. apply Rinv_0_lt_compat. apply lt_0_INR. cbn. lia.
Qed.

(** X9.  With alpha > 0 other than 2, beta > 0 and at least one channel,
    every entry of the result of [GeneralizedLoss.call] on same-shaped
    inputs is non-negative, and it is 0 at every pixel where [y_true] and
    [y_pred] agree on every channel. *)
Theorem X9_generalized_nonneg_and_zero (self : GeneralizedLoss)
  (b h w c : nat) (y_true y_pred : tensor4) :
  has_shape b h w c y_true -> has_shape b h w c y_pred ->
  0 < self.(alpha) -> self.(alpha) <> 2 -> 0 < self.(beta) -> (0 < c)%nat ->
  exists out,
    GeneralizedLoss_call self y_true y_pred = Ok out /\
    has_shape3 b h w out /\
    forall i j k, (i < b)%nat -> (j < h)%nat -> (k < w)%nat ->
      0 <= at3 out i j k /\
      ((forall l, (l < c)%nat -> at4 y_pred i j k l = at4 y_true i j k l) ->
       at3 out i j k = 0).
Proof.
  intros Ht Hp Ha0 Ha2 Hb Hc.
  destruct (GeneralizedLoss_call_entries self Ht Hp Ha2) as (out & E & S & Hat).
  exists out. split; [exact E |]. split; [exact S |].
  intros i j k Hi Hj Hk. rewrite (Hat i j k Hi Hj Hk).
  set (f := fun l => loss_elem (alpha self) (beta self)
                       (at4 y_true i j k l) (at4 y_pred i j k l)).
  assert (Hnn : Forall (fun x => 0 <= x) (map f (seq 0 c))).
  { apply Forall_map, Forall_forall. intros l _. now apply loss_elem_nonneg. }
  split.
  - apply Rmult_le_pos; [lra | now apply mean_nonneg].
  - intros Heq.
    assert (Hall : map f (seq 0 c) = repeat 0 c).
    { rewrite <- (map_const_seq 0 c). apply map_ext_in. intros l Hl.
      apply in_seq in Hl. unfold f. rewrite (Heq l) by lia.
      apply loss_elem_same. }
    rewrite Hall, mean_repeat_0. ring.
Qed.

Lemma X9_generalized_nonneg_and_zero_witness :
  exists out,
    GeneralizedLoss_call {| alpha := 4; beta := 1 |} two_pixels_true two_pixels_pred
    = Ok out /\
    has_shape3 1 2 1 out /\
    forall i j k, (i < 1)%nat -> (j < 2)%nat -> (k < 1)%nat ->
      0 <= at3 out i j k /\
      ((forall l, (l < 1)%nat ->
          at4 two_pixels_pred i j k l = at4 two_pixels_true i j k l) ->
       at3 out i j k = 0).
Proof.
  apply (@X9_generalized_nonneg_and_zero {| alpha := 4; beta := 1 |} 1 2 1 1
           two_pixels_true two_pixels_pred
           two_pixels_true_shape two_pixels_pred_shape); cbn; try lra; lia.
Defined.

Lemma bcast_length_err {A B C} (f : A -> B -> result C) xs ys :
  length xs <> length ys -> length xs <> 1%nat -> length ys <> 1%nat ->
  bcast f xs ys = Err IncompatibleShapes.
Proof.
  intros Hne Hx Hy. unfold bcast.
  destruct (Nat.eqb_spec (length xs) (length ys)) as [Heq | _]; [congruence |].
  destruct xs as [|x [|x' xs]], ys as [|y [|y' ys]]; cbn in *;
    try congruence; reflexivity.
Qed.

Lemma bcast_head_err {A B C} (f : A -> B -> result C) x xs y ys e :
  length xs = length ys -> f x y = Err e ->
  bcast f (x :: xs) (y :: ys) = Err e.
Proof.
  intros Hl Hf. unfold bcast. cbn [length]. rewrite Hl, Nat.eqb_refl.
  cbn [zipM]. now rewrite Hf.
Qed.

Lemma tbin_channel_mismatch op b h w c1 c2 t1 t2 :
  has_shape b h w c1 t1 -> has_shape b h w c2 t2 ->
  (0 < b)%nat -> (0 < h)%nat -> (0 < w)%nat ->
  c1 <> c2 -> c1 <> 1%nat -> c2 <> 1%nat ->
  tbin op t1 t2 = Err IncompatibleShapes.
Proof.
  intros [Hb1 H1] [Hb2 H2] Hb Hh Hw Hc Hc1 Hc2. unfold tbin.
  destruct t1 as [|s1 t1]; [cbn in Hb1; lia |].
  destruct t2 as [|s2 t2]; [cbn in Hb2; lia |].
  apply bcast_head_err; [cbn in Hb1, Hb2; lia |].
  inversion H1 as [|? ? [Hh1 Hs1] _]; subst.
  inversion H2 as [|? ? [Hh2 Hs2] _]; subst.
  destruct s1 as [|r1 s1]; [cbn in Hh; lia |].
  destruct s2 as [|r2 s2]; [cbn in Hh2; lia |].
  apply bcast_head_err; [cbn in Hh2; lia |].
  inversion Hs1 as [|? ? [Hw1 Hr1] _]; subst.
  inversion Hs2 as [|? ? [Hw2 Hr2] _]; subst.
  destruct r1 as [|p1 r1]; [cbn in Hw; lia |].
  destruct r2 as [|p2 r2]; [cbn in Hw2; lia |].
  apply bcast_head_err; [cbn in Hw2; lia |].
  inversion Hr1 as [|? ? Hp1 _]; subst.
  inversion Hr2 as [|? ? Hp2 _]; subst.
  apply bcast_length_err; lia.
Qed.

(** X10.  On images of the same batch, height and width whose channel
    counts differ, neither being 1, [GeneralizedLoss.call] and
    [LInfNorm.call] fail with a shape error: a [y_true] that still carries
    its mask channels is rejected, not truncated. *)
Theorem X10_channel_mismatch_is_an_error (self : GeneralizedLoss)
  (b h w c1 c2 : nat) (y_true y_pred : tensor4) :
  has_shape b h w c1 y_true -> has_shape b h w c2 y_pred ->
  (0 < b)%nat -> (0 < h)%nat -> (0 < w)%nat ->
  c1 <> c2 -> c1 <> 1%nat -> c2 <> 1%nat ->
  GeneralizedLoss_call self y_true y_pred = Err IncompatibleShapes /\
  LInfNorm_call y_true y_pred = Err IncompatibleShapes.
Proof.
  intros Ht Hp Hb Hh Hw Hc Hc1 Hc2. split.
  - unfold GeneralizedLoss_call.
    rewrite (tbin_channel_mismatch Rminus Hp Ht) by auto. reflexivity.
  - unfold LInfNorm_call.
    rewrite (tbin_channel_mismatch Rminus Ht Hp) by auto. reflexivity.
Qed.

Lemma img_3ch_shape : has_shape 1 2 2 3 img_3ch.
Proof. unfold has_shape, all_len, img_3ch. cbn. repeat constructor. Defined.

Lemma X10_channel_mismatch_is_an_error_witness :
  GeneralizedLoss_call {| alpha := 1; beta := 1 |} img_3ch linf_pred
  = Err IncompatibleShapes /\
  LInfNorm_call img_3ch linf_pred = Err IncompatibleShapes.
Proof.
  apply (@X10_channel_mismatch_is_an_error {| alpha := 1; beta := 1 |}
           1 2 2 3 2 img_3ch linf_pred img_3ch_shape linf_pred_shape); lia.
Defined.

(* ================================================================== *)
(** * LInfNorm: what the value bounds *)

Lemma LInfNorm_call_spec (b h w c : nat) (y_true y_pred : tensor4) :
  has_shape b h w c y_true -> has_shape b h w c y_pred ->
  (0 < h)%nat -> (0 < w)%nat ->
  exists (out : tensor3) (M : nat -> nat -> R),
    LInfNorm_call y_true y_pred = Ok out /\
    has_shape3 b 1 1 out /\
    (forall i, (i < b)%nat -> at3 out i 0 0 = mean (map (M i) (seq 0 c))) /\
    (forall i l, (i < b)%nat -> (l < c)%nat ->
       is_max_over (fun j k => Rabs (at4 y_true i j k l - at4 y_pred i j k l))
                   h w (M i l)).
Proof.
  intros Ht Hp Hh Hw.
  pose proof (zip4_shape Rminus Ht Hp) as Hd.
  pose proof (tmap_shape Rabs Hd) as Ha.
  set (D := tmap Rabs (zip4 Rminus y_true y_pred)) in *.
  exists (map (fun smp => [[mean (map (sample_max smp w) (seq 0 c))]]) D).
  exists (fun i => sample_max (nth i D []) w).
  assert (Hmax : K_max_12_keepdims D
                 = map (fun smp => [[map (sample_max smp w) (seq 0 c)]]) D).
  { unfold K_max_12_keepdims. apply map_ext_in. intros smp Hin.
    destruct Ha as [_ Hall]. rewrite Forall_forall in Hall.
    cbv zeta. now rewrite (K_max_12_sample (Hall smp Hin) Hh Hw). }
  split; [| split; [| split]].
  - unfold LInfNorm_call. rewrite (tbin_ok Rminus Ht Hp), bind_Ok.
    fold D. rewrite Hmax. unfold K_mean_last. rewrite map_map. reflexivity.
  - destruct Ha as [Hb _]. split; [now rewrite length_map |].
    apply Forall_map, Forall_forall. intros smp _.
    split; [reflexivity |]. repeat constructor.
  - intros i Hi. unfold at3. destruct Ha as [Hb _].
    rewrite (nth_map_dflt _ _ []) by lia. reflexivity.
  - intros i l Hi Hl.
    pose proof (@all_len_nth _ _ _ _ i [] Ha Hi) as Hs.
    apply (is_max_over_ext (f := fun j k => nth l (nth k (nth j (nth i D []) []) []) 0)).
    + intros j k Hj Hk.
      change (nth l (nth k (nth j (nth i D []) []) []) 0) with (at4 D i j k l).
      unfold D. rewrite (at4_tmap _ Hd) by assumption.
      now rewrite (at4_zip4 _ Ht Hp).
    + apply (sample_max_is_max l Hs Hh Hw).
Qed.

Lemma sum_map_le (f g : nat -> R) (l : list nat) :
  (forall x, In x l -> f x <= g x) -> sum (map f l) <= sum (map g l).
Proof.
  induction l as [|x l IH]; intros H; cbn; [lra |].
  pose proof (H x (or_introl eq_refl)).
  assert (sum (map f l) <= sum (map g l)) by (apply IH; intros; apply H; now right).
  lra.
Qed.

Lemma mean_map_le (f g : nat -> R) (l : list nat) :
  (forall x, In x l -> f x <= g x) -> mean (map f l) <= mean (map g l).
Proof.
  intros H. unfold mean. rewrite !length_map.
  destruct l as [|x l].
  - cbn. lra.
  - apply Rmult_le_compat_r; [| now apply sum_map_le].
    left. apply Rinv_0_lt_compat, lt_0_INR. cbn. lia.
Qed.

(** X11.  On same-shaped images with non-empty spatial axes, the value
    that [LInfNorm.call] returns for a sample is non-negative and is at
    least the mean absolute error over the channels at every pixel of the
    sample. *)
Theorem X11_linf_bounds_every_pixel (b h w c : nat) (y_true y_pred : tensor4) :
  has_shape b h w c y_true -> has_shape b h w c y_pred ->
  (0 < h)%nat -> (0 < w)%nat ->
  exists out,
    LInfNorm_call y_true y_pred = Ok out /\
    forall i j k, (i < b)%nat -> (j < h)%nat -> (k < w)%nat ->
      0 <= at3 out i 0 0 /\
      mean (map (fun l => Rabs (at4 y_true i j k l - at4 y_pred i j k l)) (seq 0 c))
      <= at3 out i 0 0.
Proof.
  intros Ht Hp Hh Hw.
  destruct (LInfNorm_call_spec Ht Hp Hh Hw) as (out & M & E & _ & Hmean & Hmax).
  exists out. split; [exact E |].
  intros i j k Hi Hj Hk. rewrite (Hmean i Hi).
  assert (Hle : mean (map (fun l => Rabs (at4 y_true i j k l - at4 y_pred i j k l))
                          (seq 0 c))
                <= mean (map (M i) (seq 0 c))).
  { apply mean_map_le. intros l Hl. apply in_seq in Hl.
    destruct (Hmax i l Hi) as [Hub _]; [lia |]. now apply Hub. }
  split; [| exact Hle].
  eapply Rle_trans; [| exact Hle].
  apply mean_nonneg, Forall_map, Forall_forall. intros l _. apply Rabs_pos.
Qed.

Lemma X11_linf_bounds_every_pixel_witness :
  exists out,
    LInfNorm_call linf_true linf_pred = Ok out /\
    forall i j k, (i < 1)%nat -> (j < 2)%nat -> (k < 2)%nat ->
      0 <= at3 out i 0 0 /\
      mean (map (fun l => Rabs (at4 linf_true i j k l - at4 linf_pred i j k l))
                (seq 0 2))
      <= at3 out i 0 0.
Proof.
  apply (@X11_linf_bounds_every_pixel 1 2 2 2 linf_true linf_pred
           linf_true_shape linf_pred_shape); lia.
Defined.

(* ================================================================== *)
(** * LossWrapper._apply_mask with a mask channel *)

Lemma mapM_ok {A B} (f : A -> result B) (g : A -> B) l :
  Forall (fun x => f x = Ok (g x)) l -> mapM f l = Ok (map g l).
Proof.
  induction 1 as [|x l Hx _ IH]; cbn; [reflexivity |]. now rewrite Hx, IH.
Qed.

Lemma py_index_ok {A} (k : nat) (l : list A) d :
  (k < length l)%nat -> py_index (Z.of_nat k) l = Ok (nth k l d).
Proof.
  intros Hk. unfold py_index.
  destruct (Z.ltb_spec (Z.of_nat k) 0) as [Hneg | _]; [lia |].
  destruct (Z.leb_spec 0 (Z.of_nat k)) as [_ | Hneg]; [| lia].
  destruct (Z.ltb_spec (Z.of_nat k) (Z.of_nat (length l))) as [_ | Hge]; [| lia].
  cbn [andb]. rewrite Nat2Z.id.
  destruct (nth_error l k) as [x |] eqn:E.
  - now rewrite (nth_error_nth _ _ d E).
  - apply nth_error_None in E. lia.
Qed.

Lemma py_index_out_of_range {A} (i : Z) (l : list A) :
  (Z.of_nat (length l) <= i \/ i < - Z.of_nat (length l))%Z ->
  py_index i l = Err IndexOutOfRange.
Proof.
  intros H. unfold py_index.
  destruct (Z.ltb_spec i 0) as [Hneg | Hpos].
  - destruct (Z.leb_spec 0 (i + Z.of_nat (length l))) as [Hge | _]; [lia |].
    reflexivity.
  - destruct (Z.leb_spec 0 i) as [_ | Hlt]; [| lia].
    destruct (Z.ltb_spec i (Z.of_nat (length l))) as [Hlt | _]; [lia |].
    reflexivity.
Qed.

Lemma index_last_ok b h w c (t : tensor4) (k : nat) :
  has_shape b h w c t -> (k < c)%nat ->
  index_last t (Z.of_nat k) = Ok (map (map (map (fun p => nth k p 0))) t).
Proof.
  intros [_ H] Hk. unfold index_last.
  apply mapM_ok. eapply Forall_impl; [| exact H]. intros s [_ Hs].
  apply mapM_ok. eapply Forall_impl; [| exact Hs]. intros r [_ Hr].
  apply mapM_ok. eapply Forall_impl; [| exact Hr]. intros p Hp.
  cbv beta in Hp. apply py_index_ok. lia.
Qed.

Lemma expand_channel_shape b h w c (t : tensor4) (k : nat) :
  has_shape b h w c t ->
  has_shape b h w 1
    (K_expand_dims_last (map (map (map (fun p => nth k p 0))) t)).
Proof.
  intros H. unfold K_expand_dims_last, has_shape.
  rewrite map_map.
  eapply all_len_map; [| exact H]. intros s Hs. rewrite map_map.
  eapply all_len_map; [| exact Hs]. intros r Hr. rewrite map_map.
  eapply all_len_map; [| exact Hr]. intros p Hp. reflexivity.
Qed.

Lemma mask_shape b h w c (t : tensor4) (k : nat) f :
  has_shape b h w c t ->
  has_shape b h w 1
    (tmap f (K_expand_dims_last (map (map (map (fun p => nth k p 0))) t))).
Proof. intros H. apply tmap_shape. exact (expand_channel_shape k H). Qed.

Lemma at4_mask b h w c (t : tensor4) (m : nat) f i j k :
  has_shape b h w c t -> (i < b)%nat -> (j < h)%nat -> (k < w)%nat ->
  at4 (tmap f (K_expand_dims_last (map (map (map (fun p => nth m p 0))) t))) i j k 0
  = f (at4 t i j k m).
Proof.
  intros H Hi Hj Hk.
  rewrite (at4_tmap _ (expand_channel_shape m H)) by lia.
  f_equal. unfold at4, K_expand_dims_last, has_shape in *.
  pose proof (@all_len_nth _ _ _ _ i [] H Hi) as Hs.
  pose proof (@all_len_nth _ _ _ _ j [] Hs Hj) as Hr.
  destruct H as [Hb _], Hs as [Hh _], Hr as [Hw _].
  rewrite !map_map.
  rewrite (nth_map_dflt _ _ []) by lia. rewrite !map_map.
  rewrite (nth_map_dflt _ _ []) by lia. rewrite !map_map.
  rewrite (nth_map_dflt _ _ []) by lia. reflexivity.
Qed.

Lemma slice4_channel img s :
  slice4 img full full full s = map (map (map (take s))) img.
Proof.
  unfold slice4. rewrite take_full. apply map_ext. intros smp.
  rewrite take_full. apply map_ext. intros row. now rewrite take_full.
Qed.

Lemma slice_len_one n c :
  (n < c)%nat -> slice_len (sl (Z.of_nat n) (Z.of_nat n + 1)) c = 1%nat.
Proof. intros H. slice_len_tac. Qed.

Lemma channel_slice_shape b h w c (t : tensor4) (n : nat) :
  has_shape b h w c t -> (n < c)%nat ->
  has_shape b h w 1 (slice4 t full full full (sl (Z.of_nat n) (Z.of_nat n + 1))).
Proof.
  intros H Hn.
  eapply has_shape_eq; [exact (slice4_shape full full full _ H) | ..];
    rewrite ?slice_len_full; try reflexivity.
  now rewrite slice_len_one.
Qed.

Lemma at4_channel_slice b h w c (t : tensor4) (n : nat) i j k :
  has_shape b h w c t -> (n < c)%nat ->
  (i < b)%nat -> (j < h)%nat -> (k < w)%nat ->
  at4 (slice4 t full full full (sl (Z.of_nat n) (Z.of_nat n + 1))) i j k 0
  = at4 t i j k n.
Proof.
  intros H Hn Hi Hj Hk. rewrite slice4_channel.
  unfold at4, has_shape in *.
  pose proof (@all_len_nth _ _ _ _ i [] H Hi) as Hs.
  pose proof (@all_len_nth _ _ _ _ j [] Hs Hj) as Hr.
  pose proof (@all_len_nth _ _ _ _ k [] Hr Hk) as Hp. cbv beta in Hp.
  destruct H as [Hb _], Hs as [Hh _], Hr as [Hw _].
  rewrite (nth_map_dflt _ _ []) by lia.
  rewrite (nth_map_dflt _ _ []) by lia.
  rewrite (nth_map_dflt _ _ []) by lia.
  rewrite (@nth_take _ _ _ n 1); [f_equal; lia | | lia].
  rewrite Hp. slice_bounds_tac.
Qed.

Lemma K_concatenate3_last b h w c1 c2 c3 t1 t2 t3 :
  has_shape b h w c1 t1 -> has_shape b h w c2 t2 -> has_shape b h w c3 t3 ->
  K_concatenate [t1; t2; t3] AxisLast
  = Ok (cat AxisLast (cat AxisLast t1 t2) t3) /\
  has_shape b h w (c1 + c2 + c3) (cat AxisLast (cat AxisLast t1 t2) t3).
Proof.
  intros H1 H2 H3.
  pose proof (cat_shape_last H1 H2) as H12.
  pose proof (cat_shape_last H12 H3) as H123.
  split; [| exact H123].
  unfold K_concatenate. cbn [fold_left]. rewrite bind_Ok.
  rewrite (concat2_ok (ax := AxisLast) H1 H2) by congruence. rewrite bind_Ok.
  rewrite (concat2_ok (ax := AxisLast) H12 H3) by congruence. rewrite bind_Ok.
  now rewrite (has_shape_rect H123).
Qed.

Lemma at4_cat_last b h w c1 c2 t1 t2 i j k l :
  has_shape b h w c1 t1 -> has_shape b h w c2 t2 ->
  (i < b)%nat -> (j < h)%nat -> (k < w)%nat ->
  at4 (cat AxisLast t1 t2) i j k l =
  if (l <? c1)%nat then at4 t1 i j k l else at4 t2 i j k (l - c1).
Proof.
  intros H1 H2 Hi Hj Hk. unfold at4, cat, has_shape in *.
  pose proof (@all_len_nth _ _ _ _ i [] H1 Hi) as Hs1.
  pose proof (@all_len_nth _ _ _ _ i [] H2 Hi) as Hs2.
  pose proof (@all_len_nth _ _ _ _ j [] Hs1 Hj) as Hr1.
  pose proof (@all_len_nth _ _ _ _ j [] Hs2 Hj) as Hr2.
  pose proof (@all_len_nth _ _ _ _ k [] Hr1 Hk) as Hp1.
  pose proof (@all_len_nth _ _ _ _ k [] Hr2 Hk) as Hp2.
  cbv beta in Hp1, Hp2.
  destruct H1 as [Hb1 _], H2 as [Hb2 _], Hs1 as [Hh1 _], Hs2 as [Hh2 _],
    Hr1 as [Hw1 _], Hr2 as [Hw2 _].
  rewrite (nth_zip_with _ _ _ [] []) by lia.
  rewrite (nth_zip_with _ _ _ [] []) by lia.
  rewrite (nth_zip_with _ _ _ [] []) by lia.
  destruct (Nat.ltb_spec l c1).
  - apply app_nth1. lia.
  - rewrite app_nth2 by lia. now rewrite Hp1.
Qed.

(** The three masked colour channels of one operand. *)
Lemma masked_channels b h w c (y mask : tensor4) :
  has_shape b h w c y -> has_shape b h w 1 mask -> (3 <= c)%nat ->
  exists n,
    (ts <- mapM (fun i => tbin Rmult (slice4 y full full full (sl i (i + 1))) mask)
                [0; 1; 2]%Z ;;
     K_concatenate ts AxisLast) = Ok n /\
    has_shape b h w 3 n /\
    forall i j k l, (i < b)%nat -> (j < h)%nat -> (k < w)%nat -> (l < 3)%nat ->
      at4 n i j k l = at4 y i j k l * at4 mask i j k 0.
Proof.
  intros H Hm Hc.
  pose proof (@channel_slice_shape _ _ _ _ _ 0%nat H ltac:(lia)) as S0.
  pose proof (@channel_slice_shape _ _ _ _ _ 1%nat H ltac:(lia)) as S1.
  pose proof (@channel_slice_shape _ _ _ _ _ 2%nat H ltac:(lia)) as S2.
  cbn [Z.of_nat Pos.of_succ_nat Pos.succ] in S0, S1, S2.
  pose proof (zip4_shape Rmult S0 Hm) as Z0.
  pose proof (zip4_shape Rmult S1 Hm) as Z1.
  pose proof (zip4_shape Rmult S2 Hm) as Z2.
  destruct (K_concatenate3_last Z0 Z1 Z2) as [E S].
  eexists. split; [| split; [exact S |]].
  - cbn [mapM].
    rewrite (tbin_ok Rmult S0 Hm), bind_Ok.
    rewrite (tbin_ok Rmult S1 Hm), bind_Ok.
    rewrite (tbin_ok Rmult S2 Hm), !bind_Ok.
    exact E.
  - intros i j k l Hi Hj Hk Hl.
    rewrite (at4_cat_last _ (cat_shape_last Z0 Z1) Z2) by assumption.
    rewrite (at4_cat_last _ Z0 Z1) by assumption.
    destruct l as [|[|[|l]]]; [| | | lia]; cbn [Nat.ltb Nat.leb Nat.add Nat.sub].
    + rewrite (at4_zip4 _ S0 Hm) by lia.
      now rewrite (at4_channel_slice (n := 0%nat) H) by lia.
    + rewrite (at4_zip4 _ S1 Hm) by lia.
      now rewrite (at4_channel_slice (n := 1%nat) H) by lia.
    + rewrite (at4_zip4 _ S2 Hm) by lia.
      now rewrite (at4_channel_slice (n := 2%nat) H) by lia.
Qed.

Lemma _apply_mask_masked (b h w ct cp : nat) (y_true y_pred : tensor4)
  (m : nat) (mask_prop : R) :
  has_shape b h w ct y_true -> has_shape b h w cp y_pred ->
  (3 <= ct)%nat -> (3 <= cp)%nat -> (m < ct)%nat ->
  exists n_true n_pred,
    _apply_mask y_true y_pred (Z.of_nat m) mask_prop = Ok (n_true, n_pred) /\
    has_shape b h w 3 n_true /\ has_shape b h w 3 n_pred /\
    forall i j k l, (i < b)%nat -> (j < h)%nat -> (k < w)%nat -> (l < 3)%nat ->
      at4 n_true i j k l
      = at4 y_true i j k l * mask_weight mask_prop (at4 y_true i j k m) /\
      at4 n_pred i j k l
      = at4 y_pred i j k l * mask_weight mask_prop (at4 y_true i j k m).
Proof.
  intros Ht Hp Hct Hcp Hm. unfold _apply_mask.
  destruct (Z.eqb_spec (Z.of_nat m) (-1)) as [Hneg | _]; [lia |].
  rewrite (index_last_ok Ht Hm), bind_Ok. cbv zeta.
  set (mask := tmap _ (K_expand_dims_last _)).
  assert (Smask : has_shape b h w 1 mask) by apply (mask_shape m _ Ht).
  destruct (masked_channels Ht Smask Hct) as (n_true & Et & St & At).
  destruct (masked_channels Hp Smask Hcp) as (n_pred & Ep & Sp & Ap).
  exists n_true, n_pred.
  split; [| split; [exact St | split; [exact Sp |]]].
  - destruct (mapM _ [0; 1; 2]%Z) as [ts |] eqn:Ets; cbn [bind] in Et |- *;
      [| discriminate Et].
    rewrite Et, bind_Ok.
    destruct (mapM (fun i => tbin Rmult (slice4 y_pred _ _ _ _) mask) [0; 1; 2]%Z)
      as [ps |] eqn:Eps; cbn [bind] in Ep |- *; [| discriminate Ep].
    now rewrite Ep, bind_Ok.
  - intros i j k l Hi Hj Hk Hl.
    rewrite (At i j k l), (Ap i j k l) by assumption.
    unfold mask. rewrite (at4_mask m _ Ht) by assumption.
    split; reflexivity.
Qed.

(** X12.  With a mask channel [m] of [y_true] (0 <= m, both operands with
    at least 3 channels), [_apply_mask] returns two (b, h, w, 3) tensors:
    the first three channels of [y_true] and of [y_pred], each entry
    multiplied by [mask * mask_prop + (1 - mask_prop)], where [mask] is the
    entry of channel [m] of [y_true] at the same pixel. *)
Theorem X12_apply_mask_scales_three_channels (b h w ct cp : nat)
  (y_true y_pred : tensor4) (m : nat) (mask_prop : R) :
  has_shape b h w ct y_true -> has_shape b h w cp y_pred ->
  (3 <= ct)%nat -> (3 <= cp)%nat -> (m < ct)%nat ->
  exists n_true n_pred,
    _apply_mask y_true y_pred (Z.of_nat m) mask_prop = Ok (n_true, n_pred) /\
    has_shape b h w 3 n_true /\ has_shape b h w 3 n_pred /\
    forall i j k l, (i < b)%nat -> (j < h)%nat -> (k < w)%nat -> (l < 3)%nat ->
      at4 n_true i j k l
      = at4 y_true i j k l * (at4 y_true i j k m * mask_prop + (1 - mask_prop)) /\
      at4 n_pred i j k l
      = at4 y_pred i j k l * (at4 y_true i j k m * mask_prop + (1 - mask_prop)).
Proof. apply _apply_mask_masked. Qed.

Lemma img_masked_shape : has_shape 1 1 1 4 img_masked.
Proof. unfold has_shape, all_len, img_masked. cbn. repeat constructor. Defined.

Lemma img_masked_pred_shape : has_shape 1 1 1 3 img_masked_pred.
Proof. unfold has_shape, all_len, img_masked_pred. cbn. repeat constructor. Defined.

Lemma X12_apply_mask_scales_three_channels_witness :
  exists n_true n_pred,
    _apply_mask img_masked img_masked_pred 3 1.0 = Ok (n_true, n_pred) /\
    has_shape 1 1 1 3 n_true /\ has_shape 1 1 1 3 n_pred.
Proof.
  destruct (@X12_apply_mask_scales_three_channels 1 1 1 4 3
              img_masked img_masked_pred 3 1.0
              img_masked_shape img_masked_pred_shape)
    as (n_true & n_pred & E & St & Sp & _); try lia.
  exists n_true, n_pred. split; [exact E | split; [exact St | exact Sp]].
Defined.

Lemma mapM_head_err {A B} (f : A -> result B) x l e :
  f x = Err e -> mapM f (x :: l) = Err e.
Proof. intros H. cbn. now rewrite H. Qed.

Lemma index_last_out_of_range b h w c (t : tensor4) (m : Z) :
  has_shape b h w c t -> (0 < b)%nat -> (0 < h)%nat -> (0 < w)%nat ->
  (Z.of_nat c <= m \/ m < - Z.of_nat c)%Z ->
  index_last t m = Err IndexOutOfRange.
Proof.
  intros [Hb H] Hbp Hhp Hwp Hm. unfold index_last.
  destruct t as [|s t]; [cbn in Hb; lia |].
  inversion H as [|? ? [Hh Hs] _]; subst.
  apply mapM_head_err.
  destruct s as [|r s]; [cbn in Hhp; lia |].
  inversion Hs as [|? ? [Hw Hr] _]; subst.
  apply mapM_head_err.
  destruct r as [|p r]; [cbn in Hwp; lia |].
  inversion Hr as [|? ? Hp _]; subst.
  apply mapM_head_err.
  now apply py_index_out_of_range.
Qed.

(** X13.  On a non-empty [y_true] with [c] channels, a mask channel other
    than -1 that lies outside [-c, c) makes [_apply_mask] fail with an
    index error, whatever [y_pred] and [mask_prop] are. *)
Theorem X13_apply_mask_index_error (b h w c : nat) (y_true y_pred : tensor4)
  (mask_channel : Z) (mask_prop : R) :
  has_shape b h w c y_true -> (0 < b)%nat -> (0 < h)%nat -> (0 < w)%nat ->
  mask_channel <> (-1)%Z ->
  (Z.of_nat c <= mask_channel \/ mask_channel < - Z.of_nat c)%Z ->
  _apply_mask y_true y_pred mask_channel mask_prop = Err IndexOutOfRange.
Proof.
  intros H Hb Hh Hw Hne Hm. unfold _apply_mask.
  destruct (Z.eqb_spec mask_channel (-1)) as [Heq | _]; [congruence |].
  now rewrite (index_last_out_of_range H Hb Hh Hw Hm).
Qed.

Lemma X13_apply_mask_index_error_witness :
  _apply_mask img_masked img_masked_pred 4 1.0 = Err IndexOutOfRange.
Proof.
  apply (@X13_apply_mask_index_error 1 1 1 4 img_masked img_masked_pred 4 1.0
           img_masked_shape); cbn; lia.
Defined.

Lemma upto_3_shape b h w c (t : tensor4) :
  has_shape b h w c t -> (3 <= c)%nat ->
  has_shape b h w 3 (slice4 t full full full (upto 3)).
Proof.
  intros H Hc.
  eapply has_shape_eq; [exact (slice4_shape full full full (upto 3) H) | ..];
    rewrite ?slice_len_full; try reflexivity.
  change 3%Z with (Z.of_nat 3). rewrite slice_len_upto. lia.
Qed.

Lemma at4_upto_3 b h w c (t : tensor4) i j k l :
  has_shape b h w c t ->
  (i < b)%nat -> (j < h)%nat -> (k < w)%nat -> (l < 3)%nat ->
  at4 (slice4 t full full full (upto 3)) i j k l = at4 t i j k l.
Proof.
  intros H Hi Hj Hk Hl. rewrite slice4_upto_3.
  unfold at4, has_shape in *.
  pose proof (@all_len_nth _ _ _ _ i [] H Hi) as Hs.
  pose proof (@all_len_nth _ _ _ _ j [] Hs Hj) as Hr.
  destruct H as [Hb _], Hs as [Hh _], Hr as [Hw _].
  rewrite (nth_map_dflt _ _ []) by lia.
  rewrite (nth_map_dflt _ _ []) by lia.
  rewrite (nth_map_dflt _ _ []) by lia.
  rewrite nth_firstn. destruct (Nat.ltb_spec l 3); [reflexivity | lia].
Qed.

Lemma _apply_mask_all_ones (b h w ct cp : nat) (y_true y_pred : tensor4) (m : nat) :
  has_shape b h w ct y_true -> has_shape b h w cp y_pred ->
  (3 <= ct)%nat -> (3 <= cp)%nat -> (m < ct)%nat ->
  (forall i j k, (i < b)%nat -> (j < h)%nat -> (k < w)%nat ->
     at4 y_true i j k m = 1) ->
  _apply_mask y_true y_pred (Z.of_nat m) 1.0 = _apply_mask y_true y_pred (-1) 1.0.
Proof.
  intros Ht Hp Hct Hcp Hm Hones.
  destruct (_apply_mask_masked 1.0 Ht Hp Hct Hcp Hm)
    as (n_true & n_pred & E & St & Sp & Hat).
  rewrite E. unfold _apply_mask. change (-1 =? -1)%Z with true. cbv iota.
  do 2 f_equal.
  - apply (has_shape_ext St (upto_3_shape Ht Hct)).
    intros i j k l Hi Hj Hk Hl.
    destruct (Hat i j k l Hi Hj Hk Hl) as [-> _].
    rewrite (at4_upto_3 Ht) by assumption.
    unfold mask_weight. rewrite Hones by assumption. lra.
  - apply (has_shape_ext Sp (upto_3_shape Hp Hcp)).
    intros i j k l Hi Hj Hk Hl.
    destruct (Hat i j k l Hi Hj Hk Hl) as [_ ->].
    rewrite (at4_upto_3 Hp) by assumption.
    unfold mask_weight. rewrite Hones by assumption. lra.
Qed.

(** X14.  A mask channel whose entries are all 1 is the same as no mask:
    [_apply_mask] with the propagation 1.0 that [__call__] uses returns
    what it returns for [mask_channel = -1], and a metric registered with
    that channel gives the composition the output it gives when registered
    with -1. *)
Theorem X14_mask_of_ones_is_no_mask {TF : TensorFlow} (b h w ct cp : nat)
  (y_true y_pred : tensor4) (m : nat)
  (regs : list (Loss * R * Z)) (function : Loss) (weight : R) :
  has_shape b h w ct y_true -> has_shape b h w cp y_pred ->
  (3 <= ct)%nat -> (3 <= cp)%nat -> (m < ct)%nat ->
  (forall i j k, (i < b)%nat -> (j < h)%nat -> (k < w)%nat ->
     at4 y_true i j k m = 1) ->
  _apply_mask y_true y_pred (Z.of_nat m) _apply_mask_default_mask_prop
  = _apply_mask y_true y_pred (-1) _apply_mask_default_mask_prop /\
  LossWrapper___call__ (add_loss (wrapper_of regs) function weight (Z.of_nat m))
    y_true y_pred
  = LossWrapper___call__ (add_loss (wrapper_of regs) function weight (-1))
      y_true y_pred.
Proof.
  intros Ht Hp Hct Hcp Hm Hones.
  pose proof (_apply_mask_all_ones Ht Hp Hct Hcp Hm Hones) as E.
  split; [exact E |].
  rewrite !LossWrapper___call___add_loss. unfold call_step.
  unfold _apply_mask_default_mask_prop. now rewrite E.
Qed.

(** X15.  A mask channel whose entries are all 0 blanks both operands:
    with the propagation 1.0 that [__call__] uses, [_apply_mask] returns two
    all-zero (b, h, w, 3) tensors. *)
Theorem X15_mask_of_zeros_blanks_both (b h w ct cp : nat)
  (y_true y_pred : tensor4) (m : nat) :
  has_shape b h w ct y_true -> has_shape b h w cp y_pred ->
  (3 <= ct)%nat -> (3 <= cp)%nat -> (m < ct)%nat ->
  (forall i j k, (i < b)%nat -> (j < h)%nat -> (k < w)%nat ->
     at4 y_true i j k m = 0) ->
  _apply_mask y_true y_pred (Z.of_nat m) _apply_mask_default_mask_prop
  = Ok (zeros b h w 3, zeros b h w 3).
Proof.
  intros Ht Hp Hct Hcp Hm Hz.
  destruct (_apply_mask_masked 1.0 Ht Hp Hct Hcp Hm)
    as (n_true & n_pred & E & St & Sp & Hat).
  unfold _apply_mask_default_mask_prop. rewrite E.
  assert (Hzero : forall i j k l, (i < b)%nat -> (j < h)%nat -> (k < w)%nat ->
            (l < 3)%nat -> at4 (zeros b h w 3) i j k l = 0).
  { intros i j k l Hi Hj Hk Hl. unfold at4, zeros.
    rewrite !nth_repeat_lt by assumption. reflexivity. }
  do 2 f_equal.
  - apply (has_shape_ext St (zeros_shape b h w 3)).
    intros i j k l Hi Hj Hk Hl.
    destruct (Hat i j k l Hi Hj Hk Hl) as [-> _].
    rewrite Hzero by assumption.
    unfold mask_weight. rewrite Hz by assumption. lra.
  - apply (has_shape_ext Sp (zeros_shape b h w 3)).
    intros i j k l Hi Hj Hk Hl.
    destruct (Hat i j k l Hi Hj Hk Hl) as [_ ->].
    rewrite Hzero by assumption.
    unfold mask_weight. rewrite Hz by assumption. lra.
Qed.

Lemma img_mask_ones_shape : has_shape 1 1 1 4 img_mask_ones.
Proof. unfold has_shape, all_len, img_mask_ones. cbn. repeat constructor. Defined.

Lemma img_mask_zeros_shape : has_shape 1 1 1 4 img_mask_zeros.
Proof. unfold has_shape, all_len, img_mask_zeros. cbn. repeat constructor. Defined.

Lemma X14_mask_of_ones_is_no_mask_witness :
  _apply_mask img_mask_ones img_masked_pred 3 _apply_mask_default_mask_prop
  = _apply_mask img_mask_ones img_masked_pred (-1) _apply_mask_default_mask_prop /\
  LossWrapper___call__
    (add_loss (TF := TF_instance) (wrapper_of (TF := TF_instance) []) LInfNorm_scalar 1.0 3)
    img_mask_ones img_masked_pred
  = LossWrapper___call__
      (add_loss (TF := TF_instance) (wrapper_of (TF := TF_instance) []) LInfNorm_scalar 1.0 (-1))
      img_mask_ones img_masked_pred.
Proof.
  apply (@X14_mask_of_ones_is_no_mask TF_instance 1 1 1 4 3
           img_mask_ones img_masked_pred 3 [] LInfNorm_scalar 1.0
           img_mask_ones_shape img_masked_pred_shape); try lia.
  intros [|i] [|j] [|k] Hi Hj Hk; try lia. reflexivity.
Defined.

Lemma X15_mask_of_zeros_blanks_both_witness :
  _apply_mask img_mask_zeros img_masked_pred 3 _apply_mask_default_mask_prop
  = Ok ([[[[0; 0; 0]]]], [[[[0; 0; 0]]]]).
Proof.
  apply (@X15_mask_of_zeros_blanks_both 1 1 1 4 3
           img_mask_zeros img_masked_pred 3
           img_mask_zeros_shape img_masked_pred_shape); try lia.
  intros [|i] [|j] [|k] Hi Hj Hk; try lia. reflexivity.
Defined.

(* ================================================================== *)
(** * LossWrapper: registrations and the weighted sum *)

Lemma wrapper_of_from {TF : TensorFlow} (regs : list (Loss * R * Z)) self :
  let self' := fold_left (fun self '(function, weight, mask_channel) =>
                            add_loss self function weight mask_channel)
                         regs self in
  self'.(_loss_functions)
  = self.(_loss_functions) ++ map (fun r => LossesContainer (fst (fst r))) regs /\
  self'.(_loss_weights) = self.(_loss_weights) ++ map (fun r => snd (fst r)) regs /\
  self'.(_mask_channels) = self.(_mask_channels) ++ map (fun r => snd r) regs.
Proof.
  revert self. induction regs as [|[[f w] m] regs IH]; intros self; cbn zeta.
  - cbn. now rewrite !app_nil_r.
  - cbn [fold_left]. destruct (IH (add_loss self f w m)) as (H1 & H2 & H3).
    rewrite H1, H2, H3. cbn. now rewrite <- !app_assoc.
Qed.

(** X16.  After any sequence of [add_loss] calls on a new wrapper, the
    three lists of the wrapper hold the compiled functions, the weights and
    the mask channels of the registrations, in registration order, and so
    have the same length. *)
Theorem X16_add_loss_keeps_registrations {TF : TensorFlow}
  (regs : list (Loss * R * Z)) :
  (wrapper_of regs).(_loss_functions)
  = map (fun r => LossesContainer (fst (fst r))) regs /\
  (wrapper_of regs).(_loss_weights) = map (fun r => snd (fst r)) regs /\
  (wrapper_of regs).(_mask_channels) = map (fun r => snd r) regs /\
  length (wrapper_of regs).(_loss_functions) = length regs /\
  length (wrapper_of regs).(_loss_weights) = length regs /\
  length (wrapper_of regs).(_mask_channels) = length regs.
Proof.
  destruct (wrapper_of_from regs LossWrapper_init) as (H1 & H2 & H3).
  unfold wrapper_of. cbn in H1, H2, H3. rewrite H1, H2, H3.
  now rewrite !length_map.
Qed.

Lemma zip3_map {A B C D} (f : A -> B) (g : A -> C) (k : A -> D) (l : list A) :
  zip3 (map f l) (map g l) (map k l) = map (fun x => (f x, g x, k x)) l.
Proof. induction l; cbn; congruence. Qed.

Lemma LossWrapper___call___regs {TF : TensorFlow} regs y_true y_pred :
  LossWrapper___call__ (wrapper_of regs) y_true y_pred
  = fold_left (fun acc reg => loss <- acc ;; t <- term y_true y_pred reg ;;
                              Ok (loss + t))
              regs (Ok 0.0).
Proof.
  rewrite LossWrapper___call___fold.
  destruct (wrapper_of_from regs LossWrapper_init) as (H1 & H2 & H3).
  unfold wrapper_of. cbn in H1, H2, H3. rewrite H1, H2, H3, zip3_map.
  clear H1 H2 H3.
  generalize (Ok 0.0 : result R).
  induction regs as [|[[f w] m] regs IH]; intros acc; [reflexivity |].
  cbn [map fold_left]. rewrite IH. f_equal.
  unfold call_step, term. cbn [fst snd].
  destruct acc as [loss | e]; cbn [bind]; [| reflexivity].
  destruct (_apply_mask y_true y_pred m _apply_mask_default_mask_prop)
    as [[n_true n_pred] | e]; cbn [bind]; [| reflexivity].
  destruct (LossesContainer f n_true n_pred); reflexivity.
Qed.

Lemma fold_terms_ok {TF : TensorFlow} y_true y_pred regs ts acc :
  Forall2 (fun reg t => term y_true y_pred reg = Ok t) regs ts ->
  fold_left (fun acc reg => loss <- acc ;; t <- term y_true y_pred reg ;;
                            Ok (loss + t))
            regs (Ok acc)
  = Ok (acc + sum ts).
Proof.
  intros H. revert acc. induction H as [|reg t regs ts Ht _ IH]; intros acc.
  - cbn. f_equal. lra.
  - cbn [fold_left bind sum]. rewrite Ht. cbn [bind]. rewrite IH. f_equal. lra.
Qed.

Lemma fold_terms_err {TF : TensorFlow} y_true y_pred regs e :
  fold_left (fun acc reg => loss <- acc ;; t <- term y_true y_pred reg ;;
                            Ok (loss + t))
            regs (Err e)
  = Err e.
Proof. induction regs as [|reg regs IH]; [reflexivity | exact IH]. Qed.

(** X17.  When every registered metric returns a value, [__call__] returns
    their weighted sum: the sum over the registrations of the metric's value
    on the masked pair times the registered weight. *)
Theorem X17_call_is_weighted_sum {TF : TensorFlow}
  (regs : list (Loss * R * Z)) (ts : list R) (y_true y_pred : tensor4) :
  Forall2 (fun reg t => term y_true y_pred reg = Ok t) regs ts ->
  LossWrapper___call__ (wrapper_of regs) y_true y_pred = Ok (sum ts).
Proof.
  intros H. rewrite LossWrapper___call___regs.
  rewrite (@fold_terms_ok _ y_true y_pred regs ts 0.0 H). f_equal. lra.
Qed.

(** X18.  The first registration that fails decides the outcome: when the
    registrations before it return values and it fails, with a mask or a
    metric error, [__call__] returns that error whatever was registered
    after it. *)
Theorem X18_first_failure_is_returned {TF : TensorFlow}
  (before after : list (Loss * R * Z)) (reg : Loss * R * Z) (ts : list R)
  (e : error) (y_true y_pred : tensor4) :
  Forall2 (fun r t => term y_true y_pred r = Ok t) before ts ->
  term y_true y_pred reg = Err e ->
  LossWrapper___call__ (wrapper_of (before ++ reg :: after)) y_true y_pred = Err e.
Proof.
  intros Hb He. rewrite LossWrapper___call___regs, fold_left_app.
  rewrite (@fold_terms_ok _ y_true y_pred before ts 0.0 Hb).
  cbn [fold_left bind]. rewrite He. cbn [bind].
  apply fold_terms_err.
Qed.

Lemma term_unmasked_instance :
  term (TF := TF_instance) img_mask_ones img_masked_pred (LInfNorm_scalar, 2, (-1)%Z)
  = Ok (1 * 2).
Proof.
  unfold term, LInfNorm_scalar. cbn [LossesContainer TF_instance].
  unfold _apply_mask. change (-1 =? -1)%Z with true. cbv iota.
  cbv -[Rminus Rmult Rplus Rdiv IZR Rinv Ropp Rabs Rmax Q2R].
  rewrite !Rabs_right by lra.
  f_equal. lra.
Defined.

Lemma term_bad_channel_instance :
  term (TF := TF_instance) img_mask_ones img_masked_pred (LInfNorm_scalar, 1, 7%Z)
  = Err IndexOutOfRange.
Proof. reflexivity. Defined.

Lemma X17_call_is_weighted_sum_witness :
  LossWrapper___call__
    (wrapper_of (TF := TF_instance)
       [(LInfNorm_scalar, 2, (-1)%Z); (LInfNorm_scalar, 2, (-1)%Z)])
    img_mask_ones img_masked_pred
  = Ok (sum [1 * 2; 1 * 2]).
Proof.
  apply (@X17_call_is_weighted_sum TF_instance).
  constructor; [exact term_unmasked_instance |].
  constructor; [exact term_unmasked_instance | constructor].
Defined.

Lemma X18_first_failure_is_returned_witness :
  LossWrapper___call__
    (wrapper_of (TF := TF_instance)
       ([(LInfNorm_scalar, 2, (-1)%Z)] ++ (LInfNorm_scalar, 1, 7%Z)
          :: [(LInfNorm_scalar, 2, (-1)%Z)]))
    img_mask_ones img_masked_pred
  = Err IndexOutOfRange.
Proof.
  apply (@X18_first_failure_is_returned TF_instance _ _ _ [1 * 2]).
  - constructor; [exact term_unmasked_instance | constructor].
  - exact term_bad_channel_instance.
Defined.

(* ================================================================== *)
(** * MSSSIMLoss: the smallest size in closed form *)

Lemma halve_steps_pow (n : nat) (size : Z) :
  halve_steps n size = (size / 2 ^ Z.of_nat n)%Z.
Proof.
  unfold halve_steps. induction n as [|n IH].
  - cbn. now rewrite Z.div_1_r.
  - change (Nat.iter (S n) (fun s => (s / 2)%Z) size)
      with ((Nat.iter n (fun s => (s / 2)%Z) size) / 2)%Z.
    rewrite IH, Nat2Z.inj_succ, Z.pow_succ_r by lia.
    rewrite Z.div_div by lia. f_equal. lia.
Qed.

Lemma _get_smallest_size_pow (size idx : Z) :
  _get_smallest_size size idx = (size / 2 ^ Z.max idx 0)%Z.
Proof.
  destruct (Z.le_gt_cases idx 0) as [Hle | Hgt].
  - rewrite _get_smallest_size_nonpositive by assumption.
    rewrite Z.max_r by assumption. cbn. now rewrite Z.div_1_r.
  - rewrite Z.max_l by lia.
    rewrite <- (Z2Nat.id idx) at 1 by lia.
    rewrite _get_smallest_size_halves, halve_steps_pow.
    now rewrite Z2Nat.id by lia.
Qed.

(** X19.  [_get_smallest_size size idx] is the floor of
    [size / 2 ^ idx] when [idx] is positive, and [size] itself when [idx] is
    zero or negative (the recursion is not entered). *)
Theorem X19_get_smallest_size_closed_form (size idx : Z) :
  _get_smallest_size size idx = (size / 2 ^ Z.max idx 0)%Z /\
  ((idx <= 0)%Z -> _get_smallest_size size idx = size).
Proof.
  split; [apply _get_smallest_size_pow | apply _get_smallest_size_nonpositive].
Qed.

Lemma X19_get_smallest_size_closed_form_witness :
  _get_smallest_size 100 3 = (100 / 2 ^ Z.max 3 0)%Z /\
  _get_smallest_size 100 (-2) = 100%Z.
Proof.
  destruct (X19_get_smallest_size_closed_form 100 3) as [H _].
  destruct (X19_get_smallest_size_closed_form 100 (-2)) as [_ H'].
  split; [exact H | apply H'; lia].
Defined.

(** X20.  When the height of the input is below [2 ^ (levels - 1)], with
    [levels] the number of power factors, the smallest size is 0, and
    [MSSSIMLoss.call] passes the filter size 0 to the similarity primitive
    for every configured filter size that is not negative. *)
Theorem X20_msssim_small_image_filter_size_0 {TF : TensorFlow} (self : MSSSIMLoss)
  (b h w c : nat) (y_true y_pred : tensor4) :
  has_shape b h w c y_true -> (0 < b)%nat ->
  (Z.of_nat h < 2 ^ (Z.of_nat (length self.(power_factors)) - 1))%Z ->
  (0 <= self.(filter_size))%Z ->
  MSSSIMLoss_call self y_true y_pred
  = msssim_with_filter_size self y_true y_pred 0%Z.
Proof.
  intros H Hb Hsmall Hfs.
  unfold MSSSIMLoss_call, msssim_with_filter_size. cbv zeta.
  rewrite (int_shape_1_height H Hb).
  rewrite _get_smallest_size_pow.
  assert (Hlev : (0 <= Z.of_nat (length (power_factors self)) - 1)%Z).
  { destruct (Z.le_gt_cases 0 (Z.of_nat (length (power_factors self)) - 1))
      as [Hle | Hgt]; [assumption |].
    rewrite Z.pow_neg_r in Hsmall by lia. lia. }
  rewrite Z.max_l by lia.
  rewrite Z.div_small by lia.
  now rewrite Z.min_r by lia.
Qed.

Lemma img_8_shape : has_shape 1 8 8 1 img_8.
Proof.
  unfold has_shape, img_8. split; [reflexivity |].
  constructor; [| constructor].
  apply all_len_repeat. apply all_len_repeat. reflexivity.
Defined.

Lemma X20_msssim_small_image_filter_size_0_witness :
  MSSSIMLoss_call (TF := TF_instance) MSSSIMLoss_default img_8 img_8
  = msssim_with_filter_size (TF := TF_instance) MSSSIMLoss_default img_8 img_8 0%Z.
Proof.
  apply (@X20_msssim_small_image_filter_size_0 TF_instance MSSSIMLoss_default
           1 8 8 1 img_8 img_8 img_8_shape); cbn; lia.
Defined.

(* ================================================================== *)
(** * GradientLoss: the cross term and the exchange of the arguments *)

Lemma GeneralizedLoss_call_sym (self : GeneralizedLoss) (a b : tensor4) :
  GeneralizedLoss_call self a b = GeneralizedLoss_call self b a.
Proof.
  rewrite !GeneralizedLoss_call_elem.
  rewrite (tbin_minus_swap b a). unfold rmap.
  destruct (tbin Rminus b a) as [d | e]; cbn [bind]; [| reflexivity].
  rewrite tmap_tmap.
  rewrite (tmap_ext _ (call_elem self.(alpha) self.(beta)) d
             (call_elem_opp self.(alpha) self.(beta))).
  reflexivity.
Qed.

Lemma GeneralizedLoss___call___sym {TF : TensorFlow} (self : GeneralizedLoss)
  (a b : tensor4) :
  GeneralizedLoss___call__ self a b = GeneralizedLoss___call__ self b a.
Proof. unfold GeneralizedLoss___call__. now rewrite GeneralizedLoss_call_sym. Qed.

(** X21.  The cross term of [GradientLoss.call] does not depend on the
    images: on same-shaped inputs of height and width at least 2 the loss is
    the weighted average of the four generalized errors of the x, y, xx and
    yy fields and of the constant that the reduction gives on the all-zero
    (b, h, w) tensor. *)
Theorem X21_gradient_cross_term_is_constant {TF : TensorFlow} (self : GradientLoss)
  (b h w c : nat) (y_true y_pred : tensor4) :
  has_shape b h w c y_true -> has_shape b h w c y_pred ->
  (2 <= h)%nat -> (2 <= w)%nat ->
  exists x_t x_p y_t y_p xx_t xx_p yy_t yy_p g_x g_y g_xx g_yy,
    _diff_x y_true = Ok x_t /\ _diff_x y_pred = Ok x_p /\
    _diff_y y_true = Ok y_t /\ _diff_y y_pred = Ok y_p /\
    _diff_xx y_true = Ok xx_t /\ _diff_xx y_pred = Ok xx_p /\
    _diff_yy y_true = Ok yy_t /\ _diff_yy y_pred = Ok yy_p /\
    GeneralizedLoss___call__ self.(generalized_loss) x_t x_p = Ok g_x /\
    GeneralizedLoss___call__ self.(generalized_loss) y_t y_p = Ok g_y /\
    GeneralizedLoss___call__ self.(generalized_loss) xx_t xx_p = Ok g_xx /\
    GeneralizedLoss___call__ self.(generalized_loss) yy_t yy_p = Ok g_yy /\
    GradientLoss_call self y_true y_pred =
    Ok (weighted_average 1.0 1.0 g_x g_y g_xx g_yy (loss_reduction (zeros3 b h w))).
Proof.
  intros Ht Hp Hh Hw.
  destruct (_diff_x_shape Ht Hw) as (x_t & Ext & Sxt).
  destruct (_diff_x_shape Hp Hw) as (x_p & Exp & Sxp).
  destruct (_diff_y_shape Ht Hh) as (y_t & Eyt & Syt).
  destruct (_diff_y_shape Hp Hh) as (y_p & Eyp & Syp).
  destruct (_diff_xx_ok Ht Hw) as (xx_t & Exxt & Sxxt).
  destruct (_diff_xx_ok Hp Hw) as (xx_p & Exxp & Sxxp).
  destruct (_diff_yy_ok Ht Hh) as (yy_t & Eyyt & Syyt).
  destruct (_diff_yy_ok Hp Hh) as (yy_p & Eyyp & Syyp).
  set (gl := self.(generalized_loss)).
  destruct (GeneralizedLoss___call___ok gl Sxt Sxp) as (g_x & Egx).
  destruct (GeneralizedLoss___call___ok gl Syt Syp) as (g_y & Egy).
  destruct (GeneralizedLoss___call___ok gl Sxxt Sxxp) as (g_xx & Egxx).
  destruct (GeneralizedLoss___call___ok gl Syyt Syyp) as (g_yy & Egyy).
  exists x_t, x_p, y_t, y_p, xx_t, xx_p, yy_t, yy_p, g_x, g_y, g_xx, g_yy.
  repeat (split; [assumption |]).
  unfold GradientLoss_call. fold gl.
  rewrite Ext, bind_Ok, Exp, bind_Ok, Egx, bind_Ok.
  rewrite Eyt, bind_Ok, Eyp, bind_Ok, Egy, bind_Ok.
  rewrite Exxt, bind_Ok, Exxp, bind_Ok, Egxx, bind_Ok.
  rewrite Eyyt, bind_Ok, Eyyp, bind_Ok, Egyy, bind_Ok.
  rewrite (_diff_xy_zero Ht Hh Hw), bind_Ok, (_diff_xy_zero Hp Hh Hw), bind_Ok.
  rewrite (GeneralizedLoss___call___same gl (zeros_shape b h w c)), bind_Ok.
  f_equal. unfold weighted_average. lra.
Qed.

Lemma X21_gradient_cross_term_is_constant_witness :
  exists g_x g_y g_xx g_yy,
    GradientLoss_call (TF := TF_instance)
      {| generalized_loss := {| alpha := 1.9999; beta := GeneralizedLoss_default_beta |} |}
      img_2x2 img_2x2_pred
    = Ok (weighted_average 1.0 1.0 g_x g_y g_xx g_yy
            (loss_reduction (TensorFlow := TF_instance) (zeros3 1 2 2))).
Proof.
  destruct (@X21_gradient_cross_term_is_constant TF_instance
              {| generalized_loss :=
                   {| alpha := 1.9999; beta := GeneralizedLoss_default_beta |} |}
              1 2 2 1 img_2x2 img_2x2_pred
              img_2x2_shape img_2x2_pred_shape (le_n 2) (le_n 2))
    as (x_t & x_p & y_t & y_p & xx_t & xx_p & yy_t & yy_p &
        g_x & g_y & g_xx & g_yy & H).
  exists g_x, g_y, g_xx, g_yy. apply H.
Defined.

(** X22.  On same-shaped inputs of height and width at least 2,
    [GradientLoss.call] is symmetric in its two arguments. *)
Theorem X22_gradient_symmetric {TF : TensorFlow} (self : GradientLoss)
  (b h w c : nat) (y_true y_pred : tensor4) :
  has_shape b h w c y_true -> has_shape b h w c y_pred ->
  (2 <= h)%nat -> (2 <= w)%nat ->
  GradientLoss_call self y_true y_pred = GradientLoss_call self y_pred y_true.
Proof.
  intros Ht Hp Hh Hw.
  destruct (_diff_x_shape Ht Hw) as (x_t & Ext & Sxt).
  destruct (_diff_x_shape Hp Hw) as (x_p & Exp & Sxp).
  destruct (_diff_y_shape Ht Hh) as (y_t & Eyt & Syt).
  destruct (_diff_y_shape Hp Hh) as (y_p & Eyp & Syp).
  destruct (_diff_xx_ok Ht Hw) as (xx_t & Exxt & Sxxt).
  destruct (_diff_xx_ok Hp Hw) as (xx_p & Exxp & Sxxp).
  destruct (_diff_yy_ok Ht Hh) as (yy_t & Eyyt & Syyt).
  destruct (_diff_yy_ok Hp Hh) as (yy_p & Eyyp & Syyp).
  set (gl := self.(generalized_loss)).
  destruct (GeneralizedLoss___call___ok gl Sxt Sxp) as (g_x & Egx).
  destruct (GeneralizedLoss___call___ok gl Syt Syp) as (g_y & Egy).
  destruct (GeneralizedLoss___call___ok gl Sxxt Sxxp) as (g_xx & Egxx).
  destruct (GeneralizedLoss___call___ok gl Syyt Syyp) as (g_yy & Egyy).
  pose proof Egx as Egx'. rewrite GeneralizedLoss___call___sym in Egx'.
  pose proof Egy as Egy'. rewrite GeneralizedLoss___call___sym in Egy'.
  pose proof Egxx as Egxx'. rewrite GeneralizedLoss___call___sym in Egxx'.
  pose proof Egyy as Egyy'. rewrite GeneralizedLoss___call___sym in Egyy'.
  pose proof (_diff_xy_zero Ht Hh Hw) as Exyt.
  pose proof (_diff_xy_zero Hp Hh Hw) as Exyp.
  unfold GradientLoss_call. fold gl.
  repeat first
    [ rewrite bind_Ok
    | rewrite Ext | rewrite Exp | rewrite Eyt | rewrite Eyp
    | rewrite Exxt | rewrite Exxp | rewrite Eyyt | rewrite Eyyp
    | rewrite Exyt | rewrite Exyp
    | rewrite Egx | rewrite Egy | rewrite Egxx | rewrite Egyy
    | rewrite Egx' | rewrite Egy' | rewrite Egxx' | rewrite Egyy' ].
  reflexivity.
Qed.

Lemma X22_gradient_symmetric_witness :
  GradientLoss_call (TF := TF_instance)
    {| generalized_loss := {| alpha := 1.9999; beta := GeneralizedLoss_default_beta |} |}
    img_2x2 img_2x2_pred
  = GradientLoss_call (TF := TF_instance)
      {| generalized_loss := {| alpha := 1.9999; beta := GeneralizedLoss_default_beta |} |}
      img_2x2_pred img_2x2.
Proof.
  exact (@X22_gradient_symmetric TF_instance _ 1 2 2 1 img_2x2 img_2x2_pred
           img_2x2_shape img_2x2_pred_shape (le_n 2) (le_n 2)).
Defined.

(* ================================================================== *)
(** * GMSDLoss: the kernel bank and the value *)

Lemma scharr_matrix_shape : has_shape 5 5 1 2 scharr_matrix.
Proof. unfold has_shape, all_len, scharr_matrix. cbn. repeat constructor. Qed.

Lemma concat_repeat_singleton {A} (x : A) n : concat (repeat [x] n) = repeat x n.
Proof. induction n; cbn; congruence. Qed.

Lemma K_tile_axis2_shape (kernels : tensor4) a b n o :
  has_shape a b 1 o kernels ->
  has_shape a b n o (K_tile_axis2 kernels n) /\
  forall i j l q, (i < a)%nat -> (j < b)%nat -> (l < n)%nat -> (q < o)%nat ->
    at4 (K_tile_axis2 kernels n) i j l q = at4 kernels i j 0 q.
Proof.
  intros H. split.
  - unfold K_tile_axis2, has_shape.
    eapply all_len_map; [| exact H]. intros s Hs.
    eapply all_len_map; [| exact Hs]. intros r [Hr Hp].
    destruct r as [|p [|p' r]]; cbn in Hr; try discriminate.
    rewrite concat_repeat_singleton. apply all_len_repeat.
    now inversion Hp.
  - intros i j l q Hi Hj Hl Hq. unfold at4, K_tile_axis2, has_shape in *.
    pose proof (@all_len_nth _ _ _ _ i [] H Hi) as Hs.
    pose proof (@all_len_nth _ _ _ _ j [] Hs Hj) as Hr.
    destruct H as [Ha _], Hs as [Hb _].
    rewrite (nth_map_dflt _ _ []) by lia.
    rewrite (nth_map_dflt _ _ []) by lia.
    destruct Hr as [Hr _].
    destruct (nth j (nth i kernels []) []) as [|p [|p' r]]; cbn in Hr;
      try discriminate.
    rewrite concat_repeat_singleton.
    now rewrite (nth_repeat_lt p [] Hl).
Qed.

(** X23.  For an image with [c] channels, [_scharr_edges] in magnitude mode
    pads the image by 2 in height and width and convolves it with a
    (5, 5, c, 2) kernel bank that repeats the two Scharr filters for every
    channel; the direction branch is not taken. *)
Theorem X23_scharr_kernel_bank {TF : TensorFlow} (b h w c : nat) (image : tensor4) :
  has_shape b h w c image -> (0 < b)%nat -> (0 < h)%nat -> (0 < w)%nat ->
  exists kernels,
    has_shape 5 5 c 2 kernels /\
    (forall i j l q, (i < 5)%nat -> (j < 5)%nat -> (l < c)%nat -> (q < 2)%nat ->
       at4 kernels i j l q = at4 scharr_matrix i j 0 q) /\
    _scharr_edges image true
    = (padded <- tf_pad_reflect image [(0, 0); (2, 2); (2, 2); (0, 0)]%nat ;;
       K_depthwise_conv2d padded kernels).
Proof.
  intros H Hb Hh Hw.
  assert (Hc : shape_last image = c).
  { unfold shape_last. destruct H as [Hlen Hs].
    destruct image as [|s image]; [cbn in Hlen; lia |].
    inversion Hs as [|? ? [Hhs Hr] _]; subst.
    destruct s as [|r s]; [cbn in Hh; lia |].
    inversion Hr as [|? ? [Hwr Hp] _]; subst.
    destruct r as [|p r]; [cbn in Hw; lia |].
    now inversion Hp. }
  destruct (K_tile_axis2_shape c scharr_matrix_shape) as [S A].
  exists (K_tile_axis2 scharr_matrix c).
  split; [exact S |]. split; [exact A |].
  unfold _scharr_edges. cbv zeta. rewrite Hc. cbn [negb].
  destruct (tf_pad_reflect image _) as [padded | e]; cbn [bind]; [| reflexivity].
  destruct (K_depthwise_conv2d padded _); reflexivity.
Qed.

Lemma X23_scharr_kernel_bank_witness :
  exists kernels,
    has_shape 5 5 3 2 kernels /\
    _scharr_edges (TF := TF_instance) img_3ch true
    = (padded <- tf_pad_reflect (TensorFlow := TF_instance) img_3ch
                   [(0, 0); (2, 2); (2, 2); (0, 0)]%nat ;;
       K_depthwise_conv2d (TensorFlow := TF_instance) padded kernels).
Proof.
  destruct (@X23_scharr_kernel_bank TF_instance 1 2 2 3 img_3ch img_3ch_shape)
    as (kernels & S & _ & E); try lia.
  exists kernels. split; [exact S | exact E].
Defined.

Lemma K_squeeze_last_std (t : tensor4) :
  K_squeeze_last (K_std_123_keepdims t)
  = Ok (map (fun smp => [[std (concat (concat smp))]]) t).
Proof.
  unfold K_squeeze_last, K_std_123_keepdims.
  induction t as [|s t IH]; [reflexivity |].
  cbn [map mapM]. cbn [map mapM] in IH. rewrite IH. reflexivity.
Qed.

Lemma std_nonneg (l : list R) : 0 <= std l.
Proof. unfold std. apply sqrt_pos. Qed.

(** X24.  When both edge maps are computed and have the same shape,
    [GMSDLoss.call] returns one value per sample (shape (b, 1, 1)); it is
    never negative, and it is 0 for every sample when the two edge maps
    coincide, whether or not the images do. *)
Theorem X24_gmsd_value {TF : TensorFlow} (b h w c : nat)
  (y_true y_pred e_true e_pred : tensor4) :
  _scharr_edges y_true true = Ok e_true ->
  _scharr_edges y_pred true = Ok e_pred ->
  has_shape b h w c e_true -> has_shape b h w c e_pred ->
  exists out,
    GMSDLoss_call y_true y_pred = Ok out /\
    has_shape3 b 1 1 out /\
    (forall i, (i < b)%nat -> 0 <= at3 out i 0 0) /\
    (e_true = e_pred -> out = zeros3 b 1 1).
Proof.
  intros Et Ep St Sp.
  assert (Hcall : exists gms,
             has_shape b h w c gms /\
             GMSDLoss_call y_true y_pred
             = Ok (map (fun smp => [[std (concat (concat smp))]]) gms)).
  { unfold GMSDLoss_call. rewrite Et, Ep, !bind_Ok.
    pose proof (zip4_shape Rmult (tmap_shape (fun x => 2.0 * x) St) Sp) as Su.
    pose proof (zip4_shape Rplus (tmap_shape K_square St) (tmap_shape K_square Sp))
      as Sl.
    rewrite (tbin_ok Rmult (tmap_shape (fun x => 2.0 * x) St) Sp), bind_Ok.
    rewrite (tbin_ok Rplus (tmap_shape K_square St) (tmap_shape K_square Sp)), bind_Ok.
    rewrite (tbin_ok Rdiv (tmap_shape (fun x => x + 0.0025) Su)
               (tmap_shape (fun x => x + 0.0025) Sl)), bind_Ok.
    eexists. split; [| apply K_squeeze_last_std].
    apply zip4_shape; now apply tmap_shape. }
  destruct Hcall as (gms & Sg & E).
  exists (map (fun smp => [[std (concat (concat smp))]]) gms).
  split; [exact E |]. split; [| split].
  - destruct Sg as [Hb _]. split; [now rewrite length_map |].
    apply Forall_map, Forall_forall. intros smp _.
    split; [reflexivity |]. repeat constructor.
  - intros i Hi. unfold at3. destruct Sg as [Hb _].
    rewrite (nth_map_dflt _ _ []) by lia. apply std_nonneg.
  - intros Heq. subst e_pred.
    pose proof (GMSDLoss_call_same y_pred Ep Sp) as Hsame.
    assert (Hs : GMSDLoss_call y_true y_pred = GMSDLoss_call y_pred y_pred).
    { unfold GMSDLoss_call. now rewrite Et, Ep. }
    rewrite Hs, Hsame in E. now injection E as <-.
Qed.

Lemma X24_gmsd_value_witness :
  exists out,
    GMSDLoss_call (TF := TF_instance) img_2x2 img_2x2_pred = Ok out /\
    has_shape3 1 1 1 out /\
    (forall i, (i < 1)%nat -> 0 <= at3 out i 0 0).
Proof.
  destruct (@X24_gmsd_value TF_instance 1 2 2 1 img_2x2 img_2x2_pred
              img_2x2 img_2x2_pred
              (scharr_instance img_2x2) (scharr_instance img_2x2_pred)
              img_2x2_shape img_2x2_pred_shape)
    as (out & E & S & Hnn & _).
  exists out. split; [exact E | split; [exact S | exact Hnn]].
Defined.
